(** * dividend-fetch: the browser pool, the scraper, the cache and the HTTP handlers

    A shallow embedding of the server of [src/unnamed/part_001]
    (express + puppeteer + node-cache):

    - [Pool]    : [class BrowserPool] (lines 36-110) as a transition system
                  whose steps are the runs of code between two [await]s, and
                  the process with its signal handlers (lines 361-371);
    - [Scraper] : [scrapeDividendData] (lines 147-230) in a small state and
                  exception monad that records the calls it makes;
    - [Cache]   : the TTL store behind [cache.get] / [cache.set];
    - [Http]    : [validateTicker], [GET /dividend/:ticker],
                  [POST /dividends/batch], [DELETE /cache/:ticker?] and the
                  final handlers (lines 131-144, 245-358, 374-382);

    and of the earlier versions of the route, [src/app.js] and
    [src/unnamed/part_000] ([Variants]).

    JavaScript runs one job at a time: between two [await]s nothing else
    touches the pool, so every step below is atomic, and every [await] is a
    point where the steps of other requests may be scheduled. *)

From stdpp Require Import base option list strings gmap.
From Stdlib Require Import ZArith Lia.

Open Scope Z_scope.

(** Browser instances ([puppeteer.launch] results), pending promises
    (one per call of [getBrowser]) and pages are told apart by a number. *)
Definition browser := nat.
Definition caller := nat.
Definition page := nat.
(** A thrown [Error], by its [message]. *)
Definition error := string.

(** ** List primitives of the JavaScript arrays the pool uses *)

(** [Array.prototype.pop]: removes and returns the last element. *)
Fixpoint pop {A} (l : list A) : option (list A * A) :=
  match l with
  | [] => None
  | x :: l' =>
      match pop l' with
      | None => Some ([], x)
      | Some (r, y) => Some (x :: r, y)
      end
  end.

(** [Array.prototype.shift]: removes and returns the first element. *)
Definition shift {A} (l : list A) : option (A * list A) :=
  match l with
  | [] => None
  | x :: l' => Some (x, l')
  end.

(** [Array.prototype.push]. *)
Definition push {A} (l : list A) (x : A) : list A := l ++ [x].

(** Removes the first occurrence of [x]; [None] when there is none. *)
Fixpoint remove1 `{EqDecision A} (x : A) (l : list A) : option (list A) :=
  match l with
  | [] => None
  | y :: l' =>
      if decide (x = y) then Some l'
      else match remove1 x l' with
           | Some r => Some (y :: r)
           | None => None
           end
  end.


(** ** JSON values, and objects as maps from their keys *)

#[warnings="-register-all"]
Inductive json :=
  | JNull
  | JBool (b : bool)
  | JNum (n : Z)
  | JStr (s : string)
  | JObj (m : gmap string json).

Abbreviation object := (gmap string json) (only parsing).

(** An object literal [{k1: v1, k2: v2, ...}]: a later key wins. *)
Definition literal (fields : list (string * json)) : object :=
  foldl (λ m kv, <[kv.1 := kv.2]> m) ∅ fields.

(** ** Configuration (lines 13-27) *)

(** [parseInt(process.env.X) || d]; [v] is what [parseInt] gives, [None] for
    [NaN] (the variable is unset or does not start with a number). *)
Definition parseIntOr (v : option Z) (d : Z) : Z :=
  match v with
  | Some n => if n =? 0 then d else n
  | None => d
  end.

Record environment := Build_environment {
  CACHE_TTL : option Z;
  MAX_CONCURRENT_BROWSERS : option Z;
  BROWSER_TIMEOUT : option Z;
  RATE_LIMIT_MAX : option Z;
}.

Record config := Build_config {
  cache_ttl : Z;
  cache_checkPeriod : Z;
  browser_maxConcurrent : Z;
  browser_timeout : Z;
  rateLimit_windowMs : Z;
  rateLimit_max : Z;
}.

Definition CONFIG (env : environment) : config :=
  {| cache_ttl := parseIntOr (CACHE_TTL env) 60;
     cache_checkPeriod := 5;
     browser_maxConcurrent := parseIntOr (MAX_CONCURRENT_BROWSERS env) 3;
     browser_timeout := parseIntOr (BROWSER_TIMEOUT env) 30000;
     rateLimit_windowMs := 15 * 60 * 1000;
     rateLimit_max := parseIntOr (RATE_LIMIT_MAX env) 100 |}.

(** ** Strings *)

(** [String.prototype.includes]. *)
Fixpoint includes (sub s : string) : bool :=
  String.prefix sub s
  || match s with
     | EmptyString => false
     | String _ s' => includes sub s'
     end.

(** [toUpperCase] on the ASCII letters; other characters are kept. *)
Definition upper_ascii (a : Ascii.ascii) : Ascii.ascii :=
  let n := Ascii.nat_of_ascii a in
  if (97 <=? n)%nat && (n <=? 122)%nat then Ascii.ascii_of_nat (n - 32) else a.

Fixpoint upper_string (s : string) : string :=
  match s with
  | EmptyString => EmptyString
  | String a s' => String (upper_ascii a) (upper_string s')
  end.
Module Pool.

(** *** The object: [constructor] (lines 37-42) *)

Record pool := Build_pool {
  maxSize : Z;
  browsers : list browser;      (* this.browsers: the idle instances *)
  queue : list caller;          (* this.queue: the {resolve, reject} of each waiter *)
  activeBrowsers : Z;
}.

Definition constructor (maxSize : Z) : pool :=
  {| maxSize := maxSize; browsers := []; queue := []; activeBrowsers := 0 |}.

Definition set_browsers (l : list browser) (p : pool) : pool :=
  {| maxSize := maxSize p; browsers := l; queue := queue p;
     activeBrowsers := activeBrowsers p |}.
Definition set_queue (q : list caller) (p : pool) : pool :=
  {| maxSize := maxSize p; browsers := browsers p; queue := q;
     activeBrowsers := activeBrowsers p |}.
Definition set_active (n : Z) (p : pool) : pool :=
  {| maxSize := maxSize p; browsers := browsers p; queue := queue p;
     activeBrowsers := n |}.

(** *** [getBrowser] (lines 44-72) *)

(** What the executor of the promise did before it returned or suspended. *)
Inductive get_result :=
  | GotIdle (b : browser)     (* line 49: resolve(browser) with the popped instance *)
  | MustLaunch                (* line 52: suspended at await puppeteer.launch(...) *)
  | Queued.                   (* line 65: {resolve, reject} pushed on this.queue *)

(** Lines 47-66, up to the first [await]. [c] is the promise being built. *)
Definition getBrowser (c : caller) (p : pool) : pool * get_result :=
  match pop (browsers p) with
  | Some (rest, b) => (set_browsers rest p, GotIdle b)
  | None =>
      if activeBrowsers p <? maxSize p
      then (set_active (activeBrowsers p + 1) p, MustLaunch)
      else (set_queue (push (queue p) c) p, Queued)
  end.

(** Lines 67-70: [puppeteer.launch] rejected; the catch block. *)
Definition launchFailed (p : pool) : pool :=
  set_active (activeBrowsers p - 1) p.

(** *** [releaseBrowser] (lines 74-96) *)

(** Lines 77-80: [browser.pages()], then [pages[i].close()] for i = 1, 2, ...
    [closeFrom] is the loop: it stops at the first close that throws.
    The result lists the pages whose close was called, and the error if any. *)
Fixpoint closeFrom (closePage : page -> option error) (ps : list page)
  : list page * option error :=
  match ps with
  | [] => ([], None)
  | pg :: ps' =>
      match closePage pg with
      | Some e => ([pg], Some e)
      | None => let '(cl, r) := closeFrom closePage ps' in (pg :: cl, r)
      end
  end.

Definition cleanupPages (pages : error + list page)
  (closePage : page -> option error) : list page * option error :=
  match pages with
  | inl e => ([], Some e)
  | inr ps => closeFrom closePage (drop 1 ps)
  end.

Inductive release_result :=
  | HandedTo (c : caller)     (* lines 83-84: resolve(browser) of the shifted waiter *)
  | MadeIdle                  (* line 86 *)
  | MustClose.                (* line 88: suspended at await browser.close() *)

(** Lines 82-88, run after the last page was closed, up to the next [await]. *)
Definition releaseAfterCleanup (b : browser) (p : pool) : pool * release_result :=
  match shift (queue p) with
  | Some (c, rest) => (set_queue rest p, HandedTo c)
  | None =>
      if Z.of_nat (length (browsers p)) <? maxSize p
      then (set_browsers (push (browsers p) b) p, MadeIdle)
      else (p, MustClose)
  end.

(** Lines 89 and 93: [this.activeBrowsers--] after a [browser.close()] that
    returned. *)
Definition closedDecrement (p : pool) : pool :=
  set_active (activeBrowsers p - 1) p.

(** *** [cleanup] (lines 98-109) *)

(** Lines 107-108, after the loop. *)
Definition cleanupFinish (p : pool) : pool :=
  set_active 0 (set_browsers [] p).

(** ** The scheduler: the pool, its suspended calls and who holds what *)

(** Where a suspended [releaseBrowser] waits. *)
Inductive phase :=
  | Cleaning                  (* lines 77-79: pages() or a page close *)
  | ClosingSurplus            (* line 88: browser.close() in the else branch *)
  | ClosingBroken (e : error). (* line 92: browser.close() in the catch block,
                                  [e] the error that was caught *)

(** [held], [launching], [releasing] and [closed] are not fields of the
    program: they record which promise was resolved with which instance,
    which calls are suspended where, and which [close] calls returned. *)
Record world := Build_world {
  pl : pool;
  held : list (caller * browser);
  launching : list caller;
  releasing : list (caller * browser * phase);
  cleaning : option (nat * browser);  (* cleanup() suspended at line 102:
                                         index of the iterator, instance *)
  nextBrowser : browser;              (* the instance the next launch creates *)
  closed : list browser;              (* instances whose close() returned *)
}.

Definition init (maxSize : Z) : world :=
  {| pl := constructor maxSize; held := []; launching := []; releasing := [];
     cleaning := None; nextBrowser := 0%nat; closed := [] |}.

(** What a step lets the rest of the program see. *)
Inductive obs :=
  | Resolved (c : caller) (b : browser)   (* getBrowser promise c resolved with b *)
  | Rejected (c : caller) (e : error)     (* getBrowser promise c rejected with e *)
  | Launch (c : caller)                   (* puppeteer.launch called *)
  | PageClose (pg : page)                 (* pages[i].close() called *)
  | BrowserClose (b : browser)            (* browser.close() called *)
  | ReleaseReturned (c : caller) (b : browser)
  | ReleaseThrew (c : caller) (b : browser) (e : error)
  | ConsoleError (msg : string) (e : error).

(** The events that the event loop schedules. *)
Inductive event :=
  | EGet (c : caller)                               (* getBrowser() is called *)
  | ELaunched (c : caller) (r : option error)       (* the launch of c settles *)
  | ERelease (c : caller) (b : browser)             (* c calls releaseBrowser(b) *)
  | EPages (b : browser) (pages : error + list page)
           (closePage : page -> option error)       (* lines 77-80 ran *)
  | EClosed (b : browser) (r : option error)        (* a close of lines 88/92 settles *)
  | ECleanup                                        (* cleanup() is called *)
  | ECleanupClosed (r : option error).              (* the close of line 102 settles *)

Definition with_pl (p : pool) (w : world) : world :=
  {| pl := p; held := held w; launching := launching w; releasing := releasing w;
     cleaning := cleaning w; nextBrowser := nextBrowser w; closed := closed w |}.
Definition with_held (h : list (caller * browser)) (w : world) : world :=
  {| pl := pl w; held := h; launching := launching w; releasing := releasing w;
     cleaning := cleaning w; nextBrowser := nextBrowser w; closed := closed w |}.
Definition with_launching (l : list caller) (w : world) : world :=
  {| pl := pl w; held := held w; launching := l; releasing := releasing w;
     cleaning := cleaning w; nextBrowser := nextBrowser w; closed := closed w |}.
Definition with_releasing (r : list (caller * browser * phase)) (w : world) : world :=
  {| pl := pl w; held := held w; launching := launching w; releasing := r;
     cleaning := cleaning w; nextBrowser := nextBrowser w; closed := closed w |}.
Definition with_cleaning (c : option (nat * browser)) (w : world) : world :=
  {| pl := pl w; held := held w; launching := launching w; releasing := releasing w;
     cleaning := c; nextBrowser := nextBrowser w; closed := closed w |}.
Definition with_next (n : browser) (w : world) : world :=
  {| pl := pl w; held := held w; launching := launching w; releasing := releasing w;
     cleaning := cleaning w; nextBrowser := n; closed := closed w |}.
Definition with_closed (l : list browser) (w : world) : world :=
  {| pl := pl w; held := held w; launching := launching w; releasing := releasing w;
     cleaning := cleaning w; nextBrowser := nextBrowser w; closed := l |}.

(** The suspended release of [b], if there is one. *)
Fixpoint find_release (b : browser) (l : list (caller * browser * phase))
  : option (caller * phase * list (caller * browser * phase)) :=
  match l with
  | [] => None
  | (c, b', ph) :: l' =>
      if decide (b = b') then Some (c, ph, l')
      else match find_release b l' with
           | Some (c0, ph0, r) => Some (c0, ph0, (c, b', ph) :: r)
           | None => None
           end
  end.

(** One step of the event loop. [None]: the event cannot happen in [w] (no
    such suspended call; a caller releasing an instance it does not hold; a
    second [cleanup] while one is suspended). *)
Definition step (ev : event) (w : world) : option (world * list obs) :=
  match ev with
  | EGet c =>
      let '(p, r) := getBrowser c (pl w) in
      match r with
      | GotIdle b =>
          Some (with_held (held w ++ [(c, b)]) (with_pl p w), [Resolved c b])
      | MustLaunch =>
          Some (with_launching (launching w ++ [c]) (with_pl p w), [Launch c])
      | Queued => Some (with_pl p w, [])
      end
  | ELaunched c r =>
      l ← remove1 c (launching w);
      match r with
      | None =>
          (* line 63: resolve(browser) *)
          let b := nextBrowser w in
          Some (with_next (S b) (with_held (held w ++ [(c, b)]) (with_launching l w)),
                [Resolved c b])
      | Some e =>
          (* lines 68-69 *)
          Some (with_pl (launchFailed (pl w)) (with_launching l w), [Rejected c e])
      end
  | ERelease c b =>
      h ← remove1 (c, b) (held w);
      Some (with_releasing (releasing w ++ [(c, b, Cleaning)]) (with_held h w), [])
  | EPages b pages closePage =>
      '(c, ph, rest) ← find_release b (releasing w);
      match ph with
      | Cleaning =>
          let '(cl, r) := cleanupPages pages closePage in
          let o := PageClose <$> cl in
          match r with
          | Some e =>
              (* line 92: the catch block calls browser.close() *)
              Some (with_releasing ((c, b, ClosingBroken e) :: rest) w,
                    o ++ [BrowserClose b])
          | None =>
              let '(p, rr) := releaseAfterCleanup b (pl w) in
              match rr with
              | HandedTo c' =>
                  Some (with_held (held w ++ [(c', b)])
                          (with_releasing rest (with_pl p w)),
                        o ++ [Resolved c' b; ReleaseReturned c b])
              | MadeIdle =>
                  Some (with_releasing rest (with_pl p w), o ++ [ReleaseReturned c b])
              | MustClose =>
                  Some (with_releasing ((c, b, ClosingSurplus) :: rest) (with_pl p w),
                        o ++ [BrowserClose b])
              end
          end
      | _ => None
      end
  | EClosed b r =>
      '(c, ph, rest) ← find_release b (releasing w);
      match ph, r with
      | Cleaning, _ => None
      | ClosingSurplus, None =>
          (* line 89 *)
          Some (with_closed (closed w ++ [b])
                  (with_releasing rest (with_pl (closedDecrement (pl w)) w)),
                [ReleaseReturned c b])
      | ClosingSurplus, Some e =>
          (* line 88 threw: caught at line 91, line 92 calls close() again *)
          Some (with_releasing ((c, b, ClosingBroken e) :: rest) w, [BrowserClose b])
      | ClosingBroken e0, None =>
          (* lines 93-94 *)
          Some (with_closed (closed w ++ [b])
                  (with_releasing rest (with_pl (closedDecrement (pl w)) w)),
                [ConsoleError "Error releasing browser:" e0; ReleaseReturned c b])
      | ClosingBroken _, Some e =>
          (* line 92 threw inside the catch block: releaseBrowser rejects *)
          Some (with_releasing rest w, [ReleaseThrew c b e])
      end
  | ECleanup =>
      match cleaning w with
      | Some _ => None
      | None =>
          match browsers (pl w) !! 0%nat with
          | Some b => Some (with_cleaning (Some (0%nat, b)) w, [BrowserClose b])
          | None => Some (with_pl (cleanupFinish (pl w)) w, [])
          end
      end
  | ECleanupClosed r =>
      '(i, b) ← cleaning w;
      let w1 := match r with None => with_closed (closed w ++ [b]) w | Some _ => w end in
      let o1 := match r with
                | None => []
                | Some e => [ConsoleError "Error closing browser during cleanup:" e]
                end in
      match browsers (pl w) !! S i with
      | Some b' => Some (with_cleaning (Some (S i, b')) w1, o1 ++ [BrowserClose b'])
      | None => Some (with_cleaning None (with_pl (cleanupFinish (pl w)) w1), o1)
      end
  end.

(** A schedule, run from [w]; the observations are concatenated. *)
Fixpoint run (evs : list event) (w : world) : option (world * list obs) :=
  match evs with
  | [] => Some (w, [])
  | ev :: evs' =>
      '(w1, o1) ← step ev w;
      '(w2, o2) ← run evs' w1;
      Some (w2, o1 ++ o2)
  end.

(** [cleanup()] run from call to return with nothing scheduled in between:
    the call, then one settled close per idle instance. *)
Definition cleanupAlone (rs : list (option error)) : list event :=
  ECleanup :: (ECleanupClosed <$> rs).

(** Every instance the pool or a caller can still reach. *)
Definition owned (w : world) : list browser :=
  browsers (pl w) ++ (snd <$> held w) ++ ((λ x, snd (fst x)) <$> releasing w).

(** *** The invariant *)

(** What holds in every world a schedule reaches from [init M]: the bound
    on the counter, and that the idle list, the instances on loan and the
    instances being released are pairwise disjoint and without repetition;
    every instance was created by an earlier launch. *)
Definition Inv (M : Z) (w : world) : Prop :=
  maxSize (pl w) = M
  ∧ activeBrowsers (pl w) ≤ M
  ∧ NoDup (owned w)
  ∧ Forall (λ b, (b < nextBrowser w)%nat) (owned w).

(** The instances that exist or are being created. *)
Definition live (w : world) : Z :=
  Z.of_nat (length (owned w) + length (launching w)).

Definition is_cleanup (ev : event) : bool :=
  match ev with
  | ECleanup | ECleanupClosed _ => true
  | _ => false
  end.

(** The calls of [releaseBrowser] that rejected. *)
Definition is_threw (x : obs) : bool :=
  match x with
  | ReleaseThrew _ _ _ => true
  | _ => false
  end.

Definition leaks (o : list obs) : Z := Z.of_nat (length (filter is_threw o)).

(** *** A schedule used in the examples

    A pool of size 1: caller 1 gets a new instance, caller 2 is queued,
    caller 1 releases the instance (two pages open), which is handed to
    caller 2. *)
Definition demo_events : list event :=
  [EGet 1%nat; ELaunched 1%nat None; EGet 2%nat; ERelease 1%nat 0%nat;
   EPages 0%nat (inr [7%nat; 8%nat]) (λ _, None)].

Definition demo_world : world :=
  {| pl := {| maxSize := 1; browsers := []; queue := []; activeBrowsers := 1 |};
     held := [(2%nat, 0%nat)]; launching := []; releasing := [];
     cleaning := None; nextBrowser := 1%nat; closed := [] |}.

Definition demo_obs : list obs :=
  [Launch 1%nat; Resolved 1%nat 0%nat; PageClose 8%nat;
   Resolved 2%nat 0%nat; ReleaseReturned 1%nat 0%nat].

(** A pool of size 3 where instance 0 is on loan to caller 1 and
    instance 1 is idle. *)
Definition signal_world : world :=
  {| pl := {| maxSize := 3; browsers := [1%nat]; queue := []; activeBrowsers := 2 |};
     held := [(1%nat, 0%nat)]; launching := []; releasing := [];
     cleaning := None; nextBrowser := 2%nat; closed := [] |}.

(** A pool of size 1 whose only instance is on loan to caller 1 while
    caller 2 waits. *)
Definition waiting_world : world :=
  {| pl := {| maxSize := 1; browsers := []; queue := [2%nat]; activeBrowsers := 1 |};
     held := [(1%nat, 0%nat)]; launching := []; releasing := [];
     cleaning := None; nextBrowser := 1%nat; closed := [] |}.

(** *** What [cleanup] does when it runs alone *)

(** Lines 103-105: what the loop logs for a close that settled with [r]. *)
Definition cleanup_log (r : option error) : list obs :=
  match r with
  | None => []
  | Some e => [ConsoleError "Error closing browser during cleanup:" e]
  end.

(** The calls and the log of the loop over the instances [bs] whose closes
    settle with [rs]. *)
Fixpoint cleanup_trace (bs : list browser) (rs : list (option error)) : list obs :=
  match bs, rs with
  | b :: bs', r :: rs' => BrowserClose b :: cleanup_log r ++ cleanup_trace bs' rs'
  | _, _ => []
  end.

(** The instances among [bs] whose close returned. *)
Fixpoint cleanup_closed (bs : list browser) (rs : list (option error)) : list browser :=
  match bs, rs with
  | b :: bs', r :: rs' =>
      match r with None => [b] | Some _ => [] end ++ cleanup_closed bs' rs'
  | _, _ => []
  end.

(** *** The process and its signal handlers (lines 361-371) *)

Inductive signal := SIGINT | SIGTERM.

Definition signal_name (s : signal) : string :=
  match s with
  | SIGINT => "SIGINT"
  | SIGTERM => "SIGTERM"
  end.

(** What the process does, seen from outside. *)
Inductive pobs :=
  | PoolObs (o : obs)                   (* done by getBrowser or releaseBrowser *)
  | HandlerObs (s : signal) (o : obs)   (* done by the cleanup() of the handler of s *)
  | ConsoleLog (msg : string)
  | ProcessExit (code : Z).

(** The loop of a [cleanup()] suspended at line 102: the index of its
    iterator and the instance whose [close] it awaits. *)
Abbreviation iterator := (nat * browser)%type (only parsing).

(** [cleanup()] is called by the signal handlers only, and a handler exits
    the process as soon as its [cleanup()] has returned. The process is the
    pool together with the handlers that are suspended at line 363 or 369,
    each with the iterator of its own [cleanup()]; in [pworld] the field
    [cleaning] holds an iterator only while a step of that [cleanup()]
    runs. Every signal starts a handler, also while others are suspended:
    all their loops go over the same array [this.browsers]. *)
Record process := Build_process {
  pworld : world;
  handlers : list (signal * iterator);
  exited : option Z;                    (* the code given to process.exit *)
}.

(** Line 112: the program starts with a new pool. *)
Definition boot (maxSize : Z) : process :=
  {| pworld := init maxSize; handlers := []; exited := None |}.

(** The program running with its pool in [w] and no handler suspended. *)
Definition running (w : world) : process :=
  {| pworld := w; handlers := []; exited := None |}.

Inductive pevent :=
  | PPool (ev : event)            (* an event of getBrowser or releaseBrowser *)
  | PSignal (s : signal)          (* the signal is delivered *)
  | PCleanupClosed (k : nat) (r : option error).
                                  (* the close awaited by the k-th suspended
                                     handler settles *)

(** The handler of [s] after a step of its [cleanup()] that led to [w']:
    it is suspended at line 102 again and is kept as [suspend] says, or
    [cleanup()] has returned and line 364 or 370 exits the process, the
    handlers [others] never being resumed. The continuation of
    [await browserPool.cleanup()] is the job that runs next once
    [cleanup()] has returned, so nothing happens in between. *)
Definition handlerStep (s : signal)
    (suspend : signal * iterator → list (signal * iterator))
    (others : list (signal * iterator)) (w' : world) (o : list obs)
  : process * list pobs :=
  match cleaning w' with
  | Some it =>
      ({| pworld := with_cleaning None w'; handlers := suspend (s, it); exited := None |},
       HandlerObs s <$> o)
  | None =>
      ({| pworld := w'; handlers := others; exited := Some 0 |},
       (HandlerObs s <$> o) ++ [ProcessExit 0])
  end.

(** One step of the process. [None]: the event cannot happen (the process
    has exited; no such suspended call). *)
Definition pstep (ev : pevent) (p : process) : option (process * list pobs) :=
  match exited p with
  | Some _ => None
  | None =>
      match ev with
      | PPool ev =>
          (* cleanup() is called by the handlers only *)
          if is_cleanup ev then None
          else
            match step ev (pworld p) with
            | Some (w', o) =>
                Some ({| pworld := w'; handlers := handlers p; exited := None |},
                      PoolObs <$> o)
            | None => None
            end
      | PSignal s =>
          (* lines 362-363 (368-369): the log, then cleanup() up to its
             first await or to its end *)
          match step ECleanup (with_cleaning None (pworld p)) with
          | Some (w', o) =>
              let '(p', o') :=
                handlerStep s (λ h, handlers p ++ [h]) (handlers p) w' o in
              Some (p', ConsoleLog ("Received " +:+ signal_name s
                                    +:+ ", shutting down gracefully...") :: o')
          | None => None
          end
      | PCleanupClosed k r =>
          match handlers p !! k with
          | Some (s, it) =>
              match step (ECleanupClosed r) (with_cleaning (Some it) (pworld p)) with
              | Some (w', o) =>
                  Some (handlerStep s (λ h, <[k := h]> (handlers p))
                          (delete k (handlers p)) w' o)
              | None => None
              end
          | None => None
          end
      end
  end.

(** A schedule of the process. *)
Fixpoint prun (evs : list pevent) (p : process) : option (process * list pobs) :=
  match evs with
  | [] => Some (p, [])
  | ev :: evs' =>
      '(p1, o1) ← pstep ev p;
      '(p2, o2) ← prun evs' p1;
      Some (p2, o1 ++ o2)
  end.

(** The instance [b] has had its [close] called by a handler, or a
    [getBrowser] promise has been resolved with it. *)
Definition closed_or_taken (o : list pobs) (b : browser) : Prop :=
  (∃ s, HandlerObs s (BrowserClose b) ∈ o) ∨ (∃ c, PoolObs (Resolved c b) ∈ o).

(** The [getBrowser] promises that a trace settles. *)
Definition settles (x : pobs) : option caller :=
  match x with
  | PoolObs (Resolved c _) | PoolObs (Rejected c _)
  | HandlerObs _ (Resolved c _) | HandlerObs _ (Rejected c _) => Some c
  | _ => None
  end.

Definition settled (o : list pobs) : list caller := omap settles o.

(** The steps of the signal handlers and of their [cleanup()]. *)
Definition is_handler (ev : pevent) : bool :=
  match ev with
  | PPool _ => false
  | PSignal _ | PCleanupClosed _ _ => true
  end.

(** What holds in every state the process reaches: the idle list, the
    instances on loan and the instances being released are pairwise
    disjoint and without repetition, every instance was created by an
    earlier launch, and callers wait only while the idle list is empty. *)
Definition PInv (p : process) : Prop :=
  NoDup (owned (pworld p))
  ∧ Forall (λ b, (b < nextBrowser (pworld p))%nat) (owned (pworld p))
  ∧ (queue (pl (pworld p)) ≠ [] → browsers (pl (pworld p)) = []).
(** ** Lemmas on the list primitives *)

(** Closes a goal with a hypothesis [H : x ∈ l] for a list [l] that is given
    by its elements, none of which is [x]. *)
Ltac no_resolved H :=
  exfalso; simpl in H; rewrite ?elem_of_app, ?elem_of_cons, ?elem_of_nil in H;
  intuition discriminate.


Lemma pop_Some {A} (l r : list A) x : pop l = Some (r, x) → l = r ++ [x].
Proof.
  revert r. induction l as [|y l IH]; intros r H; simpl in H; [done|].
  destruct (pop l) as [[r' z]|] eqn:E.
  - simplify_eq. rewrite (IH r' eq_refl). done.
  - simplify_eq. destruct l; [done|]. simpl in E. destruct (pop l) as [[??]|]; done.
Qed.

Lemma pop_None {A} (l : list A) : pop l = None → l = [].
Proof. destruct l; [done|]. simpl. destruct (pop l) as [[??]|]; done. Qed.

Lemma pop_app {A} (l : list A) x : pop (l ++ [x]) = Some (l, x).
Proof. induction l as [|y l IH]; simpl; [done|]. by rewrite IH. Qed.

Lemma shift_Some {A} (l r : list A) x : shift l = Some (x, r) → l = x :: r.
Proof. destruct l; simpl; intros H; by simplify_eq. Qed.

Lemma remove1_perm `{EqDecision A} (x : A) l r : remove1 x l = Some r → l ≡ₚ x :: r.
Proof.
  revert r. induction l as [|y l IH]; intros r H; simpl in H; [done|].
  case_decide; simplify_eq; [done|].
  destruct (remove1 x l) eqn:E; simplify_eq.
  rewrite (IH _ eq_refl). apply perm_swap.
Qed.

Lemma find_release_perm b l c ph r :
  find_release b l = Some (c, ph, r) → l ≡ₚ (c, b, ph) :: r.
Proof.
  revert r. induction l as [|[[c' b'] ph'] l IH]; intros r H; simpl in H; [done|].
  case_decide; simplify_eq; [done|].
  destruct (find_release b l) as [[[??]?]|] eqn:E; simplify_eq.
  rewrite (IH _ eq_refl). apply perm_swap.
Qed.

Lemma NoDup_submseteq_mono {A} (l k : list A) : l ⊆+ k → NoDup k → NoDup l.
Proof.
  intros [k' Hk]%submseteq_Permutation. rewrite Hk. by intros [? _]%NoDup_app.
Qed.

Lemma step_owned ev w w' o :
  step ev w = Some (w', o) →
  (owned w' ⊆+ owned w ∧ nextBrowser w' = nextBrowser w)
  ∨ (owned w' ≡ₚ nextBrowser w :: owned w ∧ nextBrowser w' = S (nextBrowser w)).
Proof.
  destruct ev as [c|c r|c b|b pages closePage|b r| |r]; simpl; intros H.
  - unfold getBrowser in H.
    destruct (pop (browsers (pl w))) as [[rest b]|] eqn:E.
    + simplify_eq. left. split; [|done]. apply pop_Some in E.
      unfold owned; simpl. rewrite E, ?fmap_app. simpl. solve_submseteq.
    + destruct (_ <? _); simplify_eq; left; (split; [|done]); unfold owned; simpl; done.
  - destruct (remove1 c (launching w)) eqn:E; simpl in H; [|done].
    destruct r; simplify_eq.
    + left. done.
    + right. split; [|done]. unfold owned; simpl. rewrite fmap_app. simpl. solve_Permutation.
  - destruct (remove1 (c, b) (held w)) eqn:E; simpl in H; [|done]. simplify_eq.
    left. split; [|done]. apply remove1_perm in E. unfold owned; simpl.
    rewrite E, ?fmap_app. simpl. solve_submseteq.
  - destruct (find_release b (releasing w)) as [[[c ph] rest]|] eqn:E; simpl in H; [|done].
    apply find_release_perm in E.
    destruct ph; try done.
    destruct (cleanupPages pages closePage) as [cl [e|]].
    + simplify_eq. left. split; [|done]. unfold owned; simpl.
      rewrite E, ?fmap_app. simpl. solve_submseteq.
    + unfold releaseAfterCleanup in H.
      destruct (shift (queue (pl w))) as [[c' q]|].
      * simplify_eq. left. split; [|done]. unfold owned; simpl.
        rewrite E, ?fmap_app. simpl. solve_submseteq.
      * destruct (_ <? _); simplify_eq; left; (split; [|done]); unfold owned, push; simpl;
          rewrite E, ?fmap_app; simpl; solve_submseteq.
  - destruct (find_release b (releasing w)) as [[[c ph] rest]|] eqn:E; simpl in H; [|done].
    apply find_release_perm in E.
    destruct ph, r; simplify_eq; left; (split; [|done]); unfold owned; simpl;
      rewrite E, ?fmap_app; simpl; solve_submseteq.
  - destruct (cleaning w); [done|].
    destruct (browsers (pl w) !! 0%nat); simplify_eq; left; (split; [|done]); unfold owned; simpl.
    + done.
    + solve_submseteq.
  - destruct (cleaning w) as [[i b]|]; simpl in H; [|done].
    destruct (browsers (pl w) !! S i); destruct r; simplify_eq; left; (split; [|done]);
      unfold owned; simpl; try done; solve_submseteq.
Qed.

Lemma step_counts ev w w' o :
  step ev w = Some (w', o) →
  0 ≤ maxSize (pl w) →
  activeBrowsers (pl w) ≤ maxSize (pl w) →
  maxSize (pl w') = maxSize (pl w) ∧ activeBrowsers (pl w') ≤ maxSize (pl w').
Proof.
  intros H Hm Ha.
  destruct ev as [c|c r|c b|b pages closePage|b r| |r]; simpl in H.
  - unfold getBrowser in H.
    destruct (pop (browsers (pl w))) as [[rest b]|]; [by simplify_eq|].
    destruct (_ <? _) eqn:E; simplify_eq; simpl; [|done].
    apply Z.ltb_lt in E. lia.
  - destruct (remove1 c (launching w)); simpl in H; [|done].
    destruct r; simplify_eq; simpl; [lia|done].
  - destruct (remove1 (c, b) (held w)); simpl in H; [|done]. by simplify_eq.
  - destruct (find_release b (releasing w)) as [[[c ph] rest]|]; simpl in H; [|done].
    destruct ph; try done.
    destruct (cleanupPages pages closePage) as [cl [e|]]; [by simplify_eq|].
    unfold releaseAfterCleanup in H.
    destruct (shift (queue (pl w))) as [[c' q]|]; [by simplify_eq|].
    destruct (_ <? _); by simplify_eq.
  - destruct (find_release b (releasing w)) as [[[c ph] rest]|]; simpl in H; [|done].
    destruct ph, r; simplify_eq; simpl; try done; lia.
  - destruct (cleaning w); [done|].
    destruct (browsers (pl w) !! 0%nat); by simplify_eq.
  - destruct (cleaning w) as [[i b]|]; simpl in H; [|done].
    destruct (browsers (pl w) !! S i); destruct r; by simplify_eq.
Qed.

Lemma init_inv M : 0 ≤ M → Inv M (init M).
Proof.
  intros HM. unfold Inv, owned; simpl. repeat split; try done. constructor.
Qed.

Lemma step_inv M ev w w' o :
  0 ≤ M → Inv M w → step ev w = Some (w', o) → Inv M w'.
Proof.
  intros HM (Hmax & Hact & Hnd & Hfresh) Hstep.
  destruct (step_counts _ _ _ _ Hstep) as [Hmax' Hact']; [lia..|].
  destruct (step_owned _ _ _ _ Hstep) as [[Hsub Hnext]|[Hperm Hnext]].
  - repeat split; [congruence|lia| |].
    + by eapply NoDup_submseteq_mono.
    + rewrite Hnext. rewrite Forall_forall in *. intros b Hb.
      apply Hfresh. by eapply elem_of_submseteq.
  - repeat split; [congruence|lia| |].
    + rewrite Hperm. apply NoDup_cons. split; [|done].
      intros Hin. rewrite Forall_forall in Hfresh. specialize (Hfresh _ Hin). lia.
    + rewrite Hperm, Hnext. constructor; [lia|].
      eapply Forall_impl; [done|]. simpl. lia.
Qed.

Lemma run_inv M evs : ∀ w w' o,
  0 ≤ M → Inv M w → run evs w = Some (w', o) → Inv M w'.
Proof.
  induction evs as [|ev evs IH]; intros w w' o HM HI H; simpl in H.
  - by simplify_eq.
  - destruct (step ev w) as [[w1 o1]|] eqn:E1; simpl in H; [|done].
    destruct (run evs w1) as [[w2 o2]|] eqn:E2; simpl in H; [|done].
    simplify_eq. eapply IH; [done| |done]. by eapply step_inv.
Qed.

Lemma NoDup_snd_functional {A B} (l : list (A * B)) a1 a2 b :
  NoDup (snd <$> l) → (a1, b) ∈ l → (a2, b) ∈ l → a1 = a2.
Proof.
  induction l as [|[a' b'] l IH]; simpl; intros Hnd H1 H2.
  - by apply elem_of_nil in H1.
  - apply NoDup_cons in Hnd as [Hnotin Hnd].
    apply elem_of_cons in H1 as [H1|H1]; apply elem_of_cons in H2 as [H2|H2];
      simplify_eq; try done.
    + exfalso. apply Hnotin. apply (list_elem_of_fmap_2 snd) in H2. done.
    + exfalso. apply Hnotin. apply (list_elem_of_fmap_2 snd) in H1. done.
    + by apply IH.
Qed.

Lemma remove1_other `{EqDecision A} (x y : A) l r :
  remove1 x l = Some r → y ≠ x → y ∈ l → y ∈ r.
Proof.
  intros H Hne Hin. apply remove1_perm in H. rewrite H in Hin.
  apply elem_of_cons in Hin as [?|?]; done.
Qed.

Lemma step_keeps_held ev w w' o c b :
  step ev w = Some (w', o) → (c, b) ∈ held w → ev ≠ ERelease c b → (c, b) ∈ held w'.
Proof.
  intros H Hin Hne.
  destruct ev as [c0|c0 r|c0 b0|b0 pages closePage|b0 r| |r]; simpl in H.
  - unfold getBrowser in H.
    destruct (pop (browsers (pl w))) as [[rest b1]|].
    + simplify_eq; simpl. apply elem_of_app; by left.
    + destruct (_ <? _); by simplify_eq.
  - destruct (remove1 c0 (launching w)); simpl in H; [|done].
    destruct r; simplify_eq; simpl; [done|]. apply elem_of_app; by left.
  - destruct (remove1 (c0, b0) (held w)) eqn:E; simpl in H; [|done]. simplify_eq; simpl.
    eapply remove1_other; [done| |done]. congruence.
  - destruct (find_release b0 (releasing w)) as [[[c1 ph] rest]|]; simpl in H; [|done].
    destruct ph; try done.
    destruct (cleanupPages pages closePage) as [cl [e|]]; [by simplify_eq|].
    unfold releaseAfterCleanup in H.
    destruct (shift (queue (pl w))) as [[c' q]|].
    + simplify_eq; simpl. apply elem_of_app; by left.
    + destruct (_ <? _); by simplify_eq.
  - destruct (find_release b0 (releasing w)) as [[[c1 ph] rest]|]; simpl in H; [|done].
    destruct ph, r; by simplify_eq.
  - destruct (cleaning w); [done|].
    destruct (browsers (pl w) !! 0%nat); by simplify_eq.
  - destruct (cleaning w) as [[i b1]|]; simpl in H; [|done].
    destruct (browsers (pl w) !! S i); destruct r; by simplify_eq.
Qed.

Lemma owned_held w c b : (c, b) ∈ held w → b ∈ (snd <$> held w).
Proof. intros H. by apply (list_elem_of_fmap_2 snd) in H. Qed.

(** A step resolves a [getBrowser] promise only with an instance that was
    idle, is new, or was being released: never with one that is held. *)
Lemma step_resolves_free M ev w w' o c b :
  Inv M w → step ev w = Some (w', o) → Resolved c b ∈ o → b ∉ (snd <$> held w).
Proof.
  intros (_ & _ & Hnd & Hfresh) H Hres Hheld.
  unfold owned in Hnd, Hfresh.
  apply NoDup_app in Hnd as (_ & Hidle & Hnd).
  apply NoDup_app in Hnd as (_ & Hrel & _).
  destruct ev as [c0|c0 r|c0 b0|b0 pages closePage|b0 r| |r]; simpl in H.
  - unfold getBrowser in H.
    destruct (pop (browsers (pl w))) as [[rest b1]|] eqn:E.
    + simplify_eq. apply list_elem_of_singleton in Hres. simplify_eq.
      apply pop_Some in E. eapply Hidle.
      * rewrite E. apply elem_of_app. right. by apply list_elem_of_singleton.
      * apply elem_of_app; by left.
    + destruct (_ <? _); simplify_eq.
      * apply list_elem_of_singleton in Hres. done.
      * by apply elem_of_nil in Hres.
  - destruct (remove1 c0 (launching w)); simpl in H; [|done].
    destruct r; simplify_eq; apply list_elem_of_singleton in Hres; simplify_eq.
    rewrite Forall_forall in Hfresh.
    assert (nextBrowser w < nextBrowser w)%nat; [|lia].
    apply Hfresh. apply elem_of_app. right. apply elem_of_app. by left.
  - destruct (remove1 (c0, b0) (held w)); simpl in H; [|done]. simplify_eq.
    by apply elem_of_nil in Hres.
  - destruct (find_release b0 (releasing w)) as [[[c1 ph] rest]|] eqn:E; simpl in H; [|done].
    apply find_release_perm in E.
    assert (b0 ∈ (λ x, snd (fst x)) <$> releasing w) as Hb0.
    { rewrite E. simpl. apply elem_of_cons; by left. }
    destruct ph; try done.
    assert (∀ cl : list page, Resolved c b ∉ PageClose <$> cl) as Hpc.
    { intros cl [pg [? _]]%list_elem_of_fmap. done. }
    destruct (cleanupPages pages closePage) as [cl [e|]].
    + simplify_eq. apply elem_of_app in Hres as [Hres|Hres]; [by eapply Hpc|].
      apply list_elem_of_singleton in Hres. done.
    + unfold releaseAfterCleanup in H.
      destruct (shift (queue (pl w))) as [[c' q]|].
      * simplify_eq. apply elem_of_app in Hres as [Hres|Hres]; [by eapply Hpc|].
        apply elem_of_cons in Hres as [Hres|Hres].
        -- simplify_eq. by eapply Hrel.
        -- apply list_elem_of_singleton in Hres. done.
      * destruct (_ <? _); simplify_eq;
          (apply elem_of_app in Hres as [Hres|Hres]; [by eapply Hpc|]);
          apply list_elem_of_singleton in Hres; done.
  - destruct (find_release b0 (releasing w)) as [[[c1 ph] rest]|]; simpl in H; [|done].
    destruct ph, r; simplify_eq; no_resolved Hres.
  - destruct (cleaning w); [done|].
    destruct (browsers (pl w) !! 0%nat); simplify_eq; no_resolved Hres.
  - destruct (cleaning w) as [[i b1]|]; simpl in H; [|done].
    destruct (browsers (pl w) !! S i); destruct r; simplify_eq; no_resolved Hres.
Qed.



(** ** The waiter queue *)

(** A step leaves the queue as it is, or appends the caller of a
    [getBrowser] that found the pool exhausted, or removes the oldest waiter
    in a [releaseBrowser] that resolves that waiter's promise with the
    released instance. *)
Lemma step_queue ev w w' o :
  step ev w = Some (w', o) →
  queue (pl w') = queue (pl w)
  ∨ (∃ c, ev = EGet c ∧ queue (pl w') = queue (pl w) ++ [c] ∧ o = []
          ∧ held w' = held w)
  ∨ (∃ b pages f c', ev = EPages b pages f ∧ queue (pl w) = c' :: queue (pl w')
          ∧ Resolved c' b ∈ o ∧ held w' = held w ++ [(c', b)]).
Proof.
  intros H.
  destruct ev as [c|c r|c b|b pages closePage|b r| |r]; simpl in H.
  - unfold getBrowser in H.
    destruct (pop (browsers (pl w))) as [[rest b]|]; [simplify_eq; by left|].
    destruct (_ <? _); simplify_eq; [by left|].
    right; left. by exists c.
  - destruct (remove1 c (launching w)); simpl in H; [|done].
    destruct r; simplify_eq; by left.
  - destruct (remove1 (c, b) (held w)); simpl in H; [|done]. simplify_eq.
    by left.
  - destruct (find_release b (releasing w)) as [[[c ph] rest]|]; simpl in H; [|done].
    destruct ph; try done.
    destruct (cleanupPages pages closePage) as [cl [e|]];
      [simplify_eq; by left|].
    unfold releaseAfterCleanup in H.
    destruct (shift (queue (pl w))) as [[c' q]|] eqn:E.
    + apply shift_Some in E. simplify_eq. right; right.
      exists b, pages, closePage, c'. simpl.
      repeat split; [done|]. apply elem_of_app. right. apply elem_of_cons. by left.
    + destruct (_ <? _); simplify_eq; by left.
  - destruct (find_release b (releasing w)) as [[[c ph] rest]|]; simpl in H; [|done].
    destruct ph, r; simplify_eq; by left.
  - destruct (cleaning w); [done|].
    destruct (browsers (pl w) !! 0%nat); simplify_eq; by left.
  - destruct (cleaning w) as [[i b]|]; simpl in H; [|done].
    destruct (browsers (pl w) !! S i); destruct r; simplify_eq; by left.
Qed.

(** ** Accounting: what [activeBrowsers] counts *)

Lemma leaks_app o1 o2 : leaks (o1 ++ o2) = leaks o1 + leaks o2.
Proof. unfold leaks. rewrite filter_app, length_app. lia. Qed.

Lemma leaks_pages (cl : list page) : leaks (PageClose <$> cl) = 0.
Proof.
  unfold leaks. induction cl as [|pg cl IH]; [done|].
  simpl. rewrite filter_cons_False; [done|]. simpl. auto.
Qed.

Lemma live_eq w :
  live w = Z.of_nat (length (browsers (pl w))) + Z.of_nat (length (held w))
           + Z.of_nat (length (releasing w)) + Z.of_nat (length (launching w)).
Proof. unfold live, owned. rewrite !length_app, !length_fmap. lia. Qed.

(** Without [cleanup], a step changes [activeBrowsers] as it changes the
    number of instances, except that a [releaseBrowser] that rejects drops
    its instance without decrementing. *)
Lemma step_accounting ev w w' o :
  step ev w = Some (w', o) → is_cleanup ev = false →
  activeBrowsers (pl w') - live w' = activeBrowsers (pl w) - live w + leaks o.
Proof.
  intros H Hc. rewrite !live_eq.
  destruct ev as [c|c r|c b|b pages closePage|b r| |r]; simpl in H; try done.
  - unfold getBrowser in H.
    destruct (pop (browsers (pl w))) as [[rest b]|] eqn:E.
    + apply pop_Some in E. simplify_eq; simpl. rewrite E, !length_app. simpl.
      unfold leaks; simpl. lia.
    + destruct (_ <? _); simplify_eq; simpl; rewrite ?length_app; unfold leaks; simpl; lia.
  - destruct (remove1 c (launching w)) eqn:E; simpl in H; [|done].
    apply remove1_perm, Permutation_length in E. simpl in E.
    destruct r; simplify_eq; simpl; rewrite ?length_app, E; unfold leaks; simpl; lia.
  - destruct (remove1 (c, b) (held w)) eqn:E; simpl in H; [|done].
    apply remove1_perm, Permutation_length in E. simpl in E.
    simplify_eq; simpl. rewrite ?length_app, E; unfold leaks; simpl; lia.
  - destruct (find_release b (releasing w)) as [[[c ph] rest]|] eqn:E; simpl in H; [|done].
    apply find_release_perm, Permutation_length in E. simpl in E.
    destruct ph; try done.
    destruct (cleanupPages pages closePage) as [cl [e|]].
    + simplify_eq; simpl. rewrite leaks_app, leaks_pages, ?length_app, E.
      unfold leaks; simpl. lia.
    + unfold releaseAfterCleanup in H.
      destruct (shift (queue (pl w))) as [[c' q]|].
      * simplify_eq; simpl. rewrite leaks_app, leaks_pages, ?length_app, E.
        unfold leaks; simpl. lia.
      * destruct (_ <? _); simplify_eq; simpl;
          rewrite leaks_app, leaks_pages; unfold push; rewrite ?length_app, E;
          unfold leaks; simpl; lia.
  - destruct (find_release b (releasing w)) as [[[c ph] rest]|] eqn:E; simpl in H; [|done].
    apply find_release_perm, Permutation_length in E. simpl in E.
    destruct ph, r; simplify_eq; simpl; rewrite ?length_app, E; unfold leaks; simpl; lia.
Qed.

(** ** Bound and exclusive loans *)

Lemma run_demo : run demo_events (init 1) = Some (demo_world, demo_obs).
Proof. vm_compute. reflexivity. Qed.

(** C1. In every world that a schedule of [getBrowser] and [releaseBrowser]
    calls (and of [cleanup] calls) reaches from a new pool of size [M >= 0]:
    [activeBrowsers] is at most [M]; no instance is on loan to two callers,
    or twice; an instance on loan is not in the idle list; and in the next
    step, whatever it is, a loan ends only by its holder's [releaseBrowser],
    and no promise is resolved with an instance that is on loan. *)
Theorem pool_bounded_exclusive (M : Z) (evs : list event) (w : world) (o : list obs) :
  0 ≤ M →
  run evs (init M) = Some (w, o) →
  activeBrowsers (pl w) ≤ M
  ∧ (∀ c1 c2 b, (c1, b) ∈ held w → (c2, b) ∈ held w → c1 = c2)
  ∧ NoDup (held w)
  ∧ (∀ c b, (c, b) ∈ held w → b ∉ browsers (pl w))
  ∧ (∀ ev w' o', step ev w = Some (w', o') →
       (∀ c b, (c, b) ∈ held w → ev ≠ ERelease c b → (c, b) ∈ held w')
       ∧ (∀ c b c', (c, b) ∈ held w → Resolved c' b ∉ o')).
Proof.
  intros HM Hrun.
  assert (Inv M w) as HI by (eapply run_inv; [done|by apply init_inv|done]).
  pose proof HI as (Hmax & Hact & Hnd & Hfresh).
  unfold owned in Hnd.
  apply NoDup_app in Hnd as (_ & Hidle & Hnd).
  apply NoDup_app in Hnd as (Hheld & _ & _).
  split; [done|]. split; [|split; [|split]].
  - intros c1 c2 b. by apply NoDup_snd_functional.
  - by eapply NoDup_fmap_1.
  - intros c b Hin Hb. eapply Hidle; [done|].
    apply elem_of_app. left. by eapply owned_held.
  - intros ev w' o' Hstep. split.
    + intros c b Hin Hne. by eapply step_keeps_held.
    + intros c b c' Hin Hres.
      eapply step_resolves_free; [done..|]. by eapply owned_held.
Qed.

(** The schedule [demo_events] in a pool of size 1. *)
Lemma pool_bounded_exclusive_witness :
  0 ≤ 1 ∧ run demo_events (init 1) = Some (demo_world, demo_obs)
  ∧ activeBrowsers (pl demo_world) ≤ 1.
Proof.
  split; [lia|]. split; [exact run_demo|].
  apply (pool_bounded_exclusive 1 demo_events demo_world demo_obs); [lia|exact run_demo].
Defined.

(** ** [getBrowser], branch by branch *)

Lemma remove1_Some_elem `{EqDecision A} (x : A) l : x ∈ l → is_Some (remove1 x l).
Proof.
  induction l as [|y l IH]; intros H; [by apply elem_of_nil in H|].
  simpl. case_decide; [done|].
  apply elem_of_cons in H as [?|H]; [done|].
  destruct (IH H) as [r ->]. done.
Qed.

(** A queued caller stays queued across a step, unless the step is a
    [releaseBrowser] that resolves the caller's promise with the released
    instance. *)
Lemma step_waiter ev w w' o c :
  step ev w = Some (w', o) → c ∈ queue (pl w) →
  c ∈ queue (pl w')
  ∨ ∃ b pages f, ev = EPages b pages f ∧ Resolved c b ∈ o ∧ (c, b) ∈ held w'.
Proof.
  intros H Hc.
  destruct (step_queue _ _ _ _ H) as [Hq|[(c0 & _ & Hq & _)|(b & pages & f & c' & -> & Hq & Hr & Hh)]].
  - left. by rewrite Hq.
  - left. rewrite Hq. apply elem_of_app. by left.
  - rewrite Hq in Hc. apply elem_of_cons in Hc as [->|Hc]; [|by left].
    right. exists b, pages, f. repeat split; [done|].
    rewrite Hh. apply elem_of_app. right. apply elem_of_cons. by left.
Qed.

(** C2. The four branches of [getBrowser c], in any world [w]:
    - the idle list is [idle ++ [b]] ([b] was pushed last): the promise is
      resolved with [b] in the same step, [b] leaves the idle list, nothing
      else changes; and the instance pushed last is the one released last:
      right after a [releaseBrowser] that made [b] idle, [getBrowser] gives
      [b] back and the pool is as it was before that release;
    - no idle instance and [activeBrowsers < maxSize]: the counter is
      incremented and [puppeteer.launch] is called; when the launch settles
      with an instance, it is one that no earlier launch created and the
      promise is resolved with it, the counter keeping its value;
    - when the launch fails with [e], the counter is decremented, the promise
      is rejected with [e] and no second launch is started;
    - otherwise the caller is appended to the queue and nothing is resolved;
      it stays in the queue until a [releaseBrowser] resolves it with the
      instance released. *)
Theorem getBrowser_four_branches (c : caller) (w : world) :
  (∀ idle b, browsers (pl w) = idle ++ [b] →
     ∃ w', step (EGet c) w = Some (w', [Resolved c b])
       ∧ browsers (pl w') = idle ∧ held w' = held w ++ [(c, b)]
       ∧ activeBrowsers (pl w') = activeBrowsers (pl w)
       ∧ queue (pl w') = queue (pl w) ∧ launching w' = launching w)
  ∧ (∀ b p, snd (releaseAfterCleanup b p) = MadeIdle →
     getBrowser c (fst (releaseAfterCleanup b p)) = (p, GotIdle b))
  ∧ (browsers (pl w) = [] → activeBrowsers (pl w) < maxSize (pl w) →
     ∃ w', step (EGet c) w = Some (w', [Launch c])
       ∧ activeBrowsers (pl w') = activeBrowsers (pl w) + 1
       ∧ launching w' = launching w ++ [c]
       ∧ held w' = held w ∧ queue (pl w') = queue (pl w))
  ∧ (c ∈ launching w →
     ∃ w', step (ELaunched c None) w = Some (w', [Resolved c (nextBrowser w)])
       ∧ activeBrowsers (pl w') = activeBrowsers (pl w)
       ∧ held w' = held w ++ [(c, nextBrowser w)]
       ∧ (∀ M, Inv M w → nextBrowser w ∉ owned w)
       ∧ remove1 c (launching w) = Some (launching w'))
  ∧ (c ∈ launching w → ∀ e,
     ∃ w', step (ELaunched c (Some e)) w = Some (w', [Rejected c e])
       ∧ activeBrowsers (pl w') = activeBrowsers (pl w) - 1
       ∧ held w' = held w ∧ queue (pl w') = queue (pl w)
       ∧ browsers (pl w') = browsers (pl w)
       ∧ remove1 c (launching w) = Some (launching w'))
  ∧ (browsers (pl w) = [] → maxSize (pl w) ≤ activeBrowsers (pl w) →
     ∃ w', step (EGet c) w = Some (w', [])
       ∧ queue (pl w') = queue (pl w) ++ [c]
       ∧ activeBrowsers (pl w') = activeBrowsers (pl w)
       ∧ held w' = held w ∧ launching w' = launching w)
  ∧ (c ∈ queue (pl w) → ∀ ev w' o, step ev w = Some (w', o) →
     c ∈ queue (pl w')
     ∨ ∃ b pages f, ev = EPages b pages f ∧ Resolved c b ∈ o ∧ (c, b) ∈ held w').
Proof.
  repeat apply conj.
  - intros idle b Hb. simpl. unfold getBrowser. rewrite Hb, pop_app.
    eexists. split; [done|]. done.
  - intros b p. unfold releaseAfterCleanup.
    destruct (shift (queue p)) as [[c' q]|]; [done|].
    destruct (_ <? _); [|done]. intros _. simpl.
    unfold getBrowser, push. simpl. rewrite pop_app. by destruct p.
  - intros Hb Hlt. simpl. unfold getBrowser. rewrite Hb. simpl.
    apply Z.ltb_lt in Hlt. rewrite Hlt.
    eexists. split; [done|]. done.
  - intros [l Hl]%remove1_Some_elem. simpl. rewrite Hl. simpl.
    eexists. split; [done|]. do 2 (split; [done|]). split; [|done].
    intros M (_ & _ & _ & Hfresh) Hin.
    rewrite Forall_forall in Hfresh. specialize (Hfresh _ Hin). lia.
  - intros [l Hl]%remove1_Some_elem e. simpl. rewrite Hl. simpl.
    eexists. split; [done|]. done.
  - intros Hb Hge. simpl. unfold getBrowser. rewrite Hb. simpl.
    apply Z.ltb_ge in Hge. rewrite Hge.
    eexists. split; [done|]. done.
  - intros Hc ev w' o H. by eapply step_waiter.
Qed.

(** In [demo_world] the only instance is on loan and [activeBrowsers] is
    [maxSize]: one more caller is queued. *)
Lemma getBrowser_four_branches_witness :
  ∃ w', step (EGet 5%nat) demo_world = Some (w', [])
        ∧ queue (pl w') = [5%nat].
Proof.
  destruct (getBrowser_four_branches 5%nat demo_world) as (_ & _ & _ & _ & _ & H & _).
  destruct H as (w' & Hs & Hq & _); [reflexivity|simpl; lia|].
  exists w'. split; [exact Hs|exact Hq].
Defined.

(** ** [releaseBrowser] *)

(** The loop of lines 78-80 calls [close] on the pages in order, up to and
    including the first one whose [close] throws. *)
Lemma closeFrom_ok f ps : (∀ pg, pg ∈ ps → f pg = None) → closeFrom f ps = (ps, None).
Proof.
  induction ps as [|pg ps IH]; intros H; [done|]. simpl.
  rewrite (H pg) by (apply elem_of_cons; by left).
  rewrite IH; [done|]. intros pg' Hin. apply H. apply elem_of_cons. by right.
Qed.

Lemma closeFrom_throws f ps1 pg ps2 e :
  (∀ pg', pg' ∈ ps1 → f pg' = None) → f pg = Some e →
  closeFrom f (ps1 ++ pg :: ps2) = (ps1 ++ [pg], Some e).
Proof.
  induction ps1 as [|pg1 ps1 IH]; intros H He; simpl.
  - by rewrite He.
  - rewrite (H pg1) by (apply elem_of_cons; by left).
    rewrite IH; [done| |done]. intros pg' Hin. apply H. apply elem_of_cons. by right.
Qed.

Lemma closeFrom_prefix f ps : fst (closeFrom f ps) `prefix_of` ps.
Proof.
  induction ps as [|pg ps IH]; simpl; [done|].
  destruct (f pg).
  - simpl. by apply prefix_cons, prefix_nil.
  - destruct (closeFrom f ps) as [cl r]. simpl in *. by apply prefix_cons.
Qed.

Lemma closeFrom_None f ps cl : closeFrom f ps = (cl, None) → cl = ps.
Proof.
  revert cl. induction ps as [|pg ps IH]; intros cl H; simpl in H; [by simplify_eq|].
  destruct (f pg); [done|].
  destruct (closeFrom f ps) as [cl' r]. simplify_eq. by rewrite (IH cl' eq_refl).
Qed.

(** The three outcomes of a release whose cleanup succeeded. *)
Lemma release_clean_step w b c rest pages f cl :
  find_release b (releasing w) = Some (c, Cleaning, rest) →
  cleanupPages pages f = (cl, None) →
  step (EPages b pages f) w
  = match releaseAfterCleanup b (pl w) with
    | (p, HandedTo c') =>
        Some (with_held (held w ++ [(c', b)]) (with_releasing rest (with_pl p w)),
              (PageClose <$> cl) ++ [Resolved c' b; ReleaseReturned c b])
    | (p, MadeIdle) =>
        Some (with_releasing rest (with_pl p w), (PageClose <$> cl) ++ [ReleaseReturned c b])
    | (p, MustClose) =>
        Some (with_releasing ((c, b, ClosingSurplus) :: rest) (with_pl p w),
              (PageClose <$> cl) ++ [BrowserClose b])
    end.
Proof.
  intros Hf Hc. simpl. rewrite Hf. simpl. rewrite Hc.
  by destruct (releaseAfterCleanup b (pl w)) as [p []].
Qed.

Lemma find_release_head b c ph rest :
  find_release b ((c, b, ph) :: rest) = Some (c, ph, rest).
Proof. simpl. by rewrite decide_True. Qed.

(** C3, where the code goes wrong. [releaseBrowser(b)] is suspended in its
    cleanup; the cleanup fails ([browser.pages()] or the close of a page
    throws [e1]), so the catch block calls [browser.close()] (line 92), and
    this close throws [e2] as well. Then [releaseBrowser] rejects with [e2]:
    the failure reaches the caller; [activeBrowsers] is not decremented, and
    the instance is neither idle, nor on loan, nor recorded as closed. *)
Theorem release_failure_reaches_caller w c b rest pages f cl (e1 e2 : error) :
  find_release b (releasing w) = Some (c, Cleaning, rest) →
  cleanupPages pages f = (cl, Some e1) →
  ∃ w', run [EPages b pages f; EClosed b (Some e2)] w
        = Some (w', (PageClose <$> cl) ++ [BrowserClose b; ReleaseThrew c b e2])
    ∧ pl w' = pl w ∧ held w' = held w ∧ releasing w' = rest
    ∧ launching w' = launching w ∧ closed w' = closed w
    ∧ activeBrowsers (pl w') - live w' = activeBrowsers (pl w) - live w + 1.
Proof.
  intros Hf Hc. simpl. rewrite Hf. simpl. rewrite Hc. simpl.
  rewrite decide_True by done. simpl.
  eexists. split; [by rewrite <- app_assoc|].
  repeat split. rewrite !live_eq. simpl.
  apply find_release_perm, Permutation_length in Hf. simpl in Hf. lia.
Qed.

(** Caller 1 of a pool of size 1 releases its instance; [pages()] rejects
    and so does [close()]: the release rejects, and the pool of size 1 is
    left with [activeBrowsers = 1] and no instance. *)
Lemma release_failure_reaches_caller_witness :
  ∃ w w', run [EGet 1%nat; ELaunched 1%nat None; ERelease 1%nat 0%nat] (init 1)
          = Some (w, [Launch 1%nat; Resolved 1%nat 0%nat])
    ∧ run [EPages 0%nat (inl "Target closed") (λ _, None);
           EClosed 0%nat (Some "Protocol error")] w
      = Some (w', [BrowserClose 0%nat; ReleaseThrew 1%nat 0%nat "Protocol error"])
    ∧ activeBrowsers (pl w') = 1 ∧ live w' = 0.
Proof.
  eexists.
  destruct (release_failure_reaches_caller
              {| pl := {| maxSize := 1; browsers := []; queue := []; activeBrowsers := 1 |};
                 held := []; launching := []; releasing := [(1%nat, 0%nat, Cleaning)];
                 cleaning := None; nextBrowser := 1%nat; closed := [] |}
              1%nat 0%nat [] (inl "Target closed") (λ _, None) []
              "Target closed" "Protocol error" eq_refl eq_refl)
    as (w' & Hrun & Hpl & Hheld & Hrel & Hlaunch & _ & _).
  exists w'. split; [reflexivity|]. split; [exact Hrun|].
  split; [by rewrite Hpl|].
  rewrite live_eq, Hpl, Hheld, Hrel, Hlaunch. reflexivity.
Defined.

(** ** [cleanup] in the pool *)

Lemma run_app evs1 : ∀ evs2 w,
  run (evs1 ++ evs2) w
  = '(w1, o1) ← run evs1 w; '(w2, o2) ← run evs2 w1; Some (w2, o1 ++ o2).
Proof.
  induction evs1 as [|ev evs1 IH]; intros evs2 w; simpl.
  - by destruct (run evs2 w) as [[??]|].
  - destruct (step ev w) as [[w1 o1]|]; simpl; [|done].
    rewrite IH. destruct (run evs1 w1) as [[w2 o2]|]; simpl; [|done].
    destruct (run evs2 w2) as [[w3 o3]|]; simpl; [|done].
    by rewrite app_assoc.
Qed.

Lemma lookup_after {A} (pre : list A) b post :
  (pre ++ b :: post) !! S (length pre) = post !! 0%nat.
Proof. induction pre as [|x pre IH]; simpl; done. Qed.

Lemma run_cons ev evs w :
  run (ev :: evs) w
  = '(w1, o1) ← step ev w; '(w2, o2) ← run evs w1; Some (w2, o1 ++ o2).
Proof. done. Qed.

Lemma step_cleanup_closed r w i b :
  cleaning w = Some (i, b) →
  step (ECleanupClosed r) w
  = match browsers (pl w) !! S i with
    | Some b' =>
        Some (with_cleaning (Some (S i, b'))
                match r with None => with_closed (closed w ++ [b]) w | Some _ => w end,
              cleanup_log r ++ [BrowserClose b'])
    | None =>
        Some (with_cleaning None
                (with_pl (cleanupFinish (pl w))
                   match r with None => with_closed (closed w ++ [b]) w | Some _ => w end),
              cleanup_log r)
    end.
Proof. intros H. simpl. rewrite H. done. Qed.

(** The loop of [cleanup], from the close of the instance at index
    [length pre] on. *)
Lemma cleanup_loop post : ∀ rs pre b w,
  browsers (pl w) = pre ++ b :: post → cleaning w = Some (length pre, b) →
  length rs = S (length post) →
  ∃ w' o, run (ECleanupClosed <$> rs) w = Some (w', o)
    ∧ BrowserClose b :: o = cleanup_trace (b :: post) rs
    ∧ pl w' = cleanupFinish (pl w) ∧ held w' = held w
    ∧ launching w' = launching w ∧ releasing w' = releasing w
    ∧ nextBrowser w' = nextBrowser w ∧ cleaning w' = None
    ∧ closed w' = closed w ++ cleanup_closed (b :: post) rs.
Proof.
  induction post as [|b' post IH]; intros rs pre b w Hb Hc Hlen;
    destruct rs as [|r rs]; simpl in Hlen; try done.
  - destruct rs; [|done].
    rewrite fmap_cons, run_cons, (step_cleanup_closed _ _ _ _ Hc), Hb, lookup_after.
    simpl. eexists _, _. split; [done|].
    destruct r; simpl; rewrite ?app_nil_r; done.
  - rewrite fmap_cons, run_cons, (step_cleanup_closed _ _ _ _ Hc), Hb, lookup_after.
    cbn [lookup list_lookup mbind option_bind].
    edestruct (IH rs (pre ++ [b]) b'
                 (with_cleaning (Some (S (length pre), b'))
                    match r with
                    | None => with_closed (closed w ++ [b]) w
                    | Some _ => w
                    end)) as (w' & o & Hrun & Ho & Hpl & Hh & Hl & Hr & Hn & Hcl & Hclosed).
    { destruct r; simpl; rewrite Hb, <- app_assoc; done. }
    { rewrite length_app. simpl. rewrite Nat.add_1_r. done. }
    { lia. }
    rewrite Hrun. cbn [mbind option_bind]. eexists _, _. split; [done|].
    change (cleanup_trace (b :: b' :: post) (r :: rs))
      with (BrowserClose b :: cleanup_log r ++ cleanup_trace (b' :: post) rs).
    change (cleanup_closed (b :: b' :: post) (r :: rs))
      with (match r with None => [b] | Some _ => [] end ++ cleanup_closed (b' :: post) rs).
    rewrite <- Ho, Hpl, Hh, Hl, Hr, Hn, Hclosed.
    split; [by rewrite <- app_assoc|].
    destruct r; simpl; repeat split; try done. by rewrite <- app_assoc.
Qed.

(** [cleanup], run alone from a world where no [cleanup] is suspended. *)
Lemma cleanup_alone w rs :
  cleaning w = None → length rs = length (browsers (pl w)) →
  ∃ w' o, run (cleanupAlone rs) w = Some (w', o)
    ∧ o = cleanup_trace (browsers (pl w)) rs
    ∧ pl w' = cleanupFinish (pl w) ∧ held w' = held w
    ∧ launching w' = launching w ∧ releasing w' = releasing w
    ∧ nextBrowser w' = nextBrowser w ∧ cleaning w' = None
    ∧ closed w' = closed w ++ cleanup_closed (browsers (pl w)) rs.
Proof.
  intros Hc Hlen. unfold cleanupAlone. rewrite run_cons.
  cbn [step]. rewrite Hc.
  destruct (browsers (pl w)) as [|b post] eqn:Hb.
  - destruct rs; [|done]. simpl. eexists _, _. split; [done|].
    rewrite app_nil_r. done.
  - cbn [lookup list_lookup mbind option_bind].
    destruct (cleanup_loop post rs [] b (with_cleaning (Some (0%nat, b)) w))
      as (w' & o & Hrun & Ho & H); [done|done|done|].
    rewrite Hrun. cbn [mbind option_bind]. eexists _, _. split; [done|].
    split; [done|]. exact H.
Qed.

Lemma cleanup_trace_close bs : ∀ rs b,
  BrowserClose b ∈ cleanup_trace bs rs → b ∈ bs.
Proof.
  induction bs as [|b0 bs IH]; intros rs b H; destruct rs as [|r rs]; simpl in H;
    try by apply elem_of_nil in H.
  apply elem_of_cons in H as [H|H]; [simplify_eq; apply elem_of_cons; by left|].
  apply elem_of_app in H as [H|H].
  - destruct r; no_resolved H.
  - apply elem_of_cons. right. by eapply IH.
Qed.

Lemma cleanup_trace_all bs : ∀ rs b,
  length rs = length bs → b ∈ bs → BrowserClose b ∈ cleanup_trace bs rs.
Proof.
  induction bs as [|b0 bs IH]; intros rs b Hlen H; [by apply elem_of_nil in H|].
  destruct rs as [|r rs]; [done|]. simpl.
  apply elem_of_cons in H as [->|H]; [apply elem_of_cons; by left|].
  apply elem_of_cons. right. apply elem_of_app. right. apply IH; [|done].
  simpl in Hlen. lia.
Qed.


(** A step of [cleanup] leaves the queue as it is and settles no
    [getBrowser] promise; it calls [close] only on an instance that is in
    the idle list at that moment. *)
Lemma cleanup_step_frame ev w w' o :
  is_cleanup ev = true → step ev w = Some (w', o) →
  queue (pl w') = queue (pl w) ∧ held w' = held w
  ∧ (∀ c b, Resolved c b ∉ o) ∧ (∀ c e, Rejected c e ∉ o)
  ∧ (∀ b, BrowserClose b ∈ o → b ∈ browsers (pl w)).
Proof.
  intros Hc H. destruct ev; try done; simpl in H.
  - destruct (cleaning w); [done|].
    destruct (browsers (pl w) !! 0%nat) as [b0|] eqn:E; simplify_eq; simpl;
      repeat split; try (intros ?? Hin; no_resolved Hin).
    + intros b Hin. apply list_elem_of_singleton in Hin. simplify_eq.
      by eapply list_elem_of_lookup_2.
    + intros b Hin. by apply elem_of_nil in Hin.
  - destruct (cleaning w) as [[i b0]|]; simpl in H; [|done].
    destruct (browsers (pl w) !! S i) as [b1|] eqn:E; destruct r; simplify_eq; simpl;
      repeat split; try (intros ?? Hin; no_resolved Hin); intros b Hin.
    + apply elem_of_cons in Hin as [?|Hin]; [done|].
      apply list_elem_of_singleton in Hin. simplify_eq. by eapply list_elem_of_lookup_2.
    + apply list_elem_of_singleton in Hin. simplify_eq. by eapply list_elem_of_lookup_2.
    + no_resolved Hin.
    + by apply elem_of_nil in Hin.
Qed.

(** ** The process: invariants *)

Lemma step_nodup ev w w' o :
  step ev w = Some (w', o) →
  NoDup (owned w) → Forall (λ b, (b < nextBrowser w)%nat) (owned w) →
  NoDup (owned w') ∧ Forall (λ b, (b < nextBrowser w')%nat) (owned w').
Proof.
  intros Hstep Hnd Hfresh.
  destruct (step_owned _ _ _ _ Hstep) as [[Hsub Hnext]|[Hperm Hnext]].
  - split; [by eapply NoDup_submseteq_mono|].
    rewrite Hnext. rewrite Forall_forall in *. intros b Hb.
    apply Hfresh. by eapply elem_of_submseteq.
  - split.
    + rewrite Hperm. apply NoDup_cons. split; [|done].
      intros Hin. rewrite Forall_forall in Hfresh. specialize (Hfresh _ Hin). lia.
    + rewrite Hperm, Hnext. constructor; [lia|].
      eapply Forall_impl; [done|]. simpl. lia.
Qed.

(** Callers are queued only when the idle list is empty, and an instance
    becomes idle only when the queue is empty. *)
Lemma step_queue_idle ev w w' o :
  step ev w = Some (w', o) →
  (queue (pl w) ≠ [] → browsers (pl w) = []) →
  queue (pl w') ≠ [] → browsers (pl w') = [].
Proof.
  intros H Hq.
  destruct ev as [c|c r|c b|b pages closePage|b r| |r]; simpl in H.
  - unfold getBrowser in H.
    destruct (pop (browsers (pl w))) as [[rest b]|] eqn:E.
    + apply pop_Some in E. simplify_eq; simpl. intros Hne.
      specialize (Hq Hne). rewrite Hq in E. by destruct rest.
    + apply pop_None in E. destruct (_ <? _); by simplify_eq.
  - destruct (remove1 c (launching w)); simpl in H; [|done].
    destruct r; by simplify_eq.
  - destruct (remove1 (c, b) (held w)); simpl in H; [|done]. by simplify_eq.
  - destruct (find_release b (releasing w)) as [[[c ph] rest]|]; simpl in H; [|done].
    destruct ph; try done.
    destruct (cleanupPages pages closePage) as [cl [e|]]; [by simplify_eq|].
    unfold releaseAfterCleanup in H.
    destruct (shift (queue (pl w))) as [[c' q]|] eqn:E.
    + apply shift_Some in E. simplify_eq; simpl. intros _. apply Hq. by rewrite E.
    + destruct (queue (pl w)) eqn:Eq; [|done].
      destruct (_ <? _); simplify_eq; simpl; by rewrite ?Eq.
  - destruct (find_release b (releasing w)) as [[[c ph] rest]|]; simpl in H; [|done].
    destruct ph, r; by simplify_eq.
  - destruct (cleaning w); [done|].
    destruct (browsers (pl w) !! 0%nat); by simplify_eq.
  - destruct (cleaning w) as [[i b]|]; simpl in H; [|done].
    destruct (browsers (pl w) !! S i); destruct r; by simplify_eq.
Qed.

Lemma boot_inv M : PInv (boot M).
Proof. unfold PInv, owned; simpl. repeat split; try done. constructor. Qed.

Lemma handlerStep_world s suspend others w' o p' o' :
  handlerStep s suspend others w' o = (p', o') →
  pl (pworld p') = pl w' ∧ held (pworld p') = held w'
  ∧ launching (pworld p') = launching w' ∧ releasing (pworld p') = releasing w'
  ∧ nextBrowser (pworld p') = nextBrowser w' ∧ closed (pworld p') = closed w'
  ∧ o' = (HandlerObs s <$> o) ++ match exited p' with Some n => [ProcessExit n] | None => [] end
  ∧ (exited p' = None ∨ exited p' = Some 0 ∧ cleaning w' = None).
Proof.
  unfold handlerStep. destruct (cleaning w'); intros ?; simplify_eq; simpl;
    rewrite ?app_nil_r; repeat split; auto.
Qed.

(** What a step of the process does, through the step of the pool that it
    runs. *)
Lemma pstep_step ev p p' o :
  pstep ev p = Some (p', o) →
  exited p = None
  ∧ ∃ ev' w w' o', step ev' w = Some (w', o')
      ∧ pl w = pl (pworld p) ∧ held w = held (pworld p)
      ∧ launching w = launching (pworld p) ∧ releasing w = releasing (pworld p)
      ∧ nextBrowser w = nextBrowser (pworld p) ∧ closed w = closed (pworld p)
      ∧ pl (pworld p') = pl w' ∧ held (pworld p') = held w'
      ∧ launching (pworld p') = launching w' ∧ releasing (pworld p') = releasing w'
      ∧ nextBrowser (pworld p') = nextBrowser w' ∧ closed (pworld p') = closed w'
      ∧ is_cleanup ev' = is_handler ev
      ∧ match ev with PPool e => ev' = e ∧ o = PoolObs <$> o' | _ => True end.
Proof.
  unfold pstep. destruct (exited p); [done|]. intros H. split; [done|].
  destruct ev as [ev|s|k r].
  - destruct (is_cleanup ev) eqn:Ec; [done|].
    destruct (step ev (pworld p)) as [[w' o']|] eqn:E; [|done]. simplify_eq.
    exists ev, (pworld p), w', o'. simpl. repeat split; done.
  - destruct (step ECleanup (with_cleaning None (pworld p))) as [[w' o']|] eqn:E;
      [|done].
    destruct (handlerStep _ _ _ _ _) as [p1 o1] eqn:Eh. simplify_eq.
    apply handlerStep_world in Eh as (? & ? & ? & ? & ? & ? & _).
    exists ECleanup, (with_cleaning None (pworld p)), w', o'. simpl. repeat split; done.
  - destruct (handlers p !! k) as [[s it]|]; [|done].
    destruct (step (ECleanupClosed r) (with_cleaning (Some it) (pworld p)))
      as [[w' o']|] eqn:E; [|done].
    destruct (handlerStep _ _ _ _ _) as [p1 o1] eqn:Eh. simplify_eq.
    apply handlerStep_world in Eh as (? & ? & ? & ? & ? & ? & _).
    exists (ECleanupClosed r), (with_cleaning (Some it) (pworld p)), w', o'.
    simpl. repeat split; done.
Qed.

Lemma pstep_inv ev p p' o : PInv p → pstep ev p = Some (p', o) → PInv p'.
Proof.
  intros (Hnd & Hfresh & Hq) H.
  apply pstep_step in H
    as (_ & ev' & w & w' & o' & Hstep & Hpl & Hh & Hl & Hr & Hn & _
        & Hpl' & Hh' & Hl' & Hr' & Hn' & _).
  assert (owned w = owned (pworld p)) as Ho by (unfold owned; congruence).
  assert (owned (pworld p') = owned w') as Ho' by (unfold owned; congruence).
  destruct (step_nodup _ _ _ _ Hstep) as [Hnd' Hfresh']; [by rewrite Ho|by rewrite Ho, Hn|].
  unfold PInv. rewrite Ho', Hn', Hpl'. repeat split; [done..|].
  eapply step_queue_idle; [done|]. by rewrite Hpl.
Qed.

Lemma prun_inv evs : ∀ p p' o, PInv p → prun evs p = Some (p', o) → PInv p'.
Proof.
  induction evs as [|ev evs IH]; intros p p' o HI H; simpl in H; [by simplify_eq|].
  destruct (pstep ev p) as [[p1 o1]|] eqn:E1; simpl in H; [|done].
  destruct (prun evs p1) as [[p2 o2]|] eqn:E2; simpl in H; [|done].
  simplify_eq. eapply IH; [|done]. by eapply pstep_inv.
Qed.

(** ** The process: what the handlers do *)

Lemma pstep_exited ev p : exited p ≠ None → pstep ev p = None.
Proof. unfold pstep. by destruct (exited p). Qed.

(** After [process.exit] nothing runs. *)
Lemma prun_exited evs p p' o :
  exited p ≠ None → prun evs p = Some (p', o) → evs = [] ∧ p' = p ∧ o = [].
Proof.
  intros He H. destruct evs as [|ev evs]; simpl in H; [by simplify_eq|].
  by rewrite pstep_exited in H.
Qed.

(** A step of [cleanup()]: the loop goes on with the instance at the next
    index of the idle list as it is now, or ends when there is none. *)
Lemma cleanup_step_next ev w w' o :
  is_cleanup ev = true → step ev w = Some (w', o) →
  held w' = held w ∧ launching w' = launching w ∧ releasing w' = releasing w
  ∧ nextBrowser w' = nextBrowser w
  ∧ match browsers (pl w) !! match cleaning w with Some (i, _) => S i | None => 0%nat end with
    | Some b =>
        cleaning w' = Some (match cleaning w with Some (i, _) => S i | None => 0%nat end, b)
        ∧ pl w' = pl w ∧ BrowserClose b ∈ o
    | None => cleaning w' = None ∧ pl w' = cleanupFinish (pl w)
    end.
Proof.
  intros Hc H. destruct ev; try done; simpl in H.
  - destruct (cleaning w) eqn:Ecl; [done|].
    destruct (browsers (pl w) !! 0%nat) as [b0|]; simplify_eq; simpl; repeat split;
      rewrite ?elem_of_cons; auto.
  - destruct (cleaning w) as [[i b0]|] eqn:Ecl; simpl in H; [|done].
    destruct (browsers (pl w) !! S i) as [b1|]; destruct r; simplify_eq; simpl;
      repeat split; rewrite ?elem_of_cons; auto.
Qed.

Lemma handlerStep_cases s suspend others w' o p' o' :
  handlerStep s suspend others w' o = (p', o') →
  match cleaning w' with
  | Some it =>
      p' = {| pworld := with_cleaning None w'; handlers := suspend (s, it); exited := None |}
      ∧ o' = HandlerObs s <$> o
  | None =>
      p' = {| pworld := w'; handlers := others; exited := Some 0 |}
      ∧ o' = (HandlerObs s <$> o) ++ [ProcessExit 0]
  end.
Proof. unfold handlerStep. destruct (cleaning w'); intros ?; by simplify_eq. Qed.

(** The steps of the process, case by case. *)
Lemma pstep_pool ev p p' o :
  pstep (PPool ev) p = Some (p', o) →
  exited p = None ∧ is_cleanup ev = false
  ∧ ∃ w' o', step ev (pworld p) = Some (w', o')
      ∧ p' = {| pworld := w'; handlers := handlers p; exited := None |}
      ∧ o = PoolObs <$> o'.
Proof.
  unfold pstep. destruct (exited p); [done|]. destruct (is_cleanup ev); [done|].
  destruct (step ev (pworld p)) as [[w' o']|]; [|done]. intros ?; simplify_eq.
  repeat split. by eexists _, _.
Qed.

Lemma pstep_signal s p p' o :
  pstep (PSignal s) p = Some (p', o) →
  exited p = None
  ∧ ∃ w' o' o1, step ECleanup (with_cleaning None (pworld p)) = Some (w', o')
      ∧ handlerStep s (λ h, handlers p ++ [h]) (handlers p) w' o' = (p', o1)
      ∧ o = ConsoleLog ("Received " +:+ signal_name s +:+ ", shutting down gracefully...")
            :: o1.
Proof.
  unfold pstep. destruct (exited p); [done|].
  destruct (step ECleanup (with_cleaning None (pworld p))) as [[w' o']|]; [|done].
  destruct (handlerStep _ _ _ _ _) as [p1 o1] eqn:Eh. intros ?; simplify_eq.
  split; [done|]. by eexists _, _, _.
Qed.

Lemma pstep_cleanup_closed k r p p' o :
  pstep (PCleanupClosed k r) p = Some (p', o) →
  exited p = None
  ∧ ∃ s it w' o', handlers p !! k = Some (s, it)
      ∧ step (ECleanupClosed r) (with_cleaning (Some it) (pworld p)) = Some (w', o')
      ∧ handlerStep s (λ h, <[k := h]> (handlers p)) (delete k (handlers p)) w' o' = (p', o).
Proof.
  unfold pstep. destruct (exited p); [done|].
  destruct (handlers p !! k) as [[s it]|]; [|done].
  destruct (step (ECleanupClosed r) (with_cleaning (Some it) (pworld p)))
    as [[w' o']|] eqn:E; [|done].
  intros ?; simplify_eq. split; [done|]. by eexists _, _, _, _.
Qed.

Lemma closed_or_taken_app_l o1 o2 b : closed_or_taken o1 b → closed_or_taken (o1 ++ o2) b.
Proof.
  intros [[s H]|[c H]]; [left; exists s|right; exists c]; apply elem_of_app; by left.
Qed.

Lemma closed_or_taken_app_r o1 o2 b : closed_or_taken o2 b → closed_or_taken (o1 ++ o2) b.
Proof.
  intros [[s H]|[c H]]; [left; exists s|right; exists c]; apply elem_of_app; by right.
Qed.

(** A call of [getBrowser] or [releaseBrowser] leaves an idle instance at
    its index, unless it is the [getBrowser] that takes it. *)
Lemma step_idle_index ev w w' o j b :
  is_cleanup ev = false → step ev w = Some (w', o) → browsers (pl w) !! j = Some b →
  browsers (pl w') !! j = Some b ∨ ∃ c, Resolved c b ∈ o.
Proof.
  intros Hc H Hj.
  destruct ev as [c|c r|c b0|b0 pages closePage|b0 r| |r]; simpl in H; try done.
  - unfold getBrowser in H.
    destruct (pop (browsers (pl w))) as [[rest b1]|] eqn:E.
    + apply pop_Some in E. rewrite E in Hj. simplify_eq; simpl.
      apply lookup_app_Some in Hj as [Hj|[_ Hj]]; [by left|].
      right. exists c. destruct (j - length rest)%nat; [|done].
      simpl in Hj. simplify_eq. apply elem_of_cons. by left.
    + destruct (_ <? _); simplify_eq; by left.
  - destruct (remove1 c (launching w)); simpl in H; [|done].
    destruct r; simplify_eq; by left.
  - destruct (remove1 (c, b0) (held w)); simpl in H; [|done]. simplify_eq. by left.
  - destruct (find_release b0 (releasing w)) as [[[c ph] rest]|]; simpl in H; [|done].
    destruct ph; try done.
    destruct (cleanupPages pages closePage) as [cl [e|]]; [simplify_eq; by left|].
    unfold releaseAfterCleanup in H.
    destruct (shift (queue (pl w))) as [[c' q]|]; [simplify_eq; by left|].
    destruct (_ <? _); simplify_eq; left; [|done].
    simpl. unfold push. by apply lookup_app_l_Some.
  - destruct (find_release b0 (releasing w)) as [[[c ph] rest]|]; simpl in H; [|done].
    destruct ph, r; simplify_eq; by left.
Qed.

(** An instance at index [j] of the idle list that every suspended loop has
    still to reach: a step leaves it so, or a handler calls its [close], or
    a [getBrowser] takes it. *)
Lemma pstep_idle ev p p' o j b :
  pstep ev p = Some (p', o) →
  browsers (pl (pworld p)) !! j = Some b → Forall (λ h, (h.2.1 < j)%nat) (handlers p) →
  closed_or_taken o b
  ∨ (exited p' = None ∧ browsers (pl (pworld p')) !! j = Some b
     ∧ Forall (λ h, (h.2.1 < j)%nat) (handlers p')).
Proof.
  intros H Hj Hh. destruct ev as [ev|s|k r].
  - apply pstep_pool in H as (_ & Hc & w' & o' & Hstep & -> & ->).
    destruct (step_idle_index _ _ _ _ _ _ Hc Hstep Hj) as [Hj'|[c Hres]].
    + right. by repeat split.
    + left. right. exists c. by apply (list_elem_of_fmap_2 PoolObs) in Hres.
  - apply pstep_signal in H as (_ & w' & o' & o1 & Hstep & Hhs & ->).
    apply cleanup_step_next in Hstep as (_ & _ & _ & _ & Hnext); [|done].
    apply handlerStep_cases in Hhs. simpl in Hnext.
    destruct (browsers (pl (pworld p)) !! 0%nat) as [b1|] eqn:E0.
    + destruct Hnext as (Hcl & Hpl & Hclose). rewrite Hcl in Hhs.
      destruct Hhs as [-> ->]. destruct j as [|j].
      * left. left. exists s. simplify_eq. apply elem_of_cons. right.
        by apply (list_elem_of_fmap_2 (HandlerObs s)) in Hclose.
      * right. simpl. rewrite Hpl. repeat split; [done|].
        apply Forall_app. split; [done|]. constructor; [simpl; lia|constructor].
    + destruct (browsers (pl (pworld p))); [done|]. done.
  - apply pstep_cleanup_closed in H as (_ & s & [i bi] & w' & o' & Hk & Hstep & Hhs).
    apply cleanup_step_next in Hstep as (_ & _ & _ & _ & Hnext); [|done].
    apply handlerStep_cases in Hhs. simpl in Hnext.
    assert (i < j)%nat as Hij.
    { rewrite Forall_lookup in Hh. by apply (Hh _ _ Hk). }
    destruct (browsers (pl (pworld p)) !! S i) as [b1|] eqn:E0.
    + destruct Hnext as (Hcl & Hpl & Hclose). rewrite Hcl in Hhs.
      destruct Hhs as [-> ->]. destruct (decide (S i = j)) as [<-|Hne].
      * left. left. exists s. simplify_eq.
        by apply (list_elem_of_fmap_2 (HandlerObs s)) in Hclose.
      * right. simpl. rewrite Hpl. repeat split; [done|].
        apply Forall_insert; [done|]. simpl. lia.
    + apply lookup_ge_None in E0. apply lookup_lt_Some in Hj. lia.
Qed.

Lemma prun_idle evs : ∀ p p' o j b,
  prun evs p = Some (p', o) → exited p = None →
  browsers (pl (pworld p)) !! j = Some b → Forall (λ h, (h.2.1 < j)%nat) (handlers p) →
  closed_or_taken o b ∨ exited p' = None.
Proof.
  induction evs as [|ev evs IH]; intros p p' o j b H He Hj Hh; simpl in H.
  - simplify_eq. by right.
  - destruct (pstep ev p) as [[p1 o1]|] eqn:E1; simpl in H; [|done].
    destruct (prun evs p1) as [[p2 o2]|] eqn:E2; simpl in H; [|done]. simplify_eq.
    destruct (pstep_idle _ _ _ _ _ _ E1 Hj Hh) as [Hd|(He1 & Hj1 & Hh1)].
    + left. by apply closed_or_taken_app_l.
    + destruct (IH _ _ _ _ _ E2 He1 Hj1 Hh1) as [Hd|He'].
      * left. by apply closed_or_taken_app_r.
      * by right.
Qed.

Lemma idle_not_held w c b :
  NoDup (owned w) → b ∈ browsers (pl w) → (c, b) ∈ held w → False.
Proof.
  intros Hnd Hb Hin. unfold owned in Hnd. apply NoDup_app in Hnd as (_ & Hidle & _).
  eapply Hidle; [done|]. apply elem_of_app. left.
  by apply (list_elem_of_fmap_2 snd) in Hin.
Qed.

(** A handler calls [close] on instances of the idle list only. *)
Lemma handlerStep_close s suspend others w w' o o' p' ev s' b :
  is_cleanup ev = true → step ev w = Some (w', o) →
  handlerStep s suspend others w' o = (p', o') →
  HandlerObs s' (BrowserClose b) ∈ o' → b ∈ browsers (pl w).
Proof.
  intros Hc Hstep Hhs Hin.
  destruct (cleanup_step_frame _ _ _ _ Hc Hstep) as (_ & _ & _ & _ & Hcl).
  apply Hcl. apply handlerStep_cases in Hhs.
  destruct (cleaning w'); destruct Hhs as [_ ->].
  - apply list_elem_of_fmap in Hin as (x & ? & ?). by simplify_eq.
  - apply elem_of_app in Hin as [Hin|Hin].
    + apply list_elem_of_fmap in Hin as (x & ? & ?). by simplify_eq.
    + apply list_elem_of_singleton in Hin. done.
Qed.

Lemma handlerStep_held s suspend others w w' o o' p' ev :
  is_cleanup ev = true → step ev w = Some (w', o) →
  handlerStep s suspend others w' o = (p', o') →
  held (pworld p') = held w ∧ queue (pl (pworld p')) = queue (pl w)
  ∧ launching (pworld p') = launching w ∧ releasing (pworld p') = releasing w.
Proof.
  intros Hc Hstep Hhs.
  destruct (cleanup_step_frame _ _ _ _ Hc Hstep) as (Hq & Hh & _).
  destruct (cleanup_step_next _ _ _ _ Hc Hstep) as (_ & Hl & Hr & _).
  apply handlerStep_cases in Hhs.
  destruct (cleaning w'); destruct Hhs as [-> _]; simpl; done.
Qed.

Lemma releasing_not_held w c b :
  NoDup (owned w) → b ∈ ((λ x, snd (fst x)) <$> releasing w) → (c, b) ∈ held w → False.
Proof.
  intros Hnd Hb Hin. unfold owned in Hnd. apply NoDup_app in Hnd as (_ & _ & Hnd).
  apply NoDup_app in Hnd as (_ & Hrel & _).
  eapply Hrel; [|done]. by apply (list_elem_of_fmap_2 snd) in Hin.
Qed.

(** [close] is called on an instance only by the [releaseBrowser] that is
    releasing it, or by a [cleanup()] that finds it in the idle list. *)
Lemma step_close_owner ev w w' o b :
  step ev w = Some (w', o) → BrowserClose b ∈ o →
  if is_cleanup ev then b ∈ browsers (pl w)
  else b ∈ ((λ x, snd (fst x)) <$> releasing w).
Proof.
  intros H Hin.
  destruct (is_cleanup ev) eqn:Hc.
  { destruct (cleanup_step_frame _ _ _ _ Hc H) as (_ & _ & _ & _ & Hcl). by apply Hcl. }
  destruct ev as [c|c r|c b0|b0 pages closePage|b0 r| |r]; simpl in H; try done.
  - unfold getBrowser in H.
    destruct (pop (browsers (pl w))) as [[rest b1]|]; [simplify_eq; no_resolved Hin|].
    destruct (_ <? _); simplify_eq; no_resolved Hin.
  - destruct (remove1 c (launching w)); simpl in H; [|done].
    destruct r; simplify_eq; no_resolved Hin.
  - destruct (remove1 (c, b0) (held w)); simpl in H; [|done]. simplify_eq.
    no_resolved Hin.
  - destruct (find_release b0 (releasing w)) as [[[c ph] rest]|] eqn:E; simpl in H; [|done].
    apply find_release_perm in E.
    assert (b0 ∈ ((λ x, snd (fst x)) <$> releasing w)) as Hb0.
    { rewrite E. simpl. apply elem_of_cons. by left. }
    assert (BrowserClose b ∈ o → b = b0 ∨ ∃ cl : list page, BrowserClose b ∈ PageClose <$> cl)
      as Hcase.
    { clear Hin. intros Hin. destruct ph; try done.
      destruct (cleanupPages pages closePage) as [cl [e|]].
      - simplify_eq. apply elem_of_app in Hin as [Hin|Hin]; [right; by exists cl|].
        apply list_elem_of_singleton in Hin. left. by simplify_eq.
      - destruct (releaseAfterCleanup b0 (pl w)) as [p' []]; simplify_eq;
          apply elem_of_app in Hin as [Hin|Hin]; try (right; by exists cl);
          try no_resolved Hin.
        apply list_elem_of_singleton in Hin. left. by simplify_eq. }
    destruct (Hcase Hin) as [->|[cl Hcl]]; [done|].
    apply list_elem_of_fmap in Hcl as (x & ? & ?). done.
  - destruct (find_release b0 (releasing w)) as [[[c ph] rest]|] eqn:E; simpl in H; [|done].
    apply find_release_perm in E.
    assert (b0 ∈ ((λ x, snd (fst x)) <$> releasing w)) as Hb0.
    { rewrite E. simpl. apply elem_of_cons. by left. }
    destruct ph, r; simplify_eq; try no_resolved Hin.
    apply list_elem_of_singleton in Hin. by simplify_eq.
Qed.

Lemma handlerStep_obs s suspend others w' o p' o' x :
  handlerStep s suspend others w' o = (p', o') → PoolObs x ∉ o'.
Proof.
  intros Hhs Hin. apply handlerStep_cases in Hhs.
  destruct (cleaning w'); destruct Hhs as [_ ->].
  - apply list_elem_of_fmap in Hin as (y & ? & ?). done.
  - apply elem_of_app in Hin as [Hin|Hin].
    + apply list_elem_of_fmap in Hin as (y & ? & ?). done.
    + apply list_elem_of_singleton in Hin. done.
Qed.

(** Who calls [close] in a step of the process: a [releaseBrowser] on the
    instance it is releasing, a handler on an instance of the idle list. *)
Lemma pstep_close ev p p' o b :
  pstep ev p = Some (p', o) →
  (PoolObs (BrowserClose b) ∈ o → b ∈ ((λ x, snd (fst x)) <$> releasing (pworld p)))
  ∧ (∀ s, HandlerObs s (BrowserClose b) ∈ o → b ∈ browsers (pl (pworld p))).
Proof.
  intros H. destruct ev as [ev|s|k r].
  - apply pstep_pool in H as (_ & Hc & w' & o' & Hstep & -> & ->). split.
    + intros Hin. apply list_elem_of_fmap in Hin as (x & ? & Hx). simplify_eq.
      pose proof (step_close_owner _ _ _ _ _ Hstep Hx) as Hb. by rewrite Hc in Hb.
    + intros s Hin. apply list_elem_of_fmap in Hin as (x & ? & ?). done.
  - apply pstep_signal in H as (_ & w' & o' & o1 & Hstep & Hhs & ->). split.
    + intros [?|Hin]%elem_of_cons; [done|]. by eapply handlerStep_obs in Hin.
    + intros s' [?|Hin]%elem_of_cons; [done|].
      by eapply (handlerStep_close _ _ _ (with_cleaning None (pworld p)) _ _ _ _ ECleanup).
  - apply pstep_cleanup_closed in H as (_ & s & it & w' & o' & Hk & Hstep & Hhs). split.
    + intros Hin. by eapply handlerStep_obs in Hin.
    + intros s' Hin.
      by eapply (handlerStep_close _ _ _ (with_cleaning (Some it) (pworld p)) _ _ _ _
                   (ECleanupClosed r)).
Qed.

(** An instance on loan stays on loan until its caller releases it, and
    nobody calls its [close]. *)
Lemma pstep_loan ev p p' o c b :
  PInv p → pstep ev p = Some (p', o) →
  (c, b) ∈ held (pworld p) → ev ≠ PPool (ERelease c b) →
  (c, b) ∈ held (pworld p')
  ∧ (PoolObs (BrowserClose b) ∉ o) ∧ (∀ s, HandlerObs s (BrowserClose b) ∉ o).
Proof.
  intros (Hnd & _ & _) H Hin Hne.
  destruct (pstep_close _ _ _ _ b H) as [Hpool Hhandler].
  split; [|split].
  - destruct ev as [ev|s|k r].
    + apply pstep_pool in H as (_ & Hc & w' & o' & Hstep & -> & ->). simpl.
      eapply step_keeps_held; [done..|]. congruence.
    + apply pstep_signal in H as (_ & w' & o' & o1 & Hstep & Hhs & ->).
      destruct (handlerStep_held _ _ _ _ _ _ _ _ ECleanup eq_refl Hstep Hhs) as (-> & _).
      done.
    + apply pstep_cleanup_closed in H as (_ & s & it & w' & o' & Hk & Hstep & Hhs).
      destruct (handlerStep_held _ _ _ _ _ _ _ _ (ECleanupClosed r) eq_refl Hstep Hhs)
        as (-> & _).
      done.
  - intros Hx. eapply releasing_not_held; [done| |done]. by apply Hpool.
  - intros s Hx. eapply idle_not_held; [done| |done]. by eapply Hhandler.
Qed.

Lemma prun_loan evs : ∀ p p' o c b,
  PInv p → prun evs p = Some (p', o) →
  (c, b) ∈ held (pworld p) → PPool (ERelease c b) ∉ evs →
  (c, b) ∈ held (pworld p')
  ∧ (PoolObs (BrowserClose b) ∉ o) ∧ (∀ s, HandlerObs s (BrowserClose b) ∉ o).
Proof.
  induction evs as [|ev evs IH]; intros p p' o c b HI H Hin Hne; simpl in H.
  - simplify_eq. split; [done|]. split; [|intros s]; intros Hs; by apply elem_of_nil in Hs.
  - destruct (pstep ev p) as [[p1 o1]|] eqn:E1; simpl in H; [|done].
    destruct (prun evs p1) as [[p2 o2]|] eqn:E2; simpl in H; [|done]. simplify_eq.
    destruct (pstep_loan _ _ _ _ c b HI E1 Hin) as (Hin1 & Hp1 & Ho1).
    { intros ->. apply Hne. apply elem_of_cons. by left. }
    destruct (IH _ _ _ c b (pstep_inv _ _ _ _ HI E1) E2 Hin1) as (Hin2 & Hp2 & Ho2).
    { intros Hev. apply Hne. apply elem_of_cons. by right. }
    split; [done|]. split.
    + intros [Hs|Hs]%elem_of_app; done.
    + intros s [Hs|Hs]%elem_of_app; [by eapply Ho1|by eapply Ho2].
Qed.

(** The process exits in a step of a handler whose [cleanup()] returns:
    lines 107-108 have just run. *)
Lemma pstep_exit ev p p' o :
  pstep ev p = Some (p', o) → exited p' ≠ None →
  is_handler ev = true ∧ exited p' = Some 0 ∧ last o = Some (ProcessExit 0)
  ∧ pl (pworld p') = cleanupFinish (pl (pworld p))
  ∧ held (pworld p') = held (pworld p) ∧ launching (pworld p') = launching (pworld p)
  ∧ releasing (pworld p') = releasing (pworld p).
Proof.
  intros H He. destruct ev as [ev|s|k r].
  - apply pstep_pool in H as (_ & Hc & w' & o' & Hstep & -> & ->). done.
  - apply pstep_signal in H as (_ & w' & o' & o1 & Hstep & Hhs & ->).
    destruct (handlerStep_held _ _ _ _ _ _ _ _ ECleanup eq_refl Hstep Hhs) as (Hh & _ & Hl & Hr).
    apply cleanup_step_next in Hstep as (_ & _ & _ & _ & Hnext); [|done].
    apply handlerStep_cases in Hhs. simpl in Hnext.
    destruct (browsers (pl (pworld p)) !! 0%nat).
    + destruct Hnext as (Hcl & _). rewrite Hcl in Hhs. destruct Hhs as [-> _]. done.
    + destruct Hnext as (Hcl & Hpl). rewrite Hcl in Hhs. destruct Hhs as [-> ->].
      simpl in *. repeat split; try done.
      by rewrite app_comm_cons, last_snoc.
  - apply pstep_cleanup_closed in H as (_ & s & [i bi] & w' & o' & Hk & Hstep & Hhs).
    destruct (handlerStep_held _ _ _ _ _ _ _ _ (ECleanupClosed r) eq_refl Hstep Hhs) as (Hh & _ & Hl & Hr).
    apply cleanup_step_next in Hstep as (_ & _ & _ & _ & Hnext); [|done].
    apply handlerStep_cases in Hhs. simpl in Hnext.
    destruct (browsers (pl (pworld p)) !! S i).
    + destruct Hnext as (Hcl & _). rewrite Hcl in Hhs. destruct Hhs as [-> _]. done.
    + destruct Hnext as (Hcl & Hpl). rewrite Hcl in Hhs. destruct Hhs as [-> ->].
      simpl in *. repeat split; try done. by rewrite last_snoc.
Qed.

Lemma prun_exit evs : ∀ p p' o,
  prun evs p = Some (p', o) → exited p = None → exited p' ≠ None →
  exited p' = Some 0 ∧ last o = Some (ProcessExit 0)
  ∧ browsers (pl (pworld p')) = [] ∧ activeBrowsers (pl (pworld p')) = 0.
Proof.
  induction evs as [|ev evs IH]; intros p p' o H He He'; simpl in H; [by simplify_eq|].
  destruct (pstep ev p) as [[p1 o1]|] eqn:E1; simpl in H; [|done].
  destruct (prun evs p1) as [[p2 o2]|] eqn:E2; simpl in H; [|done]. simplify_eq.
  destruct (exited p1) as [n|] eqn:E.
  - apply prun_exited in E2 as (-> & -> & ->); [|by rewrite E].
    apply pstep_exit in E1 as (_ & ? & ? & Hpl & _); [|by rewrite E].
    rewrite app_nil_r, Hpl. done.
  - destruct (IH _ _ _ E2 E He') as (? & Hlast & ? & ?). repeat split; try done.
    destruct o2 as [|x o2] using rev_ind; [done|].
    rewrite last_snoc in Hlast. by rewrite app_assoc, last_snoc.
Qed.

(** A step of a handler leaves the queue as it is and settles no promise. *)
Lemma settled_handler s o :
  (∀ c b, Resolved c b ∉ o) → (∀ c e, Rejected c e ∉ o) →
  settled (HandlerObs s <$> o) = [].
Proof.
  unfold settled. induction o as [|x o IH]; intros H1 H2; [done|].
  rewrite fmap_cons. simpl.
  destruct x; simpl;
    try (apply IH; intros ?? Hin; [eapply H1|eapply H2]; apply elem_of_cons; by right).
  - exfalso. eapply H1. apply elem_of_cons. by left.
  - exfalso. eapply H2. apply elem_of_cons. by left.
Qed.

Lemma handlerStep_settled s suspend others w w' o o' p' ev :
  is_cleanup ev = true → step ev w = Some (w', o) →
  handlerStep s suspend others w' o = (p', o') → settled o' = [].
Proof.
  intros Hc Hstep Hhs.
  destruct (cleanup_step_frame _ _ _ _ Hc Hstep) as (_ & _ & H1 & H2 & _).
  apply handlerStep_cases in Hhs.
  destruct (cleaning w'); destruct Hhs as [_ ->].
  - by apply settled_handler.
  - unfold settled. rewrite omap_app. fold (settled (HandlerObs s <$> o)).
    by rewrite settled_handler.
Qed.

Lemma pstep_handler_frame ev p p' o :
  is_handler ev = true → pstep ev p = Some (p', o) →
  queue (pl (pworld p')) = queue (pl (pworld p)) ∧ held (pworld p') = held (pworld p)
  ∧ settled o = [].
Proof.
  intros Hh H. destruct ev as [ev|s|k r]; [done| |].
  - apply pstep_signal in H as (_ & w' & o' & o1 & Hstep & Hhs & ->).
    destruct (handlerStep_held _ _ _ _ _ _ _ _ ECleanup eq_refl Hstep Hhs) as (? & ? & _).
    repeat split; [done..|].
    unfold settled. simpl. by eapply (handlerStep_settled _ _ _ _ _ _ _ _ ECleanup).
  - apply pstep_cleanup_closed in H as (_ & s & it & w' & o' & Hk & Hstep & Hhs).
    destruct (handlerStep_held _ _ _ _ _ _ _ _ (ECleanupClosed r) eq_refl Hstep Hhs)
      as (? & ? & _).
    repeat split; [done..|].
    by eapply (handlerStep_settled _ _ _ _ _ _ _ _ (ECleanupClosed r)).
Qed.

(** ** The handler when nothing else is scheduled *)

Lemma with_cleaning_same w it : cleaning w = Some it → with_cleaning (Some it) w = w.
Proof. destruct w. simpl. by intros ->. Qed.

(** The closes of the only suspended handler settle one after the other:
    the run of the process is the run of [cleanup()] in the pool. *)
Lemma handler_alone s rs : ∀ w it w' o,
  run (ECleanupClosed <$> rs) (with_cleaning (Some it) w) = Some (w', o) →
  rs ≠ [] → cleaning w' = None →
  prun (PCleanupClosed 0 <$> rs)
    {| pworld := with_cleaning None w; handlers := [(s, it)]; exited := None |}
  = Some ({| pworld := w'; handlers := []; exited := Some 0 |},
          (HandlerObs s <$> o) ++ [ProcessExit 0]).
Proof.
  induction rs as [|r rs IH]; intros w it w' o H Hne Hcl; [done|].
  rewrite fmap_cons, run_cons in H.
  destruct (step (ECleanupClosed r) (with_cleaning (Some it) w)) as [[w1 o1]|] eqn:E1;
    simpl in H; [|done].
  destruct (run (ECleanupClosed <$> rs) w1) as [[w2 o2]|] eqn:E2; simpl in H; [|done].
  simplify_eq.
  rewrite fmap_cons. cbn [prun]. unfold pstep. cbn [exited handlers pworld lookup list_lookup].
  change (with_cleaning (Some it) (with_cleaning None w)) with (with_cleaning (Some it) w).
  rewrite E1. unfold handlerStep.
  destruct (cleaning w1) as [it1|] eqn:Ec1.
  - destruct rs as [|r' rs]; [simpl in E2; simplify_eq; congruence|].
    cbn [mbind option_bind insert list_insert].
    rewrite <- (with_cleaning_same w1 it1 Ec1) in E2.
    rewrite (IH w1 it1 w' o2 E2); [|done|done].
    cbn [mbind option_bind]. by rewrite fmap_app, app_assoc.
  - destruct rs as [|r' rs].
    + simpl in E2. simplify_eq. cbn [mbind option_bind fmap list_fmap prun delete].
      by rewrite !app_nil_r.
    + rewrite fmap_cons, run_cons in E2. simpl in E2. by rewrite Ec1 in E2.
Qed.

(** The handler of [s], run from a state without suspended handlers and
    with nothing else scheduled until its closes have settled. *)
Lemma signal_alone s p rs :
  exited p = None → handlers p = [] → length rs = length (browsers (pl (pworld p))) →
  ∃ p', prun (PSignal s :: (PCleanupClosed 0 <$> rs)) p
        = Some (p', ConsoleLog ("Received " +:+ signal_name s
                                +:+ ", shutting down gracefully...")
                    :: (HandlerObs s <$> cleanup_trace (browsers (pl (pworld p))) rs)
                    ++ [ProcessExit 0])
    ∧ exited p' = Some 0
    ∧ pl (pworld p') = cleanupFinish (pl (pworld p))
    ∧ held (pworld p') = held (pworld p) ∧ launching (pworld p') = launching (pworld p)
    ∧ releasing (pworld p') = releasing (pworld p)
    ∧ closed (pworld p') = closed (pworld p) ++ cleanup_closed (browsers (pl (pworld p))) rs.
Proof.
  intros He Hh Hlen.
  destruct (cleanup_alone (with_cleaning None (pworld p)) rs eq_refl Hlen)
    as (w' & o & Hrun & Ho & Hpl & Hheld & Hl & Hr & _ & Hcl & Hclosed).
  cbn [with_cleaning pl held launching releasing closed] in Ho, Hpl, Hheld, Hl, Hr, Hclosed.
  unfold cleanupAlone in Hrun. rewrite run_cons in Hrun.
  destruct (step ECleanup (with_cleaning None (pworld p))) as [[w1 o1]|] eqn:E1;
    simpl in Hrun; [|done].
  destruct (run (ECleanupClosed <$> rs) w1) as [[w2 o2]|] eqn:E2; simpl in Hrun; [|done].
  injection Hrun as -> Ho'. rewrite Ho in Ho'. clear Ho.
  cbn [prun]. unfold pstep. rewrite He, E1, Hh. unfold handlerStep.
  destruct (cleaning w1) as [it1|] eqn:Ec1.
  - destruct rs as [|r rs].
    { simpl in E2. injection E2 as <- _. congruence. }
    cbn [mbind option_bind app].
    rewrite <- (with_cleaning_same w1 it1 Ec1) in E2.
    rewrite (handler_alone s (r :: rs) w1 it1 w' o2 E2); [|done|done].
    cbn [mbind option_bind]. eexists. split.
    { do 2 f_equal. by rewrite <- Ho', fmap_app, app_assoc. }
    simpl. by rewrite Hpl, Hheld, Hl, Hr, Hclosed.
  - destruct rs as [|r rs].
    + simpl in E2. injection E2 as <- <-. cbn [mbind option_bind fmap list_fmap prun].
      eexists. split.
      { do 2 f_equal. by rewrite <- Ho', !app_nil_r. }
      simpl. by rewrite Hpl, Hheld, Hl, Hr, Hclosed.
    + rewrite fmap_cons, run_cons in E2. simpl in E2. by rewrite Ec1 in E2.
Qed.

(** ** The signal handlers: C8 and C9 *)

(** [signal_world] and [waiting_world] are states of the running program. *)
Lemma signal_world_booted :
  prun (PPool <$> [EGet 1%nat; ELaunched 1%nat None; EGet 2%nat; ELaunched 2%nat None;
                   ERelease 2%nat 1%nat; EPages 1%nat (inr [5%nat]) (λ _, None)])
    (boot 3)
  = Some (running signal_world,
          PoolObs <$> [Launch 1%nat; Resolved 1%nat 0%nat; Launch 2%nat;
                       Resolved 2%nat 1%nat; ReleaseReturned 2%nat 1%nat]).
Proof. vm_compute. reflexivity. Qed.

Lemma waiting_world_booted :
  prun (PPool <$> [EGet 1%nat; ELaunched 1%nat None; EGet 2%nat]) (boot 1)
  = Some (running waiting_world, PoolObs <$> [Launch 1%nat; Resolved 1%nat 0%nat]).
Proof. vm_compute. reflexivity. Qed.

(** C8, as the code has it. The signal [s] reaches the program in a state
    [p0] in which no handler is suspended, and any schedule [evs] follows:
    calls and continuations of [getBrowser] and [releaseBrowser], closes
    of the handlers that settle, further signals.
    - The handler logs first.
    - A handler calls [close] on an instance only when that instance is in
      the idle list, and so on loan to nobody, at that moment.
    - An instance that is on loan when the signal arrives and that its
      caller does not release stays on loan, and nobody calls its [close].
    - When the process has exited, it did so with code 0 as its last act,
      in the step in which lines 107-108 emptied the idle list and set
      [activeBrowsers] to 0, and nothing runs afterwards. Every instance
      that was idle when the signal arrived has then had its [close]
      called by a handler, unless a [getBrowser] took it first.
    - The process does exit when the closes settle and nothing else is
      scheduled: [close] is then called on the instances that were idle,
      and on no other, once each and in the order of the idle list, a
      close that throws being logged; loans, suspended calls and the queue
      are left as they were. *)
Theorem signal_closes_idle_only (M : Z) (evs0 : list pevent) (o0 : list pobs)
    (p0 : process) (s : signal) (evs : list pevent) (p' : process) (o : list pobs) :
  prun evs0 (boot M) = Some (p0, o0) → exited p0 = None → handlers p0 = [] →
  prun (PSignal s :: evs) p0 = Some (p', o) →
  head o = Some (ConsoleLog ("Received " +:+ signal_name s
                             +:+ ", shutting down gracefully..."))
  ∧ (∀ evs1 p1 o1 ev p2 o2 s' b,
       prun evs1 p0 = Some (p1, o1) → pstep ev p1 = Some (p2, o2) →
       HandlerObs s' (BrowserClose b) ∈ o2 →
       b ∈ browsers (pl (pworld p1)) ∧ ∀ c, (c, b) ∉ held (pworld p1))
  ∧ (∀ c b, (c, b) ∈ held (pworld p0) → PPool (ERelease c b) ∉ evs →
       (c, b) ∈ held (pworld p')
       ∧ (PoolObs (BrowserClose b) ∉ o) ∧ (∀ s', HandlerObs s' (BrowserClose b) ∉ o))
  ∧ (exited p' ≠ None →
       exited p' = Some 0 ∧ last o = Some (ProcessExit 0)
       ∧ browsers (pl (pworld p')) = [] ∧ activeBrowsers (pl (pworld p')) = 0
       ∧ (∀ b, b ∈ browsers (pl (pworld p0)) → closed_or_taken o b)
       ∧ (∀ ev, pstep ev p' = None))
  ∧ (∀ rs, length rs = length (browsers (pl (pworld p0))) →
       ∃ p1, prun (PSignal s :: (PCleanupClosed 0 <$> rs)) p0
             = Some (p1, ConsoleLog ("Received " +:+ signal_name s
                                     +:+ ", shutting down gracefully...")
                         :: (HandlerObs s <$> cleanup_trace (browsers (pl (pworld p0))) rs)
                         ++ [ProcessExit 0])
         ∧ exited p1 = Some 0
         ∧ (∀ b, BrowserClose b ∈ cleanup_trace (browsers (pl (pworld p0))) rs
                 ↔ b ∈ browsers (pl (pworld p0)))
         ∧ browsers (pl (pworld p1)) = [] ∧ activeBrowsers (pl (pworld p1)) = 0
         ∧ queue (pl (pworld p1)) = queue (pl (pworld p0))
         ∧ held (pworld p1) = held (pworld p0)
         ∧ launching (pworld p1) = launching (pworld p0)
         ∧ releasing (pworld p1) = releasing (pworld p0)).
Proof.
  intros Hreach He Hh Hrun.
  assert (PInv p0) as HI by (eapply prun_inv; [apply boot_inv|done]).
  split; [|split; [|split; [|split]]].
  - simpl in Hrun.
    destruct (pstep (PSignal s) p0) as [[p1 o1]|] eqn:E1; simpl in Hrun; [|done].
    destruct (prun evs p1) as [[p2 o2]|]; simpl in Hrun; [|done]. simplify_eq.
    apply pstep_signal in E1 as (_ & w' & o' & o3 & _ & _ & ->). done.
  - intros evs1 p1 o1 ev p2 o2 s' b Hrun1 Hstep Hin.
    assert (PInv p1) as (Hnd & _) by (by eapply prun_inv).
    destruct (pstep_close _ _ _ _ b Hstep) as [_ Hb]. specialize (Hb _ Hin).
    split; [done|]. intros c Hc. by eapply idle_not_held.
  - intros c b Hin Hne. eapply prun_loan; [done..|].
    intros [?|?]%elem_of_cons; done.
  - intros He'.
    destruct (prun_exit _ _ _ _ Hrun He He') as (? & ? & ? & ?).
    repeat split; try done.
    + intros b [j Hj]%list_elem_of_lookup_1.
      destruct (prun_idle _ _ _ _ j b Hrun He Hj) as [?|?]; [by rewrite Hh|done|done].
    + intros ev. by apply pstep_exited.
  - intros rs Hlen.
    destruct (signal_alone s p0 rs He Hh Hlen) as (p1 & Hp1 & He1 & Hpl & Hheld & Hl & Hr & _).
    exists p1. rewrite Hpl. repeat split; try done.
    + apply cleanup_trace_close.
    + by apply cleanup_trace_all.
Qed.

(** The program is in [signal_world] when SIGTERM arrives, and the close of
    the idle instance 1 returns before anything else happens. *)
Lemma signal_closes_idle_only_witness :
  ∃ p' o, prun [PSignal SIGTERM; PCleanupClosed 0 None] (running signal_world) = Some (p', o)
    ∧ exited p' = Some 0 ∧ closed_or_taken o 1%nat
    ∧ (1%nat, 0%nat) ∈ held (pworld p')
    ∧ (PoolObs (BrowserClose 0%nat) ∉ o)
    ∧ ∀ s', HandlerObs s' (BrowserClose 0%nat) ∉ o.
Proof.
  eexists _, _. split; [vm_compute; reflexivity|].
  destruct (signal_closes_idle_only 3 _ _ (running signal_world) SIGTERM
              [PCleanupClosed 0 None] _ _ signal_world_booted eq_refl eq_refl eq_refl)
    as (_ & _ & Hloan & Hexit & _).
  destruct Hexit as (He & _ & _ & _ & Hidle & _); [done|].
  destruct (Hloan 1%nat 0%nat) as (Hheld & Hpool & Hclose).
  { apply elem_of_cons. by left. }
  { intros [?|[]%elem_of_nil]%elem_of_cons. done. }
  split; [exact He|]. split; [|split; [exact Hheld|split; [exact Hpool|exact Hclose]]].
  apply Hidle. apply elem_of_cons. by left.
Defined.

(** C8 as stated fails. The program reaches [signal_world]: instance 1 is
    idle and instance 0 is on loan to caller 1. SIGTERM arrives and the one
    close that the handler awaits returns: the process exits with instance
    0 still on loan; [close] was called on instance 1 only. *)
Lemma signal_leaves_loan_open :
  ∃ p',
    prun (PPool <$> [EGet 1%nat; ELaunched 1%nat None; EGet 2%nat; ELaunched 2%nat None;
                     ERelease 2%nat 1%nat; EPages 1%nat (inr [5%nat]) (λ _, None)])
      (boot 3)
    = Some (running signal_world,
            PoolObs <$> [Launch 1%nat; Resolved 1%nat 0%nat; Launch 2%nat;
                         Resolved 2%nat 1%nat; ReleaseReturned 2%nat 1%nat])
    ∧ held signal_world = [(1%nat, 0%nat)] ∧ browsers (pl signal_world) = [1%nat]
    ∧ prun [PSignal SIGTERM; PCleanupClosed 0 None] (running signal_world)
      = Some (p', [ConsoleLog "Received SIGTERM, shutting down gracefully...";
                   HandlerObs SIGTERM (BrowserClose 1%nat); ProcessExit 0])
    ∧ exited p' = Some 0
    ∧ held (pworld p') = [(1%nat, 0%nat)]
    ∧ closed (pworld p') = [1%nat]
    ∧ browsers (pl (pworld p')) = [] ∧ activeBrowsers (pl (pworld p')) = 0.
Proof.
  eexists. split; [vm_compute; reflexivity|]. do 2 (split; [reflexivity|]).
  split; [vm_compute; reflexivity|]. by repeat split.
Qed.

(** C9. A caller [c] is in the queue when a signal reaches the program, in
    any state [p] that the running program reaches. Then the idle list is
    empty, so the [cleanup()] of the handler returns without suspending:
    it calls no [close], leaves the queue as it is, resolves and rejects
    nothing, empties the idle list and sets [activeBrowsers] to 0; the
    handler then exits the process, and nothing runs afterwards: the
    promise of [c] is never settled. And whatever the state, a step of a
    handler or of its [cleanup()] leaves the queue and the loans as they
    are and settles no promise, and once a [cleanup()] has returned the
    process has exited. *)
Theorem cleanup_leaves_waiters (M : Z) (evs0 : list pevent) (o0 : list pobs)
    (p : process) (s : signal) (c : caller) :
  prun evs0 (boot M) = Some (p, o0) → exited p = None → c ∈ queue (pl (pworld p)) →
  ∃ p',
    pstep (PSignal s) p
    = Some (p', [ConsoleLog ("Received " +:+ signal_name s
                             +:+ ", shutting down gracefully...");
                 ProcessExit 0])
    ∧ queue (pl (pworld p')) = queue (pl (pworld p))
    ∧ held (pworld p') = held (pworld p)
    ∧ browsers (pl (pworld p')) = [] ∧ activeBrowsers (pl (pworld p')) = 0
    ∧ exited p' = Some 0
    ∧ (∀ evs p'' o, prun evs p' = Some (p'', o) → evs = [] ∧ p'' = p' ∧ o = [])
    ∧ (∀ p1 ev p2 o1, is_handler ev = true → pstep ev p1 = Some (p2, o1) →
         queue (pl (pworld p2)) = queue (pl (pworld p1))
         ∧ held (pworld p2) = held (pworld p1)
         ∧ settled o1 = []
         ∧ (exited p2 ≠ None →
            pl (pworld p2) = cleanupFinish (pl (pworld p1))
            ∧ ∀ evs p3 o3, prun evs p2 = Some (p3, o3) → evs = [] ∧ p3 = p2 ∧ o3 = [])).
Proof.
  intros Hreach He Hc.
  assert (PInv p) as (_ & _ & Hq) by (eapply prun_inv; [apply boot_inv|done]).
  assert (browsers (pl (pworld p)) = []) as Hidle.
  { apply Hq. intros Hnil. rewrite Hnil in Hc. by apply elem_of_nil in Hc. }
  unfold pstep. rewrite He. simpl. rewrite Hidle. simpl.
  eexists. split; [done|]. simpl. do 5 (split; [done|]). split.
  - intros evs p'' o H. by apply prun_exited in H.
  - intros p1 ev p2 o1 Hev Hstep.
    destruct (pstep_handler_frame _ _ _ _ Hev Hstep) as (? & ? & ?).
    do 3 (split; [done|]). intros He2. split.
    + by apply pstep_exit in Hstep as (_ & _ & _ & ? & _).
    + intros evs p3 o3 Hr. by apply prun_exited in Hr.
Qed.

(** Caller 2 waits in a pool of size 1 when SIGINT arrives. *)
Lemma cleanup_leaves_waiters_witness :
  ∃ p', pstep (PSignal SIGINT) (running waiting_world)
        = Some (p', [ConsoleLog "Received SIGINT, shutting down gracefully...";
                     ProcessExit 0])
    ∧ queue (pl (pworld p')) = [2%nat] ∧ exited p' = Some 0
    ∧ ∀ ev, pstep ev p' = None.
Proof.
  destruct (cleanup_leaves_waiters 1 _ _ (running waiting_world) SIGINT 2%nat
              waiting_world_booted eq_refl)
    as (p' & Hs & Hq & _ & _ & _ & He & _).
  { apply elem_of_cons. by left. }
  exists p'. split; [exact Hs|]. split; [exact Hq|]. split; [exact He|].
  intros ev. apply pstep_exited. by rewrite He.
Defined.

(** ** More on the pool *)

Definition no_cleanup (evs : list event) : bool :=
  forallb (λ ev, negb (is_cleanup ev)) evs.

Lemma run_accounting evs : ∀ w w' o,
  run evs w = Some (w', o) → no_cleanup evs = true →
  activeBrowsers (pl w') - live w' = activeBrowsers (pl w) - live w + leaks o.
Proof.
  induction evs as [|ev evs IH]; intros w w' o H Hc.
  - simpl in H. simplify_eq. unfold leaks. simpl. lia.
  - rewrite run_cons in H. simpl in Hc. apply andb_true_iff in Hc as [Hev Hc].
    destruct (step ev w) as [[w1 o1]|] eqn:E1; simpl in H; [|done].
    destruct (run evs w1) as [[w2 o2]|] eqn:E2; simpl in H; [|done].
    simplify_eq. rewrite leaks_app.
    rewrite (IH _ _ _ E2 Hc).
    rewrite (step_accounting _ _ _ _ E1); [lia|]. by destruct (is_cleanup ev).
Qed.

(** X1. As long as [cleanup] is not called, [activeBrowsers] is the number of
    instances that are idle, on loan, being released or being launched,
    plus the number of [releaseBrowser] calls that rejected. *)
Theorem counter_counts_instances (M : Z) (evs : list event) (w : world) (o : list obs) :
  run evs (init M) = Some (w, o) → no_cleanup evs = true →
  activeBrowsers (pl w) = live w + leaks o.
Proof.
  intros H Hc. pose proof (run_accounting _ _ _ _ H Hc) as Ha.
  rewrite (live_eq (init M)) in Ha. simpl in Ha. lia.
Qed.

Lemma counter_counts_instances_witness :
  activeBrowsers (pl demo_world) = live demo_world + leaks demo_obs.
Proof.
  apply (counter_counts_instances 1 demo_events demo_world demo_obs);
    [exact run_demo|reflexivity].
Defined.

Lemma find_release_elem b l c ph rest :
  find_release b l = Some (c, ph, rest) → (c, b, ph) ∈ l.
Proof.
  intros H%find_release_perm. rewrite H. apply elem_of_cons. by left.
Qed.

(** X2. As long as [cleanup] is not called, the [else] branch of lines 87-89 is
    never taken: when a release has cleaned its instance up and no caller
    waits, the idle list is shorter than [maxSize]. *)
Theorem surplus_close_needs_cleanup (M : Z) (evs : list event) (w : world)
    (o : list obs) (b : browser) (c : caller) (rest : list (caller * browser * phase)) :
  0 ≤ M → run evs (init M) = Some (w, o) → no_cleanup evs = true →
  find_release b (releasing w) = Some (c, Cleaning, rest) →
  Z.of_nat (length (browsers (pl w))) < maxSize (pl w)
  ∧ snd (releaseAfterCleanup b (pl w)) ≠ MustClose.
Proof.
  intros HM Hrun Hc Hf.
  pose proof (run_accounting _ _ _ _ Hrun Hc) as Ha.
  destruct (run_inv M evs _ _ _ HM (init_inv M HM) Hrun) as (Hmax & Hact & _).
  apply find_release_perm, Permutation_length in Hf. simpl in Hf.
  rewrite !live_eq in Ha. simpl in Ha. unfold leaks in Ha.
  assert (Z.of_nat (length (browsers (pl w))) < maxSize (pl w)) as Hlt by lia.
  split; [done|]. unfold releaseAfterCleanup.
  destruct (shift (queue (pl w))) as [[c' q]|]; [done|].
  apply Z.ltb_lt in Hlt. by rewrite Hlt.
Qed.

Lemma surplus_close_needs_cleanup_witness :
  snd (releaseAfterCleanup 0%nat
         {| maxSize := 1; browsers := []; queue := [2%nat]; activeBrowsers := 1 |})
  ≠ MustClose.
Proof.
  apply (surplus_close_needs_cleanup 1
           [EGet 1%nat; ELaunched 1%nat None; EGet 2%nat; ERelease 1%nat 0%nat]
           {| pl := {| maxSize := 1; browsers := []; queue := [2%nat]; activeBrowsers := 1 |};
              held := []; launching := []; releasing := [(1%nat, 0%nat, Cleaning)];
              cleaning := None; nextBrowser := 1%nat; closed := [] |}
           [Launch 1%nat; Resolved 1%nat 0%nat] 0%nat 1%nat []);
    [lia|reflexivity|reflexivity|reflexivity].
Defined.

(** X3. A release whose cleanup succeeded while callers wait: the instance goes
    to the caller that has waited longest, in the same step and without
    entering the idle list; the other waiters keep their order and the
    counter its value. *)
Theorem release_serves_oldest_waiter (w : world) (b : browser) (c c' : caller)
    (rest : list (caller * browser * phase)) (pages : error + list page)
    (f : page → option error) (cl : list page) (q : list caller) :
  find_release b (releasing w) = Some (c, Cleaning, rest) →
  cleanupPages pages f = (cl, None) →
  queue (pl w) = c' :: q →
  ∃ w', step (EPages b pages f) w
        = Some (w', (PageClose <$> cl) ++ [Resolved c' b; ReleaseReturned c b])
    ∧ queue (pl w') = q ∧ browsers (pl w') = browsers (pl w)
    ∧ activeBrowsers (pl w') = activeBrowsers (pl w)
    ∧ held w' = held w ++ [(c', b)] ∧ releasing w' = rest.
Proof.
  intros Hf Hc Hq. rewrite (release_clean_step _ _ _ _ _ _ _ Hf Hc).
  unfold releaseAfterCleanup. rewrite Hq. simpl. by eexists.
Qed.

Lemma release_serves_oldest_waiter_witness :
  ∃ w', step (EPages 0%nat (inr [7%nat; 8%nat]) (λ _, None))
          {| pl := {| maxSize := 1; browsers := []; queue := [2%nat; 3%nat];
                      activeBrowsers := 1 |};
             held := []; launching := []; releasing := [(1%nat, 0%nat, Cleaning)];
             cleaning := None; nextBrowser := 1%nat; closed := [] |}
        = Some (w', [PageClose 8%nat; Resolved 2%nat 0%nat; ReleaseReturned 1%nat 0%nat])
    ∧ queue (pl w') = [3%nat].
Proof.
  destruct (release_serves_oldest_waiter
              {| pl := {| maxSize := 1; browsers := []; queue := [2%nat; 3%nat];
                          activeBrowsers := 1 |};
                 held := []; launching := []; releasing := [(1%nat, 0%nat, Cleaning)];
                 cleaning := None; nextBrowser := 1%nat; closed := [] |}
              0%nat 1%nat 2%nat [] (inr [7%nat; 8%nat]) (λ _, None) [8%nat] [3%nat]
              eq_refl eq_refl eq_refl) as (w' & Hs & Hq & _).
  exists w'. split; [exact Hs|exact Hq].
Defined.

(** X4. A release whose cleanup succeeded while no caller waits: below
    [maxSize] idle instances the instance is appended to the idle list;
    otherwise it is closed and, when the close returns, the counter is
    decremented and the release returns. *)
Theorem release_without_waiter (w : world) (b : browser) (c : caller)
    (rest : list (caller * browser * phase)) (pages : error + list page)
    (f : page → option error) (cl : list page) :
  find_release b (releasing w) = Some (c, Cleaning, rest) →
  cleanupPages pages f = (cl, None) →
  queue (pl w) = [] →
  (Z.of_nat (length (browsers (pl w))) < maxSize (pl w) →
   ∃ w', step (EPages b pages f) w = Some (w', (PageClose <$> cl) ++ [ReleaseReturned c b])
     ∧ browsers (pl w') = browsers (pl w) ++ [b]
     ∧ activeBrowsers (pl w') = activeBrowsers (pl w)
     ∧ held w' = held w ∧ releasing w' = rest)
  ∧ (maxSize (pl w) ≤ Z.of_nat (length (browsers (pl w))) →
     ∃ w', run [EPages b pages f; EClosed b None] w
           = Some (w', (PageClose <$> cl) ++ [BrowserClose b; ReleaseReturned c b])
       ∧ browsers (pl w') = browsers (pl w)
       ∧ activeBrowsers (pl w') = activeBrowsers (pl w) - 1
       ∧ held w' = held w ∧ releasing w' = rest ∧ closed w' = closed w ++ [b]).
Proof.
  intros Hf Hc Hq. split; intros Hlen.
  - rewrite (release_clean_step _ _ _ _ _ _ _ Hf Hc).
    unfold releaseAfterCleanup. rewrite Hq. simpl.
    apply Z.ltb_lt in Hlen. rewrite Hlen. by eexists.
  - rewrite run_cons, (release_clean_step _ _ _ _ _ _ _ Hf Hc).
    unfold releaseAfterCleanup. rewrite Hq. simpl.
    apply Z.ltb_ge in Hlen. rewrite Hlen. simpl.
    rewrite decide_True by done. simpl.
    eexists. split; [by rewrite <- app_assoc|]. done.
Qed.

Lemma release_without_waiter_witness :
  ∃ w', step (EPages 1%nat (inr [5%nat]) (λ _, None))
          {| pl := {| maxSize := 3; browsers := []; queue := []; activeBrowsers := 2 |};
             held := [(1%nat, 0%nat)]; launching := [];
             releasing := [(2%nat, 1%nat, Cleaning)];
             cleaning := None; nextBrowser := 2%nat; closed := [] |}
        = Some (w', [ReleaseReturned 2%nat 1%nat])
    ∧ browsers (pl w') = [1%nat].
Proof.
  destruct (release_without_waiter
              {| pl := {| maxSize := 3; browsers := []; queue := []; activeBrowsers := 2 |};
                 held := [(1%nat, 0%nat)]; launching := [];
                 releasing := [(2%nat, 1%nat, Cleaning)];
                 cleaning := None; nextBrowser := 2%nat; closed := [] |}
              1%nat 2%nat [] (inr [5%nat]) (λ _, None) [] eq_refl eq_refl eq_refl)
    as [H _].
  destruct H as (w' & Hs & Hb & _); [simpl; lia|].
  exists w'. split; [exact Hs|exact Hb].
Defined.

(** X5. A release whose cleanup failed while the close of the instance
    succeeds: the failure is logged and the release returns; the counter is
    decremented and the instance is gone. The callers in the queue are not
    served and none is woken up, although a launch would now be allowed. *)
Theorem disposal_wakes_no_waiter (w : world) (b : browser) (c : caller)
    (rest : list (caller * browser * phase)) (pages : error + list page)
    (f : page → option error) (cl : list page) (e : error) :
  find_release b (releasing w) = Some (c, Cleaning, rest) →
  cleanupPages pages f = (cl, Some e) →
  ∃ w', run [EPages b pages f; EClosed b None] w
        = Some (w', (PageClose <$> cl)
                    ++ [BrowserClose b; ConsoleError "Error releasing browser:" e;
                        ReleaseReturned c b])
    ∧ activeBrowsers (pl w') = activeBrowsers (pl w) - 1
    ∧ queue (pl w') = queue (pl w) ∧ browsers (pl w') = browsers (pl w)
    ∧ held w' = held w ∧ launching w' = launching w ∧ releasing w' = rest
    ∧ closed w' = closed w ++ [b].
Proof.
  intros Hf Hc. rewrite run_cons. cbn [step]. rewrite Hf. cbn [mbind option_bind].
  rewrite Hc. cbn [mbind option_bind]. rewrite run_cons. cbn [step with_releasing releasing].
  rewrite find_release_head. simpl.
  eexists. split; [by rewrite <- app_assoc|]. done.
Qed.

Lemma disposal_wakes_no_waiter_witness :
  ∃ w', run [EPages 0%nat (inl "Target closed") (λ _, None); EClosed 0%nat None]
          {| pl := {| maxSize := 1; browsers := []; queue := [2%nat]; activeBrowsers := 1 |};
             held := []; launching := []; releasing := [(1%nat, 0%nat, Cleaning)];
             cleaning := None; nextBrowser := 1%nat; closed := [] |}
        = Some (w', [BrowserClose 0%nat; ConsoleError "Error releasing browser:" "Target closed";
                     ReleaseReturned 1%nat 0%nat])
    ∧ activeBrowsers (pl w') = 0 ∧ queue (pl w') = [2%nat].
Proof.
  destruct (disposal_wakes_no_waiter
              {| pl := {| maxSize := 1; browsers := []; queue := [2%nat]; activeBrowsers := 1 |};
                 held := []; launching := []; releasing := [(1%nat, 0%nat, Cleaning)];
                 cleaning := None; nextBrowser := 1%nat; closed := [] |}
              0%nat 1%nat [] (inl "Target closed") (λ _, None) [] "Target closed"
              eq_refl eq_refl) as (w' & Hs & Ha & Hq & _).
  exists w'. split; [exact Hs|]. split; [exact Ha|exact Hq].
Defined.

(** X6. The loop of lines 78-80 calls [close] on pages after the first one
    only, in their order; it reaches them all exactly when no close throws;
    it stops at the first close that throws: the pages before that one and
    that one have had their [close] called, no later page has, and the
    error is the one of that close; and it calls none when
    [browser.pages()] itself failed. *)
Theorem cleanupPages_spares_first (ps : list page) (f : page → option error) :
  fst (cleanupPages (inr ps) f) `prefix_of` drop 1 ps
  ∧ (snd (cleanupPages (inr ps) f) = None ↔ ∀ pg, pg ∈ drop 1 ps → f pg = None)
  ∧ (snd (cleanupPages (inr ps) f) = None → fst (cleanupPages (inr ps) f) = drop 1 ps)
  ∧ (∀ ps1 pg ps2 e,
       drop 1 ps = ps1 ++ pg :: ps2 → (∀ pg', pg' ∈ ps1 → f pg' = None) → f pg = Some e →
       cleanupPages (inr ps) f = (ps1 ++ [pg], Some e))
  ∧ (∀ e, cleanupPages (inl e) f = ([], Some e)).
Proof.
  unfold cleanupPages. split; [apply closeFrom_prefix|].
  split; [|split; [|split; [|done]]].
  - split.
    + generalize (drop 1 ps). intros l. induction l as [|pg l IH]; simpl.
      * intros _ pg H. by apply elem_of_nil in H.
      * destruct (f pg) eqn:E; [done|].
        destruct (closeFrom f l) as [cl r]. simpl in *. intros Hr pg' Hin.
        apply elem_of_cons in Hin as [->|Hin]; [done|]. by apply IH.
    + intros H. by rewrite (closeFrom_ok _ _ H).
  - intros H. destruct (closeFrom f (drop 1 ps)) as [cl r] eqn:E. simpl in *. subst.
    by apply closeFrom_None in E.
  - intros ps1 pg ps2 e -> Hok He. by apply closeFrom_throws.
Qed.

Definition resolved_callers (o : list obs) : list caller :=
  omap (λ x, match x with Resolved c _ => Some c | _ => None end) o.

Lemma resolved_callers_app o1 o2 :
  resolved_callers (o1 ++ o2) = resolved_callers o1 ++ resolved_callers o2.
Proof. apply omap_app. Qed.

Lemma resolved_callers_elem o c b : Resolved c b ∈ o → c ∈ resolved_callers o.
Proof. intros H. apply list_elem_of_omap. exists (Resolved c b). done. Qed.

(** X7. Waiters are served first come, first served: over any schedule, the
    callers that have left the queue are those that were at its front, and
    their promises were resolved in the order in which they waited; the
    callers still in the queue have kept their order and the newcomers
    stand behind them. *)
Theorem waiters_first_come_first_served (evs : list event) :
  ∀ (w w' : world) (o : list obs),
    run evs w = Some (w', o) →
    ∃ (k : nat) (new : list caller),
      queue (pl w') = drop k (queue (pl w)) ++ new
      ∧ take k (queue (pl w)) `sublist_of` resolved_callers o.
Proof.
  induction evs as [|ev evs IH]; intros w w' o H.
  - simpl in H. simplify_eq. exists 0%nat, []. rewrite drop_0, app_nil_r.
    split; [done|]. apply sublist_nil_l.
  - rewrite run_cons in H.
    destruct (step ev w) as [[w1 o1]|] eqn:E1; simpl in H; [|done].
    destruct (run evs w1) as [[w2 o2]|] eqn:E2; simpl in H; [|done].
    simplify_eq. destruct (IH _ _ _ E2) as (k & new & Hq & Hsub).
    rewrite resolved_callers_app.
    destruct (step_queue _ _ _ _ E1)
      as [Hq1|[(c & _ & Hq1 & _)|(b & pages & f & c' & _ & Hq1 & Hr & _)]].
    + exists k, new. rewrite <- Hq1. split; [done|]. by apply sublist_inserts_l.
    + rewrite Hq1 in Hq, Hsub.
      destruct (decide (k ≤ length (queue (pl w)))%nat) as [Hk|Hk].
      * exists k, ([c] ++ new). rewrite drop_app_le in Hq by done.
        rewrite take_app_le in Hsub by done.
        split; [by rewrite Hq, <- app_assoc|]. by apply sublist_inserts_l.
      * exists (length (queue (pl w))), new.
        rewrite drop_ge in Hq by (rewrite length_app; simpl; lia).
        rewrite take_ge in Hsub by (rewrite length_app; simpl; lia).
        rewrite drop_ge by lia. rewrite take_ge by lia.
        split; [done|]. apply sublist_inserts_l.
        etrans; [|done]. by apply sublist_inserts_r.
    + exists (S k), new. rewrite Hq1. simpl. split; [done|].
      change (c' :: take k (queue (pl w1))) with ([c'] ++ take k (queue (pl w1))).
      apply sublist_app; [|done].
      apply resolved_callers_elem in Hr.
      apply list_elem_of_split in Hr as (l1 & l2 & ->).
      apply sublist_inserts_l. by apply sublist_skip, sublist_nil_l.
Qed.

Lemma waiters_first_come_first_served_witness :
  ∃ w' o k new,
    run [EGet 3%nat; ERelease 1%nat 0%nat; EPages 0%nat (inr []) (λ _, None)] waiting_world
    = Some (w', o)
    ∧ queue (pl w') = drop k [2%nat] ++ new
    ∧ take k [2%nat] `sublist_of` resolved_callers o
    ∧ queue (pl w') = [3%nat] ∧ resolved_callers o = [2%nat].
Proof.
  eexists _, _.
  destruct (waiters_first_come_first_served
              [EGet 3%nat; ERelease 1%nat 0%nat; EPages 0%nat (inr []) (λ _, None)]
              waiting_world _ _ eq_refl) as (k & new & Hq & Hsub).
  exists k, new. split; [reflexivity|]. split; [exact Hq|]. split; [exact Hsub|].
  split; reflexivity.
Defined.

(** X8. While [cleanup] waits for the close of the instance that is last in
    the idle list, a [getBrowser] pops that very instance and hands it to
    its caller; when the close returns, the caller holds a closed
    instance. *)
Theorem getBrowser_takes_instance_being_closed (w : world) (i : nat) (b : browser)
    (idle : list browser) (c : caller) :
  cleaning w = Some (i, b) → browsers (pl w) = idle ++ [b] →
  ∃ w1 w2 o, step (EGet c) w = Some (w1, [Resolved c b])
    ∧ step (ECleanupClosed None) w1 = Some (w2, o)
    ∧ (c, b) ∈ held w2 ∧ b ∈ closed w2.
Proof.
  intros Hc Hb.
  assert (step (EGet c) w
          = Some (with_held (held w ++ [(c, b)]) (with_pl (set_browsers idle (pl w)) w),
                  [Resolved c b])) as H1.
  { simpl. unfold getBrowser. by rewrite Hb, pop_app. }
  destruct (idle !! S i) as [b'|] eqn:E; eexists _, _, _; (split; [exact H1|]);
    simpl; rewrite Hc; simpl; rewrite E; (split; [done|]); simpl;
    split; apply elem_of_app; right; apply elem_of_cons; by left.
Qed.

Lemma getBrowser_takes_instance_being_closed_witness :
  ∃ w w1 w2 o,
    run [EGet 1%nat; ELaunched 1%nat None; ERelease 1%nat 0%nat;
         EPages 0%nat (inr []) (λ _, None); ECleanup] (init 1)
    = Some (w, [Launch 1%nat; Resolved 1%nat 0%nat; ReleaseReturned 1%nat 0%nat;
                BrowserClose 0%nat])
    ∧ step (EGet 2%nat) w = Some (w1, [Resolved 2%nat 0%nat])
    ∧ step (ECleanupClosed None) w1 = Some (w2, o)
    ∧ (2%nat, 0%nat) ∈ held w2 ∧ 0%nat ∈ closed w2.
Proof.
  eexists.
  destruct (getBrowser_takes_instance_being_closed
              {| pl := {| maxSize := 1; browsers := [0%nat]; queue := []; activeBrowsers := 1 |};
                 held := []; launching := []; releasing := [];
                 cleaning := Some (0%nat, 0%nat); nextBrowser := 1%nat; closed := [] |}
              0%nat 0%nat [] 2%nat eq_refl eq_refl) as (w1 & w2 & o & H1 & H2 & H3 & H4).
  exists w1, w2, o. split; [reflexivity|]. split; [exact H1|]. split; [exact H2|].
  split; [exact H3|exact H4].
Defined.

(** X9. A launch that fails right after it was started leaves the pool as it
    was before the [getBrowser]: the reservation is given back, the promise
    is rejected, and nothing else has changed. *)
Theorem failed_launch_restores_pool (w : world) (c : caller) (e : error) :
  browsers (pl w) = [] → activeBrowsers (pl w) < maxSize (pl w) →
  ∃ w', run [EGet c; ELaunched c (Some e)] w = Some (w', [Launch c; Rejected c e])
    ∧ pl w' = pl w ∧ held w' = held w ∧ launching w' ≡ₚ launching w
    ∧ releasing w' = releasing w.
Proof.
  intros Hb Hlt. rewrite run_cons. cbn [step]. unfold getBrowser. rewrite Hb. simpl.
  apply Z.ltb_lt in Hlt. rewrite Hlt. simpl.
  destruct (remove1_Some_elem c (launching w ++ [c])) as [l Hl].
  { apply elem_of_app. right. apply elem_of_cons. by left. }
  rewrite Hl. simpl. eexists. split; [done|]. simpl.
  split; [|split; [done|split; [|done]]].
  - unfold launchFailed, set_active. simpl. destruct (pl w). simpl. f_equal. lia.
  - apply remove1_perm in Hl. apply (inj (cons c)). rewrite <- Hl.
    by rewrite Permutation_app_comm.
Qed.

Lemma failed_launch_restores_pool_witness :
  ∃ w', run [EGet 1%nat; ELaunched 1%nat (Some "Failed to launch the browser process")]
          (init 3)
        = Some (w', [Launch 1%nat; Rejected 1%nat "Failed to launch the browser process"])
    ∧ pl w' = pl (init 3).
Proof.
  destruct (failed_launch_restores_pool (init 3) 1%nat "Failed to launch the browser process")
    as (w' & Hs & Hp & _); [reflexivity|simpl; lia|].
  exists w'. split; [exact Hs|exact Hp].
Defined.

Lemma run_without_capacity evs : ∀ w w' o,
  maxSize (pl w) ≤ 0 → activeBrowsers (pl w) = 0 → browsers (pl w) = [] →
  held w = [] → launching w = [] → releasing w = [] → cleaning w = None →
  run evs w = Some (w', o) →
  o = [] ∧ held w' = [] ∧ browsers (pl w') = [] ∧ maxSize (pl w') = maxSize (pl w)
  ∧ queue (pl w')
    = queue (pl w) ++ omap (λ ev, match ev with EGet c => Some c | _ => None end) evs.
Proof.
  induction evs as [|ev evs IH]; intros w w' o Hm Ha Hb Hh Hl Hr Hc H.
  - simpl in H. simplify_eq. by rewrite app_nil_r.
  - rewrite run_cons in H.
    destruct (step ev w) as [[w1 o1]|] eqn:E1; simpl in H; [|done].
    destruct (run evs w1) as [[w2 o2]|] eqn:E2; simpl in H; [|done].
    simplify_eq.
    destruct ev as [c|c r|c b|b pages closePage|b r| |r]; simpl in E1.
    + unfold getBrowser in E1. rewrite Hb in E1. simpl in E1.
      destruct (activeBrowsers (pl w) <? maxSize (pl w)) eqn:E;
        [apply Z.ltb_lt in E; lia|].
      simplify_eq. apply IH in E2 as (-> & ? & ? & ? & Hq); try done.
      repeat split; try done. rewrite Hq. simpl. unfold push. by rewrite <- app_assoc.
    + rewrite Hl in E1. done.
    + rewrite Hh in E1. done.
    + rewrite Hr in E1. done.
    + rewrite Hr in E1. done.
    + rewrite Hc, Hb in E1. simpl in E1. simplify_eq.
      apply IH in E2 as (-> & ? & ? & ? & Hq); try done.
    + rewrite Hc in E1. done.
Qed.

(** X10. A negative MAX_CONCURRENT_BROWSERS is taken as it is (line 19), and
    the pool built with it (line 112) serves nobody: whatever the schedule,
    no launch is started and no promise settled; every caller of
    [getBrowser] is in the queue, in the order of the calls. *)
Theorem negative_pool_size_serves_nobody (env : environment) (n : Z)
    (evs : list event) (w : world) (o : list obs) :
  MAX_CONCURRENT_BROWSERS env = Some n → n < 0 →
  run evs (init (browser_maxConcurrent (CONFIG env))) = Some (w, o) →
  maxSize (pl w) = n ∧ o = [] ∧ held w = []
  ∧ queue (pl w) = omap (λ ev, match ev with EGet c => Some c | _ => None end) evs.
Proof.
  intros Henv Hn H.
  assert (browser_maxConcurrent (CONFIG env) = n) as Hmax.
  { unfold CONFIG, parseIntOr. simpl. rewrite Henv.
    destruct (n =? 0) eqn:E; [apply Z.eqb_eq in E; lia|done]. }
  rewrite Hmax in H.
  destruct (run_without_capacity evs (init n) w o) as (Ho & Hh & _ & Hm & Hq);
    try done; simpl; lia.
Qed.

Lemma negative_pool_size_serves_nobody_witness :
  ∃ w, run [EGet 1%nat; EGet 2%nat]
         (init (browser_maxConcurrent
                  (CONFIG {| CACHE_TTL := None; MAX_CONCURRENT_BROWSERS := Some (-1);
                             BROWSER_TIMEOUT := None; RATE_LIMIT_MAX := None |})))
       = Some (w, [])
    ∧ queue (pl w) = [1%nat; 2%nat].
Proof.
  eexists. split; [reflexivity|].
  apply (negative_pool_size_serves_nobody
           {| CACHE_TTL := None; MAX_CONCURRENT_BROWSERS := Some (-1);
              BROWSER_TIMEOUT := None; RATE_LIMIT_MAX := None |} (-1)
           [EGet 1%nat; EGet 2%nat] _ []); [reflexivity|lia|reflexivity].
Defined.
End Pool.

Module Scraper.

(** ** The page function of [page.evaluate] (lines 191-222) *)

(** A [td] element, by what the page function reads of it:
    [element?.innerText?.trim()] and [element?.textContent?.trim()], each
    [None] when it is [undefined]. *)
Record element := Build_element {
  innerText : option string;
  textContent : option string;
}.

(** The document, by what [document.querySelector(selector)] finds: [None]
    for [null], else the [td] cells of the row ([row.querySelectorAll('td')]). *)
Definition document := string → option (list element).

(** What the page function returns when it finds a row. *)
Record row := Build_row {
  exDate : string;
  payDate : string;
  dividend : string;
  yield : string;
  scrapedAt : string;
}.

Definition selectors : list string :=
  ["div[data-testid='stock-dividends-table'] table tbody tr";
   "table tbody tr";
   ".dividend-table tbody tr"].

(** Lines 199-203: the first selector that finds a row. *)
Fixpoint firstRow (doc : document) (sels : list string) : option (list element) :=
  match sels with
  | [] => None
  | sel :: sels' =>
      match doc sel with
      | Some r => Some r
      | None => firstRow doc sels'
      end
  end.

(** [a || b] when [a] is a string or [undefined]. *)
Definition or_else (a : option string) (b : string) : string :=
  match a with
  | Some s => if String.eqb s "" then b else s
  | None => b
  end.

(** Lines 211-213; the argument is [tds[i]], [None] when out of range. *)
Definition extractText (el : option element) : string :=
  or_else (el ≫= innerText) (or_else (el ≫= textContent) "").

(** Lines 192-221; [now] is [new Date().toISOString()]. *)
Definition pageFunction (now : string) (doc : document) : option row :=
  match firstRow doc selectors with
  | None => None
  | Some tds =>
      if Z.of_nat (length tds) <? 4 then None
      else Some {| exDate := extractText (tds !! 0%nat);
                   payDate := extractText (tds !! 1%nat);
                   dividend := extractText (tds !! 2%nat);
                   yield := extractText (tds !! 3%nat);
                   scrapedAt := now |}
  end.

(** ** [scrapeDividendData] (lines 147-230) *)

(** The calls it awaits, and the one synchronous call of line 163. *)
Inductive call :=
  | GetBrowser
  | NewPage (b : browser)
  | SetUserAgent (ua : string)
  | SetViewport (width height : Z)
  | SetDefaultTimeout (ms : Z)
  | Goto (url : string) (timeout : Z)
  | Sleep (ms : Z)
  | WaitForTable
  | Evaluate
  | ReleaseBrowser (b : browser).

(** How the awaited calls settle: [None] or [inr] when they return, an error
    when they throw. The calls of [page.goto] are numbered from 0. *)
Record collaborators := Build_collaborators {
  getBrowser_r : error + browser;
  newPage_r : option error;
  setUserAgent_r : option error;
  setViewport_r : option error;
  goto_r : nat → option error;
  waitForTable_r : option error;
  evaluate_r : error + document;
  now_r : string;
  releaseBrowser_r : option error;
}.

(** The local variable [browser], the calls made so far and the number of
    calls of [page.goto] among them. *)
Record state := Build_state {
  browser_var : option browser;
  calls : list call;
  gotos : nat;
}.

Definition start : state := {| browser_var := None; calls := []; gotos := 0 |}.

Inductive outcome (A : Type) :=
  | Return (a : A)
  | Throw (e : error)
  | OutOfFuel.
Arguments Return {A} a.
Arguments Throw {A} e.
Arguments OutOfFuel {A}.

Definition M (A : Type) : Type := state → state * outcome A.

Definition ret {A} (a : A) : M A := λ s, (s, Return a).

Definition throw {A} (e : error) : M A := λ s, (s, Throw e).

Definition bind {A B} (m : M A) (k : A → M B) : M B :=
  λ s, match m s with
       | (s1, Return a) => k a s1
       | (s1, Throw e) => (s1, Throw e)
       | (s1, OutOfFuel) => (s1, OutOfFuel)
       end.

#[export] Instance M_ret : MRet M := @ret.
#[export] Instance M_bind : MBind M := λ A B k m, bind m k.

(** [try { m } catch (error) { h error }] *)
Definition try_catch {A} (m : M A) (h : error → M A) : M A :=
  λ s, match m s with
       | (s1, Throw e) => h e s1
       | r => r
       end.

(** [try { m } finally { f }]: [f] runs however [m] ended; when [f] throws,
    its error replaces the result of [m]. *)
Definition try_finally {A} (m : M A) (f : M unit) : M A :=
  λ s, match m s with
       | (s1, OutOfFuel) => (s1, OutOfFuel)
       | (s1, r) =>
           match f s1 with
           | (s2, Return _) => (s2, r)
           | (s2, Throw e) => (s2, Throw e)
           | (s2, OutOfFuel) => (s2, OutOfFuel)
           end
       end.

Definition record (c : call) : M unit :=
  λ s, ({| browser_var := browser_var s; calls := calls s ++ [c]; gotos := gotos s |},
        Return tt).

(** [await c], where the call settles with [r]. *)
Definition await (c : call) (r : option error) : M unit :=
  record c;; match r with None => ret tt | Some e => throw e end.

Definition set_browser (b : browser) : M unit :=
  λ s, ({| browser_var := Some b; calls := calls s; gotos := gotos s |}, Return tt).

(** Line 171: the next call of [page.goto]. *)
Definition goto (E : collaborators) (url : string) (timeout : Z) : M unit :=
  λ s, await (Goto url timeout) (goto_r E (gotos s))
         {| browser_var := browser_var s; calls := calls s; gotos := S (gotos s) |}.

Definition maxRetries : Z := 3.

(** Lines 169-181. [fuel] bounds the number of iterations. *)
Fixpoint retryLoop (E : collaborators) (fuel : nat) (url : string) (timeout : Z)
    (retryCount : Z) : M unit :=
  match fuel with
  | O => λ s, (s, OutOfFuel)
  | S fuel' =>
      if retryCount <? maxRetries then
        try_catch (goto E url timeout)
          (λ error,
             let retryCount := retryCount + 1 in
             if retryCount =? maxRetries then throw error
             else (await (Sleep (1000 * retryCount)) None;;
                   retryLoop E fuel' url timeout retryCount))
      else ret tt
  end.

Definition userAgent : string :=
  "Mozilla/5.0 (Windows NT 10.0; Win64; x64) AppleWebKit/537.36 (KHTML, like Gecko) Chrome/91.0.4472.124 Safari/537.36".

Definition url_of (ticker : string) : string :=
  "https://stockevents.app/en/stock/" +:+ ticker +:+ "/dividends".

Arguments url_of : simpl never.
Arguments userAgent : simpl never.

(** Lines 153-224: the [try] block. [timeout] is [CONFIG.browser.timeout]. *)
Definition tryBlock (E : collaborators) (fuel : nat) (timeout : Z) (ticker : string)
  : M (option row) :=
  record GetBrowser;;
  b ← match getBrowser_r E with inr b => ret b | inl e => throw e end;
  set_browser b;;
  await (NewPage b) (newPage_r E);;
  await (SetUserAgent userAgent) (setUserAgent_r E);;
  await (SetViewport 1920 1080) (setViewport_r E);;
  record (SetDefaultTimeout timeout);;
  retryLoop E fuel (url_of ticker) timeout 0;;
  await WaitForTable (waitForTable_r E);;
  record Evaluate;;
  match evaluate_r E with
  | inr doc => ret (pageFunction (now_r E) doc)
  | inl e => throw e
  end.

(** Lines 225-229: the [finally] block. *)
Definition finallyBlock (E : collaborators) : M unit :=
  λ s, match browser_var s with
       | Some b => await (ReleaseBrowser b) (releaseBrowser_r E) s
       | None => (s, Return tt)
       end.

Definition scrapeDividendData (E : collaborators) (fuel : nat) (timeout : Z)
    (ticker : string) : M (option row) :=
  try_finally (tryBlock E fuel timeout ticker) (finallyBlock E).

(** The instances released, in order. *)
Definition released (cs : list call) : list browser :=
  omap (λ c, match c with ReleaseBrowser b => Some b | _ => None end) cs.

(** The navigation attempts and the delays between them, in order. *)
Definition is_navigation (c : call) : bool :=
  match c with
  | Goto _ _ | Sleep _ => true
  | _ => false
  end.

Definition navigation (cs : list call) : list call := filter is_navigation cs.

(** The total of the delays, in milliseconds, and the number of navigation
    attempts. *)
Definition slept (cs : list call) : Z :=
  foldr (λ c n, match c with Sleep ms => ms + n | _ => n end) 0 cs.

Definition is_goto (c : call) : bool :=
  match c with
  | Goto _ _ => true
  | _ => false
  end.

Definition attempts (cs : list call) : nat := length (filter is_goto cs).

(** Collaborators that all succeed, except that [page.goto] throws the
    errors of [fails] on its first calls; the document has one row of four
    cells with the texts [cells]. *)
Definition demo_document (cells : list string) : document :=
  λ sel, if String.eqb sel "table tbody tr"
         then Some ((λ t, {| innerText := Some t; textContent := Some t |}) <$> cells)
         else None.

Definition demo_collaborators (fails : list error) (cells : list string) : collaborators :=
  {| getBrowser_r := inr 0%nat;
     newPage_r := None; setUserAgent_r := None; setViewport_r := None;
     goto_r := λ n, fails !! n;
     waitForTable_r := None;
     evaluate_r := inr (demo_document cells);
     now_r := "2024-01-10T00:00:00.000Z";
     releaseBrowser_r := None |}.


(** ** Termination, release and retries *)


(** Runs the monadic code of [scrapeDividendData] as far as the outcomes
    of the collaborators are known. *)
Ltac run_scrape :=
  repeat progress
    (unfold scrapeDividendData, try_finally, tryBlock, finallyBlock, try_catch, goto,
       await, record, set_browser, start, mbind, M_bind, mret, M_ret, bind, ret, throw;
     simpl).

(** Three iterations are enough: the loop never runs out of fuel. *)
Lemma retryLoop_fuel E url timeout fuel s :
  (3 ≤ fuel)%nat →
  retryLoop E fuel url timeout 0 s = retryLoop E 3 url timeout 0 s.
Proof.
  intros H. destruct fuel as [|[|[|fuel]]]; try lia.
  destruct E as [gb np ua vp g wt ev now rel]. destruct s as [bv cs n].
  run_scrape.
  destruct (g n); [|done]. run_scrape.
  destruct (g (S n)); [|done]. run_scrape.
  destruct (g (S (S n))); done.
Qed.

Lemma bind_congr {A B} (m : M A) (k1 k2 : A → M B) s :
  (∀ a s', k1 a s' = k2 a s') → bind m k1 s = bind m k2 s.
Proof. intros H. unfold bind. destruct (m s) as [s1 [a| |]]; auto. Qed.

Lemma scrape_fuel E fuel timeout ticker :
  (3 ≤ fuel)%nat →
  scrapeDividendData E fuel timeout ticker start = scrapeDividendData E 3 timeout ticker start.
Proof.
  intros H. unfold scrapeDividendData, try_finally.
  assert (tryBlock E fuel timeout ticker start = tryBlock E 3 timeout ticker start) as ->;
    [|done].
  unfold tryBlock, mbind, M_bind.
  repeat (apply bind_congr; intros ? ?).
  unfold bind. by rewrite retryLoop_fuel.
Qed.

(** Membership in a list given by its elements. *)
Ltac in_list := rewrite ?elem_of_cons; auto 20.
Ltac not_in_list H :=
  exfalso; rewrite ?elem_of_cons, ?elem_of_nil in H; intuition discriminate.

(** Closes the goals on the calls made in one run. *)
Ltac finish :=
  eexists _, _; split; [reflexivity|]; cbn [calls];
  repeat match goal with
  | |- _ ∧ _ => split
  | |- _ = _ => reflexivity
  | |- _ ∈ _ => in_list
  | |- _ ∉ _ => let H := fresh in intros H; not_in_list H
  | |- ∀ _, _ => intros; simplify_eq; try reflexivity
  end.

(** C4. Whatever the collaborators do, [scrapeDividendData] terminates, and
    when [getBrowser] gave it an instance [b] it calls [releaseBrowser(b)]
    exactly once, as its last call: after extracted data or [null], and
    after a throw of [newPage], of the page set-up, of the navigation, of the
    wait for the table or of [evaluate]. When [getBrowser] failed it calls
    no [releaseBrowser] and throws the error of [getBrowser]. *)
Theorem browser_released_exactly_once (E : collaborators) (fuel : nat) (timeout : Z)
    (ticker : string) :
  (3 ≤ fuel)%nat →
  ∃ s r, scrapeDividendData E fuel timeout ticker start = (s, r)
    ∧ r ≠ OutOfFuel
    ∧ match getBrowser_r E with
      | inr b => released (calls s) = [b] ∧ last (calls s) = Some (ReleaseBrowser b)
      | inl e => released (calls s) = [] ∧ r = Throw e
      end.
Proof.
  intros H. rewrite (scrape_fuel _ _ _ _ H).
  destruct E as [gb np ua vp g wt ev now rel].
  run_scrape.
  destruct gb as [e|b]; run_scrape; [eexists _, _; by repeat split|].
  destruct np; run_scrape; [destruct rel; eexists _, _; by repeat split|].
  destruct ua; run_scrape; [destruct rel; eexists _, _; by repeat split|].
  destruct vp; run_scrape; [destruct rel; eexists _, _; by repeat split|].
  destruct (g 0%nat); run_scrape.
  2:{ destruct wt; run_scrape; [destruct rel; eexists _, _; by repeat split|].
      destruct ev; run_scrape; destruct rel; eexists _, _; by repeat split. }
  destruct (g 1%nat); run_scrape.
  2:{ destruct wt; run_scrape; [destruct rel; eexists _, _; by repeat split|].
      destruct ev; run_scrape; destruct rel; eexists _, _; by repeat split. }
  destruct (g 2%nat); run_scrape.
  2:{ destruct wt; run_scrape; [destruct rel; eexists _, _; by repeat split|].
      destruct ev; run_scrape; destruct rel; eexists _, _; by repeat split. }
  destruct rel; eexists _, _; by repeat split.
Qed.

Lemma browser_released_exactly_once_witness :
  ∃ s r, scrapeDividendData
           (demo_collaborators ["net::ERR_FAILED"] ["2024-01-15"; "2024-02-01"; "$0.48"; "3.1%"])
           3 30000 "KO" start = (s, r)
    ∧ released (calls s) = [0%nat].
Proof.
  destruct (browser_released_exactly_once
              (demo_collaborators ["net::ERR_FAILED"]
                 ["2024-01-15"; "2024-02-01"; "$0.48"; "3.1%"]) 3 30000 "KO")
    as (s & r & Hs & _ & Hrel & _); [lia|].
  exists s, r. split; [exact Hs|exact Hrel].
Defined.

(** C5, as the code has it. Once the page is set up, [page.goto] is called
    at most three times. After the first failure the code sleeps 1000 ms
    and after the second 2000 ms before it tries again; after a success,
    also that of the third attempt, it goes on to wait for the table, and
    returns what the page function returns when nothing else fails. When
    the third attempt fails too, it neither sleeps nor goes on: line 178
    rethrows the error of that third attempt as it is (the code has no
    navigation error of its own and wraps nothing), and this very error is
    what [scrapeDividendData] rejects with when the [releaseBrowser] of the
    [finally] block returns. *)
Theorem navigation_three_attempts (E : collaborators) (fuel : nat) (timeout : Z)
    (ticker : string) (b : browser) :
  (3 ≤ fuel)%nat →
  getBrowser_r E = inr b → newPage_r E = None →
  setUserAgent_r E = None → setViewport_r E = None →
  ∃ s r, scrapeDividendData E fuel timeout ticker start = (s, r)
    ∧ let go := Goto (url_of ticker) timeout in
      match goto_r E 0%nat, goto_r E 1%nat, goto_r E 2%nat with
      | None, _, _ =>
          navigation (calls s) = [go] ∧ WaitForTable ∈ calls s
      | Some _, None, _ =>
          navigation (calls s) = [go; Sleep 1000; go] ∧ WaitForTable ∈ calls s
      | Some _, Some _, None =>
          navigation (calls s) = [go; Sleep 1000; go; Sleep 2000; go]
          ∧ WaitForTable ∈ calls s
          ∧ (∀ doc, waitForTable_r E = None → evaluate_r E = inr doc →
             releaseBrowser_r E = None → r = Return (pageFunction (now_r E) doc))
      | Some _, Some _, Some e3 =>
          navigation (calls s) = [go; Sleep 1000; go; Sleep 2000; go]
          ∧ (WaitForTable ∉ calls s) ∧ (Evaluate ∉ calls s)
          ∧ (releaseBrowser_r E = None → r = Throw e3)
      end.
Proof.
  intros H Hgb Hnp Hua Hvp. rewrite (scrape_fuel _ _ _ _ H).
  destruct E as [gb np ua vp g wt ev now rel]. simpl in *. subst.
  run_scrape. destruct (g 0%nat) eqn:G0; run_scrape.
  2:{ destruct wt; run_scrape; [destruct rel; finish|].
      destruct ev; run_scrape; destruct rel; finish. }
  destruct (g 1%nat) eqn:G1; run_scrape.
  2:{ destruct wt; run_scrape; [destruct rel; finish|].
      destruct ev; run_scrape; destruct rel; finish. }
  destruct (g 2%nat) eqn:G2; run_scrape.
  2:{ destruct wt; run_scrape; [destruct rel; finish|].
      destruct ev; run_scrape; destruct rel; finish. }
  destruct rel; finish.
Qed.

Lemma navigation_three_attempts_witness :
  ∃ s, scrapeDividendData
         (demo_collaborators ["net::ERR_FAILED"; "net::ERR_TIMED_OUT"]
            ["2024-01-15"; "2024-02-01"; "$0.48"; "3.1%"])
         3 30000 "KO" start
       = (s, Return (Some {| exDate := "2024-01-15"; payDate := "2024-02-01";
                             dividend := "$0.48"; yield := "3.1%";
                             scrapedAt := "2024-01-10T00:00:00.000Z" |}))
    ∧ navigation (calls s)
      = [Goto (url_of "KO") 30000; Sleep 1000; Goto (url_of "KO") 30000; Sleep 2000;
         Goto (url_of "KO") 30000].
Proof.
  destruct (navigation_three_attempts
              (demo_collaborators ["net::ERR_FAILED"; "net::ERR_TIMED_OUT"]
                 ["2024-01-15"; "2024-02-01"; "$0.48"; "3.1%"]) 3 30000 "KO" 0%nat)
    as (s & r & Hs & Hnav & _ & Hr); [lia|reflexivity..|].
  exists s. split; [|exact Hnav].
  rewrite Hs. f_equal. exact (Hr _ eq_refl eq_refl eq_refl).
Defined.

(** ** More on the scraper *)

(** X11. The result of [scrapeDividendData] once it holds an instance: when
    [releaseBrowser] throws in the [finally] block, its error replaces
    whatever the [try] block returned or threw; otherwise the error of the
    first call that failed is thrown as it is, the navigation failing only
    when its three attempts do, and with no failure the result is that of
    the page function. *)
Theorem scrape_result (E : collaborators) (fuel : nat) (timeout : Z) (ticker : string)
    (b : browser) :
  (3 ≤ fuel)%nat → getBrowser_r E = inr b →
  (scrapeDividendData E fuel timeout ticker start).2
  = match releaseBrowser_r E with
    | Some e => Throw e
    | None =>
        match newPage_r E, setUserAgent_r E, setViewport_r E with
        | Some e, _, _ | None, Some e, _ | None, None, Some e => Throw e
        | None, None, None =>
            match goto_r E 0%nat, goto_r E 1%nat, goto_r E 2%nat with
            | Some _, Some _, Some e => Throw e
            | _, _, _ =>
                match waitForTable_r E, evaluate_r E with
                | Some e, _ | None, inl e => Throw e
                | None, inr doc => Return (pageFunction (now_r E) doc)
                end
            end
        end
    end.
Proof.
  intros H Hgb. rewrite (scrape_fuel _ _ _ _ H).
  destruct E as [gb np ua vp g wt ev now rel]. simpl in *. subst.
  destruct rel, np, ua, vp; run_scrape; try reflexivity;
    destruct (g 0%nat) eqn:G0; run_scrape;
    try (destruct wt, ev; run_scrape; reflexivity);
    destruct (g 1%nat) eqn:G1; run_scrape;
    try (destruct wt, ev; run_scrape; reflexivity);
    destruct (g 2%nat) eqn:G2; run_scrape;
    try (destruct wt, ev; run_scrape; reflexivity); reflexivity.
Qed.

Lemma scrape_result_witness :
  (scrapeDividendData
     (demo_collaborators ["net::ERR_FAILED"] ["2024-01-15"; "2024-02-01"; "$0.48"; "3.1%"])
     3 30000 "KO" start).2
  = Return (Some {| exDate := "2024-01-15"; payDate := "2024-02-01";
                    dividend := "$0.48"; yield := "3.1%";
                    scrapedAt := "2024-01-10T00:00:00.000Z" |}).
Proof.
  rewrite (scrape_result
             (demo_collaborators ["net::ERR_FAILED"]
                ["2024-01-15"; "2024-02-01"; "$0.48"; "3.1%"]) 3 30000 "KO" 0%nat);
    [reflexivity|lia|reflexivity].
Defined.

Lemma attempts_cons c cs :
  attempts (c :: cs) = ((if is_goto c then 1 else 0) + attempts cs)%nat.
Proof.
  unfold attempts. destruct (is_goto c) eqn:E.
  - rewrite filter_cons_True; [done|]. apply Is_true_true. exact E.
  - rewrite filter_cons_False; [done|]. apply Is_true_false. exact E.
Qed.

(** Counts the delays and the attempts of a list of calls given by its
    elements. *)
Ltac count_calls :=
  split; [simpl; lia|rewrite ?attempts_cons; unfold attempts; simpl; lia].

(** X12. Whatever the collaborators do, one run sleeps at most 3000 ms in all
    and calls [page.goto] at most three times. *)
Theorem backoff_is_bounded (E : collaborators) (fuel : nat) (timeout : Z)
    (ticker : string) :
  (3 ≤ fuel)%nat →
  slept (calls (scrapeDividendData E fuel timeout ticker start).1) ≤ 3000
  ∧ (attempts (calls (scrapeDividendData E fuel timeout ticker start).1) ≤ 3)%nat.
Proof.
  intros H. rewrite (scrape_fuel _ _ _ _ H).
  destruct E as [gb np ua vp g wt ev now rel].
  destruct gb as [e|b]; run_scrape; [count_calls|].
  destruct np; run_scrape; [destruct rel; count_calls|].
  destruct ua; run_scrape; [destruct rel; count_calls|].
  destruct vp; run_scrape; [destruct rel; count_calls|].
  destruct (g 0%nat); run_scrape.
  2:{ destruct wt; run_scrape; [destruct rel; count_calls|].
      destruct ev; run_scrape; destruct rel; count_calls. }
  destruct (g 1%nat); run_scrape.
  2:{ destruct wt; run_scrape; [destruct rel; count_calls|].
      destruct ev; run_scrape; destruct rel; count_calls. }
  destruct (g 2%nat); run_scrape.
  2:{ destruct wt; run_scrape; [destruct rel; count_calls|].
      destruct ev; run_scrape; destruct rel; count_calls. }
  destruct rel; count_calls.
Qed.

Lemma backoff_is_bounded_witness :
  slept (calls (scrapeDividendData
                  (demo_collaborators ["a"; "b"; "c"] []) 3 30000 "KO" start).1) ≤ 3000.
Proof.
  apply (backoff_is_bounded (demo_collaborators ["a"; "b"; "c"] []) 3 30000 "KO"). lia.
Defined.

(** X13. [extractText] prefers a non-empty [innerText], falls back to a
    non-empty [textContent], and gives [''] otherwise, also for a cell that
    does not exist. *)
Theorem extractText_cases (el : element) :
  (∀ s, innerText el = Some s → s ≠ "" → extractText (Some el) = s)
  ∧ (innerText el = None ∨ innerText el = Some "" →
     ∀ s, textContent el = Some s → extractText (Some el) = s)
  ∧ (innerText el = None ∨ innerText el = Some "" →
     textContent el = None → extractText (Some el) = "")
  ∧ extractText None = "".
Proof.
  unfold extractText, or_else. simpl. repeat split.
  - intros s -> Hs. apply String.eqb_neq in Hs. by rewrite Hs.
  - intros [->| ->] s ->; simpl; by destruct (String.eqb s "") eqn:E;
      [apply String.eqb_eq in E|].
  - by intros [->| ->] ->.
Qed.


End Scraper.

Module Cache.

(** Modelled from the spec: the store is the package [node-cache], which is
    not among the sources. Section 4.3 of the specification gives its
    contract: [get] is absent when there is no entry or the entry's
    [expiresAt] has passed; [put] inserts or overwrites the entry with
    [expiresAt = now + ttl]; [invalidate] removes one entry and
    [invalidateAll] all of them. Times are in milliseconds, [ttl] in
    seconds, as [stdTTL] (line 31) is. *)

Record entry := Build_entry {
  value : object;
  expiresAt : Z;
}.

Abbreviation t := (gmap string entry) (only parsing).

Definition empty : t := ∅.

(** Modelled from the spec: [cache.get(key)] at time [now]. *)
Definition get (key : string) (now : Z) (c : t) : option object :=
  match c !! key with
  | Some e => if now <? expiresAt e then Some (value e) else None
  | None => None
  end.

(** Modelled from the spec: [cache.set(key, v)] at time [now], with the
    store's [stdTTL]. *)
Definition set (key : string) (v : object) (ttl now : Z) (c : t) : t :=
  <[key := {| value := v; expiresAt := now + ttl * 1000 |}]> c.

(** Modelled from the spec: [cache.del(key)], the number of entries
    removed and the store. *)
Definition del (key : string) (c : t) : Z * t :=
  (match c !! key with Some _ => 1 | None => 0 end, delete key c).

(** Modelled from the spec: [cache.flushAll()]. *)
Definition flushAll (c : t) : t := ∅.

(** Modelled from the spec: [cache.keys()]. *)
Definition keys (c : t) : list string := elements (dom c).

End Cache.

Module Http.

Record response := Build_response {
  status : Z;
  body : json;
}.

(** [res.json(o)] and [res.status(n).json(o)]. *)
Definition res_json (o : object) : response := {| status := 200; body := JObj o |}.
Definition res_status_json (n : Z) (o : object) : response :=
  {| status := n; body := JObj o |}.

(** What a handler does besides answering. *)
Inductive effect :=
  | Scrape (ticker : string)          (* scrapeDividendData(ticker) is called *)
  | ConsoleError (msg : string).

(** ** [validateTicker] (lines 131-144) *)

(** The character class [[A-Za-z0-9.-]]. *)
Definition ticker_char (a : Ascii.ascii) : bool :=
  let n := Ascii.nat_of_ascii a in
  ((65 <=? n) && (n <=? 90) || (97 <=? n) && (n <=? 122) || (48 <=? n) && (n <=? 57)
   || (n =? 46) || (n =? 45))%nat.

(** [/^[A-Za-z0-9.-]{1,10}$/.test(ticker)] *)
Definition ticker_format (ticker : string) : bool :=
  ((1 <=? String.length ticker) && (String.length ticker <=? 10))%nat
  && forallb ticker_char (String.list_ascii_of_string ticker).

(** [None]: [next()] is called; [ticker] is [req.params.ticker]. *)
Definition validateTicker (ticker : option string) : option response :=
  match ticker with
  | None => Some (res_status_json 400 (literal [("error", JStr "Ticker symbol is required")]))
  | Some t =>
      if String.eqb t "" then
        Some (res_status_json 400 (literal [("error", JStr "Ticker symbol is required")]))
      else if negb (ticker_format t) then
        Some (res_status_json 400 (literal [("error", JStr "Invalid ticker symbol format")]))
      else None
  end.

(** ** Values *)

(** Whether [if (v)] takes the branch; [None] is [undefined]. *)
Definition truthy (v : option json) : bool :=
  match v with
  | None | Some JNull => false
  | Some (JBool b) => b
  | Some (JNum n) => negb (n =? 0)
  | Some (JStr s) => negb (String.eqb s "")
  | Some (JObj _) => true
  end.

(** The object that [page.evaluate] hands back for a row. *)
Definition row_object (r : Scraper.row) : object :=
  literal [("exDate", JStr (Scraper.exDate r)); ("payDate", JStr (Scraper.payDate r));
           ("dividend", JStr (Scraper.dividend r)); ("yield", JStr (Scraper.yield r));
           ("scrapedAt", JStr (Scraper.scrapedAt r))].

Definition cacheKey (ticker : string) : string := "dividend:" +:+ ticker.

(** ** The final handlers (lines 374-382) *)

(** The error-handling middleware. *)
Definition errorHandler (stack : string) : response * list effect :=
  (res_status_json 500 (literal [("error", JStr "Something went wrong!")]),
   [ConsoleError stack]).

(** The handler of last resort. *)
Definition notFound : response :=
  res_status_json 404 (literal [("error", JStr "Endpoint not found")]).

(** ** Values used in the examples *)

(** A date parser that knows one date. *)
Definition demo_parseDate (s : string) : option Z :=
  if String.eqb s "2024-01-10T00:00:00.000Z" then Some 1704844800000 else None.

(** The row of a table whose first row has the cells 2024-01-15,
    2024-02-01, $0.48 and 3.1%. *)
Definition full_row : Scraper.row :=
  {| Scraper.exDate := "2024-01-15"; Scraper.payDate := "2024-02-01";
     Scraper.dividend := "$0.48"; Scraper.yield := "3.1%";
     Scraper.scrapedAt := "2024-01-10T00:00:00.000Z" |}.

(** The row of a table whose first row has the cell 2024-01-15 and three
    empty cells. *)
Definition sparse_row : Scraper.row :=
  {| Scraper.exDate := "2024-01-15"; Scraper.payDate := "";
     Scraper.dividend := ""; Scraper.yield := "";
     Scraper.scrapedAt := "2024-01-10T00:00:00.000Z" |}.

(** Three calls of the scraper: a row, a throw, nothing found. *)
Definition demo_scrapes (i : nat) : error + option Scraper.row :=
  match i with
  | 0%nat => inr (Some full_row)
  | 1%nat => inl "net::ERR_ABORTED"
  | _ => inr None
  end.

Section Handlers.

(** [String.prototype.toUpperCase], and the time value of [new Date(s)]
    for a string [s], [None] when the date is invalid. *)
Variable toUpperCase : string → string.
Variable parseDate : string → option Z.

(** The store's [stdTTL], in seconds. *)
Variable ttl : Z.

(** The time value of [new Date(v)], [None] for an invalid date. *)
Definition dateOf (v : option json) : option Z :=
  match v with
  | Some (JStr s) => parseDate s
  | Some (JNum n) => Some n
  | Some (JBool b) => Some (if b then 1 else 0)
  | Some JNull => Some 0
  | Some (JObj _) | None => None
  end.

(** Line 256; [NaN] is sent as [null]. *)
Definition cacheAge (now : Z) (cachedData : object) : json :=
  match dateOf (cachedData !! "scrapedAt") with
  | Some t => JNum ((now - t) / 1000)
  | None => JNull
  end.

(** ** [GET /dividend/:ticker] (lines 245-306) *)

(** Lines 282-305: the catch block. *)
Definition dividendCatch (ticker : string) (message : string) : response * list effect :=
  (if includes "timeout" message then
     res_status_json 408
       (literal [("error", JStr "Request timeout"); ("ticker", JStr ticker);
                 ("message", JStr "The request took too long to complete")])
   else if includes "Navigation failed" message then
     res_status_json 503
       (literal [("error", JStr "Service unavailable"); ("ticker", JStr ticker);
                 ("message", JStr "Unable to reach the data source")])
   else
     res_status_json 500
       (literal [("error", JStr "Scraping failed"); ("ticker", JStr ticker);
                 ("message", JStr "An internal error occurred while fetching data")]),
   [ConsoleError ("Error scraping " +:+ ticker +:+ ": " +:+ message)]).

(** Lines 251-258: the cache is looked up; [Some] is the answer on a hit. *)
Definition dividendLookup (ticker : string) (now : Z) (c : Cache.t) : option response :=
  match Cache.get (cacheKey ticker) now c with
  | Some cachedData =>
      Some (res_json (<["cacheAge" := cacheAge now cachedData]>
                        (<["cached" := JBool true]> cachedData)))
  | None => None
  end.

(** Lines 276-280. *)
Definition dividendNotFound (ticker : string) : response :=
  res_status_json 404
    (literal [("error", JStr "No dividend data found"); ("ticker", JStr ticker);
              ("message", JStr "The ticker may not exist or may not pay dividends")]).

(** Lines 263-305, run when [scrapeDividendData] has settled with [scraped],
    at time [now] and with the store as it is then. [data] is [null] or an
    object, and [data.exDate] a string. *)
Definition dividendSettled (ticker : string) (now : Z)
    (scraped : error + option Scraper.row) (c : Cache.t)
  : Cache.t * response * list effect :=
  match scraped with
  | inl message => let '(r, l) := dividendCatch ticker message in (c, r, l)
  | inr None => (c, dividendNotFound ticker, [])
  | inr (Some data) =>
      let exDate := Scraper.exDate data in
      if truthy (Some (JStr exDate)) then
        if negb (truthy (Some (JStr exDate))) || String.eqb exDate "N/A"
           || String.eqb exDate ""
        then
          let '(r, l) := dividendCatch ticker "No valid dividend data found" in
          (c, r, l)
        else
          let response :=
            <["cached" := JBool false]>
              (row_object data ∪ literal [("ticker", JStr ticker)]) in
          (Cache.set (cacheKey ticker) response ttl now c, res_json response, [])
      else (c, dividendNotFound ticker, [])
  end.

(** The route: [validateTicker], then the handler. The cache is looked up at
    time [now0]; on a miss the scraper runs and settles at time [now1] with
    [scrape T], [T] the ticker it is called with. No other request changes
    the store meanwhile. *)
Definition getDividend (param : option string) (now0 now1 : Z)
    (scrape : string → error + option Scraper.row) (c : Cache.t)
  : Cache.t * response * list effect :=
  match validateTicker param with
  | Some r => (c, r, [])
  | None =>
      (* the parameter is a string here *)
      let ticker := toUpperCase (default "" param) in
      match dividendLookup ticker now0 c with
      | Some r => (c, r, [])
      | None =>
          let '(c', r, l) := dividendSettled ticker now1 (scrape ticker) c in
          (c', r, Scrape ticker :: l)
      end
  end.

(** ** [POST /dividends/batch] (lines 309-344) *)

(** Lines 323-328 for one ticker, up to the [await]: on a hit the entry is
    written; on a miss [scrapeDividendData(upperTicker)] is called, which is
    noted, and the function is suspended. *)
Definition batchStart (now : Z) (c : Cache.t)
    (st : gmap string json * list string) (ticker : string)
  : gmap string json * list string :=
  let upperTicker := toUpperCase ticker in
  match Cache.get (cacheKey upperTicker) now c with
  | Some data => (<[upperTicker := JObj data]> st.1, st.2)
  | None => (st.1, st.2 ++ [upperTicker])
  end.

(** Lines 329-339, when the call for [upperTicker] has settled. *)
Definition batchSettled (now : Z) (upperTicker : string)
    (scraped : error + option Scraper.row) (st : Cache.t * gmap string json)
  : Cache.t * gmap string json :=
  match scraped with
  | inr (Some data) =>
      let response := row_object data ∪ literal [("ticker", JStr upperTicker)] in
      (Cache.set (cacheKey upperTicker) response ttl now st.1,
       <[upperTicker := JObj response]> st.2)
  | inr None => (st.1, <[upperTicker := JObj (literal [("error", JStr "No data found")])]> st.2)
  | inl message => (st.1, <[upperTicker := JObj (literal [("error", JStr message)])]> st.2)
  end.

(** The function of the ticker at index [i] resumes: its call has settled
    with [scrape i] at time [clock i]. *)
Definition batchSettle (tickers : list string)
    (scrape : nat → error + option Scraper.row) (clock : nat → Z)
    (st : Cache.t * gmap string json) (i : nat) : Cache.t * gmap string json :=
  match tickers !! i with
  | Some ticker => batchSettled (clock i) (toUpperCase ticker) (scrape i) st
  | None => st
  end.

(** The handler; [tickers] is [req.body.tickers], [None] when it is not an
    array. The lookups all happen at time [now], before any call settles;
    the calls settle in the order [order], a list of indices into
    [tickers]. *)
Definition postBatch (tickers : option (list string)) (now : Z)
    (scrape : nat → error + option Scraper.row) (clock : nat → Z) (order : list nat)
    (c : Cache.t) : Cache.t * response * list effect :=
  match tickers with
  | None => (c, res_status_json 400 (literal [("error", JStr "Tickers array is required")]), [])
  | Some ts =>
      if (length ts =? 0)%nat then
        (c, res_status_json 400 (literal [("error", JStr "Tickers array is required")]), [])
      else if (10 <? length ts)%nat then
        (c, res_status_json 400
              (literal [("error", JStr "Maximum 10 tickers allowed per batch request")]), [])
      else
        let '(results0, called) := foldl (batchStart now c) (∅, []) ts in
        let '(c', results) := foldl (batchSettle ts scrape clock) (c, results0) order in
        (c', res_json (literal [("results", JObj results)]), Scrape <$> called)
  end.

(** Whether the lookup for the ticker at index [i] misses. *)
Definition batchMiss (tickers : list string) (now : Z) (c : Cache.t) (i : nat) : bool :=
  match tickers !! i with
  | Some ticker =>
      match Cache.get (cacheKey (toUpperCase ticker)) now c with
      | Some _ => false
      | None => true
      end
  | None => false
  end.

(** The indices of the calls that are pending when the lookups are done:
    a run of the handler settles each of them once. *)
Definition batchPending (tickers : list string) (now : Z) (c : Cache.t) : list nat :=
  filter (λ i, batchMiss tickers now c i) (seq 0 (length tickers)).

(** What a settled call writes under its key. *)
Definition batchEntry (upperTicker : string) (scraped : error + option Scraper.row) : json :=
  match scraped with
  | inr (Some data) => JObj (row_object data ∪ literal [("ticker", JStr upperTicker)])
  | inr None => JObj (literal [("error", JStr "No data found")])
  | inl message => JObj (literal [("error", JStr message)])
  end.

(** The entries of the answer of a batch request. *)
Definition batchResults (r : response) : gmap string json :=
  match body r with
  | JObj o => match o !! "results" with Some (JObj m) => m | _ => ∅ end
  | _ => ∅
  end.

(** ** [DELETE /cache/:ticker?] (lines 347-358) *)

Definition deleteCache (param : option string) (c : Cache.t) : Cache.t * response :=
  let all := (Cache.flushAll c, res_json (literal [("message", JStr "All cache cleared")])) in
  match param with
  | None => all
  | Some ticker =>
      if truthy (Some (JStr ticker)) then
        let cacheKey := cacheKey (toUpperCase ticker) in
        let '(deleted, c') := Cache.del cacheKey c in
        (c', res_json (literal [("message", JStr ("Cache cleared for " +:+ ticker));
                                ("deleted", JBool (0 <? deleted))]))
      else all
  end.

(** ** The single-ticker route *)

Lemma validateTicker_format t :
  validateTicker (Some t) = None ↔ ticker_format t = true.
Proof.
  unfold validateTicker. destruct (String.eqb t "") eqn:E.
  - apply String.eqb_eq in E as ->. by split.
  - destruct (ticker_format t); by split.
Qed.

Lemma validateTicker_400 p r : validateTicker p = Some r → status r = 400.
Proof.
  unfold validateTicker. destruct p as [t|]; [|by intros [= <-]].
  destruct (String.eqb t ""); [by intros [= <-]|].
  destruct (ticker_format t); [done|by intros [= <-]].
Qed.

Lemma row_object_lookup r :
  row_object r !! "exDate" = Some (JStr (Scraper.exDate r))
  ∧ row_object r !! "payDate" = Some (JStr (Scraper.payDate r))
  ∧ row_object r !! "dividend" = Some (JStr (Scraper.dividend r))
  ∧ row_object r !! "yield" = Some (JStr (Scraper.yield r))
  ∧ row_object r !! "scrapedAt" = Some (JStr (Scraper.scrapedAt r)).
Proof. repeat split; reflexivity. Qed.

(** The answer to a request that misses the cache and whose scrape gives a
    row with an ex-date other than [''] and ['N/A']. *)
Definition freshResponse (ticker : string) (r : Scraper.row) : object :=
  <["cached" := JBool false]> (row_object r ∪ literal [("ticker", JStr ticker)]).

Lemma eqb_false_ne (s1 s2 : string) : s1 ≠ s2 → String.eqb s1 s2 = false.
Proof. intros H. by apply String.eqb_neq. Qed.

Lemma getDividend_fresh t r now0 now1 scrape c :
  validateTicker (Some t) = None →
  Cache.get (cacheKey (toUpperCase t)) now0 c = None →
  scrape (toUpperCase t) = inr (Some r) →
  Scraper.exDate r ≠ "" → Scraper.exDate r ≠ "N/A" →
  getDividend (Some t) now0 now1 scrape c
  = (Cache.set (cacheKey (toUpperCase t)) (freshResponse (toUpperCase t) r) ttl now1 c,
     res_json (freshResponse (toUpperCase t) r), [Scrape (toUpperCase t)]).
Proof.
  intros Hv Hmiss Hs He Hna. unfold getDividend. rewrite Hv. simpl.
  unfold dividendLookup. rewrite Hmiss, Hs. unfold dividendSettled, truthy.
  rewrite (eqb_false_ne _ _ He), (eqb_false_ne _ _ Hna). done.
Qed.

Lemma getDividend_hit t v now0 now1 scrape c :
  validateTicker (Some t) = None →
  Cache.get (cacheKey (toUpperCase t)) now0 c = Some v →
  getDividend (Some t) now0 now1 scrape c
  = (c, res_json (<["cacheAge" := cacheAge now0 v]> (<["cached" := JBool true]> v)), []).
Proof.
  intros Hv Hhit. unfold getDividend. rewrite Hv. simpl.
  unfold dividendLookup. by rewrite Hhit.
Qed.


(** C7, where the code goes wrong. A request for a well-formed ticker
    misses the cache and the scrape gives a row whose ex-date is neither
    [''] nor ['N/A']: the answer has status 200 and carries the pay date,
    the dividend and the yield of the row as they are, empty or not; only
    the ex-date was checked. *)
Theorem ok_without_checking_fields t r now0 now1 scrape c :
  ticker_format t = true →
  Cache.get (cacheKey (toUpperCase t)) now0 c = None →
  scrape (toUpperCase t) = inr (Some r) →
  Scraper.exDate r ≠ "" → Scraper.exDate r ≠ "N/A" →
  ∃ c' o, getDividend (Some t) now0 now1 scrape c
          = (c', {| status := 200; body := JObj o |}, [Scrape (toUpperCase t)])
    ∧ o !! "exDate" = Some (JStr (Scraper.exDate r))
    ∧ o !! "payDate" = Some (JStr (Scraper.payDate r))
    ∧ o !! "dividend" = Some (JStr (Scraper.dividend r))
    ∧ o !! "yield" = Some (JStr (Scraper.yield r)).
Proof.
  intros Hv%validateTicker_format Hmiss Hs He Hna.
  rewrite (getDividend_fresh _ _ _ _ _ _ Hv Hmiss Hs He Hna).
  eexists _, _. split; [done|]. repeat split; reflexivity.
Qed.


(** ** The batch route *)

(** Closes a goal whose hypotheses on membership in [x :: l] and in [l]
    contradict each other. *)
Ltac cons_contra :=
  exfalso;
  match goal with
  | H : _ ∉ _ :: _ |- _ => apply H; apply elem_of_cons; by auto
  | H : _ ∈ _ :: _ |- _ => apply elem_of_cons in H as [?|?]; by (congruence || done)
  end.

Lemma batchStart_eq now c res called t :
  batchStart now c (res, called) t
  = match Cache.get (cacheKey (toUpperCase t)) now c with
    | Some data => (<[toUpperCase t := JObj data]> res, called)
    | None => (res, called ++ [toUpperCase t])
    end.
Proof. reflexivity. Qed.

(** The first phase: the entries of the tickers found in the cache, and the
    calls of the scraper for the others, in the order of the array. *)
Lemma batchStart_results now c ts : ∀ res called k,
  (foldl (batchStart now c) (res, called) ts).1 !! k
  = match Cache.get (cacheKey k) now c with
    | Some data => if decide (k ∈ toUpperCase <$> ts) then Some (JObj data) else res !! k
    | None => res !! k
    end.
Proof.
  induction ts as [|t ts IH]; intros res called k.
  - simpl. by destruct (Cache.get _ _ _).
  - rewrite fmap_cons. cbn [foldl]. rewrite batchStart_eq.
    destruct (Cache.get (cacheKey (toUpperCase t)) now c) as [data|] eqn:Ht; rewrite IH.
    + destruct (decide (k = toUpperCase t)) as [->|Hne].
      * rewrite Ht, lookup_insert_eq. repeat case_decide; try done; cons_contra.
      * rewrite lookup_insert_ne by done.
        destruct (Cache.get (cacheKey k) now c); [|done].
        repeat case_decide; try done; cons_contra.
    + destruct (Cache.get (cacheKey k) now c) as [data'|] eqn:Hk; [|done].
      repeat case_decide; try done; cons_contra.
Qed.

Lemma batchStart_called now c ts : ∀ res called,
  (foldl (batchStart now c) (res, called) ts).2
  = called ++ filter (λ u, Cache.get (cacheKey u) now c = None) (toUpperCase <$> ts).
Proof.
  induction ts as [|t ts IH]; intros res called.
  - simpl. by rewrite app_nil_r.
  - rewrite fmap_cons. cbn [foldl]. rewrite batchStart_eq.
    destruct (Cache.get (cacheKey (toUpperCase t)) now c) as [data|] eqn:Ht; rewrite IH.
    + rewrite filter_cons_False; [done|]. by rewrite Ht.
    + rewrite filter_cons_True by done. by rewrite <- app_assoc.
Qed.

(** The second phase: under each key, what the call for that key that
    settled last wrote; the other keys are as the first phase left them. *)
Lemma batchSettled_results now u r st :
  (batchSettled now u r st).2 = <[u := batchEntry u r]> st.2.
Proof. by destruct r as [e|[d|]]. Qed.

Lemma batchSettle_results ts scrape clock order : ∀ st k,
  (foldl (batchSettle ts scrape clock) st order).2 !! k
  = match last (filter (λ i, toUpperCase <$> ts !! i = Some k) order) with
    | Some j => Some (batchEntry k (scrape j))
    | None => st.2 !! k
    end.
Proof.
  induction order as [|i order IH]; intros st k; [done|].
  cbn [foldl]. rewrite IH. unfold batchSettle.
  destruct (decide (toUpperCase <$> ts !! i = Some k)) as [Hi|Hi].
  - rewrite filter_cons_True by done. rewrite last_cons.
    destruct (last (filter _ order)); [done|].
    destruct (ts !! i) as [t|]; simplify_eq/=.
    by rewrite batchSettled_results, lookup_insert_eq.
  - rewrite filter_cons_False by done.
    destruct (last (filter _ order)); [done|].
    destruct (ts !! i) as [t|]; [|done].
    rewrite batchSettled_results, lookup_insert_ne; [done|].
    intros <-. by apply Hi.
Qed.

Lemma batchPending_elem ts now c i :
  i ∈ batchPending ts now c
  ↔ ∃ t, ts !! i = Some t ∧ Cache.get (cacheKey (toUpperCase t)) now c = None.
Proof.
  unfold batchPending. rewrite list_elem_of_filter, elem_of_seq.
  unfold batchMiss. split.
  - intros [Hm _]. destruct (ts !! i) as [t|]; [|done].
    exists t. split; [done|]. by destruct (Cache.get _ _ _).
  - intros (t & Ht & Hg). rewrite Ht, Hg. split; [done|].
    apply lookup_lt_Some in Ht. lia.
Qed.

Lemma postBatch_results ts now scrape clock order c :
  (1 ≤ length ts ≤ 10)%nat →
  postBatch (Some ts) now scrape clock order c
  = ((foldl (batchSettle ts scrape clock)
        (c, (foldl (batchStart now c) (∅, []) ts).1) order).1,
     res_json (literal [("results",
       JObj (foldl (batchSettle ts scrape clock)
               (c, (foldl (batchStart now c) (∅, []) ts).1) order).2)]),
     Scrape <$> (foldl (batchStart now c) (∅, []) ts).2).
Proof.
  intros [H1 H2]. unfold postBatch.
  destruct (length ts =? 0)%nat eqn:E0; [apply Nat.eqb_eq in E0; lia|].
  destruct (10 <? length ts)%nat eqn:E1; [apply Nat.ltb_lt in E1; lia|].
  destruct (foldl (batchStart now c) (∅, []) ts) as [results0 called].
  simpl. by destruct (foldl (batchSettle ts scrape clock) (c, results0) order) as [c' results].
Qed.

Lemma batch_entry ts now scrape clock order c k :
  (1 ≤ length ts ≤ 10)%nat →
  batchResults (postBatch (Some ts) now scrape clock order c).1.2 !! k
  = match last (filter (λ i, toUpperCase <$> ts !! i = Some k) order) with
    | Some j => Some (batchEntry k (scrape j))
    | None =>
        match Cache.get (cacheKey k) now c with
        | Some data => if decide (k ∈ toUpperCase <$> ts) then Some (JObj data) else None
        | None => None
        end
    end.
Proof.
  intros H. rewrite postBatch_results by done.
  unfold batchResults. cbn [fst snd body res_json].
  change (literal [("results", JObj ?m)] !! "results") with (Some (JObj m)).
  cbv beta iota. rewrite batchSettle_results. cbn [snd]. rewrite batchStart_results.
  rewrite lookup_empty. by destruct (Cache.get _ _ _); [case_decide|].
Qed.

Lemma last_filter_Some {A} (P : A → Prop) `{∀ x, Decision (P x)} (l : list A) x :
  x ∈ l → P x → is_Some (last (filter P l)).
Proof.
  intros Hin HP. apply last_is_Some. intros Hnil.
  assert (x ∈ filter P l) as Hx by (apply list_elem_of_filter; done).
  rewrite Hnil in Hx. by apply elem_of_nil in Hx.
Qed.

Lemma last_filter_elem {A} (P : A → Prop) `{∀ x, Decision (P x)} (l : list A) x :
  last (filter P l) = Some x → x ∈ l ∧ P x.
Proof.
  intros Hl. assert (x ∈ filter P l) as Hx.
  { apply last_Some in Hl as [l' Hl]. rewrite Hl. apply elem_of_app. right.
    apply elem_of_cons. by left. }
  apply list_elem_of_filter in Hx as [??]. done.
Qed.

(** C10. A batch request with 1 to 10 tickers, whatever strings they are,
    is answered with status 200 once every pending call has settled, in
    whatever order. Every ticker was upper-cased and looked up in the
    cache under its key, and the scraper was called with the upper-cased
    ticker for those not found. The answer has an entry under the
    upper-casing of each ticker and under no other key. The entry of a
    ticker whose upper-casing no other ticker of the request shares is the
    cached object, or what its own call gave: the scraped row with the
    ticker, or [{error}] when the call found nothing or threw. An entry does
    not change when the calls for the other keys settle differently. The
    single-ticker route answers 400 to a ticker of the wrong format. *)
Theorem batch_skips_validation (ts : list string) (now : Z)
    (scrape : nat → error + option Scraper.row) (clock : nat → Z) (order : list nat)
    (c : Cache.t) :
  (1 ≤ length ts ≤ 10)%nat →
  order ≡ₚ batchPending ts now c →
  let out := postBatch (Some ts) now scrape clock order c in
  let results := batchResults out.1.2 in
  status out.1.2 = 200
  ∧ out.2 = Scrape <$> filter (λ u, Cache.get (cacheKey u) now c = None) (toUpperCase <$> ts)
  ∧ (∀ t, t ∈ ts → is_Some (results !! toUpperCase t))
  ∧ (∀ k, is_Some (results !! k) → ∃ t, t ∈ ts ∧ k = toUpperCase t)
  ∧ (∀ i t, ts !! i = Some t →
       (∀ j t', ts !! j = Some t' → toUpperCase t' = toUpperCase t → j = i) →
       results !! toUpperCase t
       = Some match Cache.get (cacheKey (toUpperCase t)) now c with
              | Some data => JObj data
              | None => batchEntry (toUpperCase t) (scrape i)
              end)
  ∧ (∀ scrape2 k,
       (∀ i t, ts !! i = Some t → toUpperCase t = k → scrape2 i = scrape i) →
       batchResults (postBatch (Some ts) now scrape2 clock order c).1.2 !! k = results !! k)
  ∧ (∀ t now0 now1 scrape1,
       ticker_format t = false →
       status (getDividend (Some t) now0 now1 scrape1 c).1.2 = 400).
Proof.
  intros Hlen Horder out results.
  assert (∀ i, i ∈ order ↔
            ∃ t, ts !! i = Some t ∧ Cache.get (cacheKey (toUpperCase t)) now c = None)
    as Hord.
  { intros i. rewrite Horder. apply batchPending_elem. }
  split; [|split; [|split; [|split; [|split; [|split]]]]].
  - unfold out. by rewrite postBatch_results.
  - unfold out. rewrite postBatch_results by done. cbn [snd].
    by rewrite batchStart_called.
  - intros t [i Hi]%list_elem_of_lookup_1. unfold results, out.
    rewrite batch_entry by done.
    destruct (Cache.get (cacheKey (toUpperCase t)) now c) as [data|] eqn:Hg.
    + destruct (last _); [done|].
      rewrite decide_True; [done|]. apply list_elem_of_fmap_2.
      by eapply list_elem_of_lookup_2.
    + destruct (last_filter_Some (λ i, toUpperCase <$> ts !! i = Some (toUpperCase t)) order i)
        as [j Hj].
      * apply Hord. by exists t.
      * by rewrite Hi.
      * by rewrite Hj.
  - intros k. unfold results, out. rewrite batch_entry by done.
    destruct (last _) as [j|] eqn:Hj.
    + intros _. apply last_filter_elem in Hj as [_ Hj].
      destruct (ts !! j) as [t|] eqn:Ht; simplify_eq/=.
      exists t. split; [by eapply list_elem_of_lookup_2|done].
    + destruct (Cache.get _ _ _); [|by intros [??]].
      case_decide as Hin; [|by intros [??]].
      intros _. apply list_elem_of_fmap in Hin as (t & -> & Hin). by exists t.
  - intros i t Hi Huniq. unfold results, out. rewrite batch_entry by done.
    destruct (Cache.get (cacheKey (toUpperCase t)) now c) as [data|] eqn:Hg.
    + destruct (last _) as [j|] eqn:Hj.
      * apply last_filter_elem in Hj as [Hj1 Hj2].
        apply Hord in Hj1 as (t' & Ht' & Hg'). rewrite Ht' in Hj2. simplify_eq/=.
        congruence.
      * rewrite decide_True; [done|]. apply list_elem_of_fmap_2.
        by eapply list_elem_of_lookup_2.
    + destruct (last_filter_Some (λ i, toUpperCase <$> ts !! i = Some (toUpperCase t)) order i)
        as [j Hj].
      * apply Hord. by exists t.
      * by rewrite Hi.
      * rewrite Hj. apply last_filter_elem in Hj as [_ Hj].
        destruct (ts !! j) as [t'|] eqn:Ht'; simplify_eq/=.
        by rewrite (Huniq j t' Ht').
  - intros scrape2 k Hagree. unfold results, out. rewrite !batch_entry by done.
    destruct (last _) as [j|] eqn:Hj; [|done].
    apply last_filter_elem in Hj as [_ Hj].
    destruct (ts !! j) as [t|] eqn:Ht; simplify_eq/=.
    by rewrite (Hagree j t Ht).
  - intros t now0 now1 scrape1 Hf. unfold getDividend, validateTicker.
    destruct (String.eqb t ""); [done|]. by rewrite Hf.
Qed.

(** ** More on the handlers *)

(** X15. [validateTicker] lets exactly the strings of 1 to 10 characters of the
    class pass, and answers 400 to everything else. *)
Theorem validateTicker_accepts (p : option string) :
  (validateTicker p = None
   ↔ ∃ t, p = Some t ∧ (1 ≤ String.length t ≤ 10)%nat
          ∧ ∀ a, a ∈ String.list_ascii_of_string t → ticker_char a = true)
  ∧ (∀ r, validateTicker p = Some r → status r = 400).
Proof.
  split.
  - destruct p as [t|]; [|split; [done|by intros (? & ? & _)]].
    rewrite validateTicker_format. unfold ticker_format.
    rewrite andb_true_iff, andb_true_iff, Nat.leb_le, Nat.leb_le, forallb_forall.
    split.
    + intros [Hlen Hall]. exists t. split; [done|]. split; [done|].
      intros a Ha. apply Hall. by apply list_elem_of_In.
    + intros (t' & ? & Hlen & Hall). simplify_eq. split; [done|].
      intros a Ha. apply Hall. by apply list_elem_of_In.
  - apply validateTicker_400.
Qed.

(** X16. A scrape that throws: the answer is 408 when the message contains
    [timeout], else 503 when it contains [Navigation failed], else 500; the
    error is logged and nothing is cached. *)
Theorem scrape_error_status t now0 now1 scrape c message :
  ticker_format t = true →
  Cache.get (cacheKey (toUpperCase t)) now0 c = None →
  scrape (toUpperCase t) = inl message →
  ∃ r, getDividend (Some t) now0 now1 scrape c
       = (c, r, [Scrape (toUpperCase t);
                 ConsoleError ("Error scraping " +:+ toUpperCase t +:+ ": " +:+ message)])
    ∧ status r = (if includes "timeout" message then 408
                  else if includes "Navigation failed" message then 503 else 500).
Proof.
  intros Hv%validateTicker_format Hmiss Hs. unfold getDividend. rewrite Hv. simpl.
  unfold dividendLookup. rewrite Hmiss, Hs. unfold dividendSettled, dividendCatch.
  eexists. split; [done|].
  destruct (includes "timeout" message); [done|].
  by destruct (includes "Navigation failed" message).
Qed.

(** X17. A scrape that finds nothing, or a row with an empty ex-date, is
    answered with 404; a row whose ex-date is ['N/A'] with 500. Nothing is
    cached in these cases. *)
Theorem missing_data_statuses t now0 now1 scrape c :
  ticker_format t = true →
  Cache.get (cacheKey (toUpperCase t)) now0 c = None →
  let out := getDividend (Some t) now0 now1 scrape c in
  (scrape (toUpperCase t) = inr None → status out.1.2 = 404 ∧ out.1.1 = c)
  ∧ (∀ d, scrape (toUpperCase t) = inr (Some d) → Scraper.exDate d = "" →
       status out.1.2 = 404 ∧ out.1.1 = c)
  ∧ (∀ d, scrape (toUpperCase t) = inr (Some d) → Scraper.exDate d = "N/A" →
       status out.1.2 = 500 ∧ out.1.1 = c).
Proof.
  intros Hv%validateTicker_format Hmiss out. unfold out, getDividend. rewrite Hv. simpl.
  unfold dividendLookup. rewrite Hmiss. split; [|split].
  - intros Hs. by rewrite Hs.
  - intros d Hs Hd. rewrite Hs. unfold dividendSettled. by rewrite Hd.
  - intros d Hs Hd. rewrite Hs. unfold dividendSettled. by rewrite Hd.
Qed.

(** X18. The store changes only when a scraped row passes the check and is
    answered with 200; and the status of an answer is one of 200, 400, 404,
    408, 500 and 503. *)
Theorem only_fresh_success_is_cached (p : option string) now0 now1 scrape c :
  let out := getDividend p now0 now1 scrape c in
  (out.1.1 = c
   ∨ ∃ t d, p = Some t ∧ scrape (toUpperCase t) = inr (Some d)
       ∧ status out.1.2 = 200 ∧ out.2 = [Scrape (toUpperCase t)]
       ∧ out.1.1 = Cache.set (cacheKey (toUpperCase t))
                     (freshResponse (toUpperCase t) d) ttl now1 c)
  ∧ status out.1.2 ∈ [200; 400; 404; 408; 500; 503].
Proof.
  intros out. unfold out, getDividend.
  destruct (validateTicker p) as [r|] eqn:Hv.
  - simpl. split; [by left|]. rewrite (validateTicker_400 p r Hv).
    rewrite !elem_of_cons. auto.
  - destruct p as [t|]; [|done]. simpl.
    unfold dividendLookup.
    destruct (Cache.get (cacheKey (toUpperCase t)) now0 c) as [v|].
    { split; [by left|]. simpl. rewrite !elem_of_cons. auto. }
    destruct (scrape (toUpperCase t)) as [message|[d|]] eqn:Hs; simpl.
    + split; [by left|]. unfold dividendCatch.
      destruct (includes "timeout" message); simpl; [rewrite !elem_of_cons; auto 10|].
      destruct (includes "Navigation failed" message); simpl; rewrite !elem_of_cons; auto 10.
    + destruct (String.eqb (Scraper.exDate d) "") eqn:E1; simpl.
      { split; [by left|]. rewrite !elem_of_cons. auto 10. }
      destruct (String.eqb (Scraper.exDate d) "N/A") eqn:E2; simpl.
      { split; [by left|]. rewrite !elem_of_cons. auto 10. }
      split; [|rewrite !elem_of_cons; auto 10].
      right. exists t, d. by repeat split.
    + split; [by left|]. rewrite !elem_of_cons. auto 10.
Qed.

(** X19. An answer from the cache has status 200 and is the stored object with
    [cached] set to [true] and [cacheAge] added: the whole seconds since the
    time in [scrapedAt], [null] when the stored object has no such field. *)
Theorem cached_answer t v now0 now1 scrape c :
  ticker_format t = true →
  Cache.get (cacheKey (toUpperCase t)) now0 c = Some v →
  ∃ o, getDividend (Some t) now0 now1 scrape c = (c, {| status := 200; body := JObj o |}, [])
    ∧ o !! "cached" = Some (JBool true)
    ∧ (∀ k, k ≠ "cached" → k ≠ "cacheAge" → o !! k = v !! k)
    ∧ (∀ s t0, v !! "scrapedAt" = Some (JStr s) → parseDate s = Some t0 →
         o !! "cacheAge" = Some (JNum ((now0 - t0) / 1000)))
    ∧ (v !! "scrapedAt" = None → o !! "cacheAge" = Some JNull).
Proof.
  intros Hv%validateTicker_format Hhit. rewrite (getDividend_hit _ _ _ _ _ _ Hv Hhit).
  eexists. split; [done|]. split; [|split; [|split]].
  - by rewrite lookup_insert_ne, lookup_insert_eq.
  - intros k Hk1 Hk2. by rewrite !lookup_insert_ne.
  - intros s t0 Hs Hp. rewrite lookup_insert_eq. unfold cacheAge, dateOf.
    by rewrite Hs, Hp.
  - intros Hs. rewrite lookup_insert_eq. unfold cacheAge, dateOf. by rewrite Hs.
Qed.

(** X20. What the batch route stores is served by the single-ticker route
    without any check: a row scraped for a batch request, whatever its
    ex-date, is answered from the cache with status 200 until it expires. *)
Theorem batch_entry_served_unchecked t d now scrape clock c t' now' now1 scrape' :
  Cache.get (cacheKey (toUpperCase t)) now c = None →
  scrape 0%nat = inr (Some d) →
  ticker_format t' = true → toUpperCase t' = toUpperCase t →
  now' < clock 0%nat + ttl * 1000 →
  let c1 := (postBatch (Some [t]) now scrape clock [0%nat] c).1.1 in
  ∃ o, getDividend (Some t') now' now1 scrape' c1
       = (c1, {| status := 200; body := JObj o |}, [])
    ∧ o !! "exDate" = Some (JStr (Scraper.exDate d))
    ∧ o !! "payDate" = Some (JStr (Scraper.payDate d))
    ∧ o !! "cached" = Some (JBool true).
Proof.
  intros Hmiss Hs Hf Hup Hnow c1.
  assert (c1 = Cache.set (cacheKey (toUpperCase t))
                 (row_object d ∪ literal [("ticker", JStr (toUpperCase t))])
                 ttl (clock 0%nat) c) as Hc1.
  { unfold c1. rewrite postBatch_results by (simpl; lia). simpl.
    rewrite batchStart_eq, Hmiss. simpl. unfold batchSettle. simpl. by rewrite Hs. }
  apply validateTicker_format in Hf.
  rewrite (getDividend_hit t' (row_object d ∪ literal [("ticker", JStr (toUpperCase t))])).
  - eexists. split; [done|]. repeat split; reflexivity.
  - done.
  - rewrite Hup, Hc1. unfold Cache.get, Cache.set. rewrite lookup_insert_eq. simpl.
    apply Z.ltb_lt in Hnow. by rewrite Hnow.
Qed.

(** X21. A batch request whose [tickers] is not an array, is empty or has more
    than 10 entries is answered with 400; nothing is looked up, scraped or
    stored. *)
Theorem batch_rejects_bad_arrays tickers now scrape clock order c :
  (∀ ts, tickers = Some ts → ts = [] ∨ (10 < length ts)%nat) →
  ∃ r, postBatch tickers now scrape clock order c = (c, r, []) ∧ status r = 400.
Proof.
  intros H. unfold postBatch. destruct tickers as [ts|]; [|by eexists].
  destruct (H ts eq_refl) as [->|Hlen]; [by eexists|].
  destruct (length ts =? 0)%nat; [by eexists|].
  apply Nat.ltb_lt in Hlen. rewrite Hlen. by eexists.
Qed.

Lemma filter_none {A} (P : A → Prop) `{∀ x, Decision (P x)} (l : list A) :
  (∀ x, x ∈ l → ¬ P x) → filter P l = [].
Proof.
  induction l as [|x l IH]; intros Hl; [done|].
  rewrite filter_cons_False by (apply Hl, elem_of_cons; by left).
  apply IH. intros y Hy. apply Hl, elem_of_cons. by right.
Qed.

(** X22. When several tickers of a batch request share their upper-casing, the
    entry under that key is the one of the call that settled last. *)
Theorem batch_last_settled_wins ts now scrape clock c pre j post t :
  (1 ≤ length ts ≤ 10)%nat →
  ts !! j = Some t →
  (∀ i t', i ∈ post → ts !! i = Some t' → toUpperCase t' ≠ toUpperCase t) →
  batchResults (postBatch (Some ts) now scrape clock (pre ++ j :: post) c).1.2
    !! toUpperCase t
  = Some (batchEntry (toUpperCase t) (scrape j)).
Proof.
  intros Hlen Hj Hpost. rewrite batch_entry by done.
  rewrite filter_app, filter_cons_True by (by rewrite Hj).
  assert (filter (λ i, toUpperCase <$> ts !! i = Some (toUpperCase t)) post = []) as ->.
  { apply filter_none. intros i Hi Hk.
    destruct (ts !! i) as [t'|] eqn:Ht'; simplify_eq/=. by eapply Hpost. }
  by rewrite last_snoc.
Qed.

(** X23. DELETE /cache/:ticker removes the entry under the key of the
    upper-cased ticker and no other, and reports whether there was one;
    without a ticker the store is emptied. *)
Theorem delete_invalidates (t : string) (c : Cache.t) :
  t ≠ "" →
  (deleteCache (Some t) c).2
  = res_json (literal [("message", JStr ("Cache cleared for " +:+ t));
                       ("deleted", JBool (bool_decide (is_Some (c !! cacheKey (toUpperCase t)))))])
  ∧ (∀ now, Cache.get (cacheKey (toUpperCase t)) now (deleteCache (Some t) c).1 = None)
  ∧ (∀ k, k ≠ cacheKey (toUpperCase t) → (deleteCache (Some t) c).1 !! k = c !! k)
  ∧ (∀ k now, Cache.get k now (deleteCache None c).1 = None).
Proof.
  intros Ht. unfold deleteCache. simpl. apply String.eqb_neq in Ht. rewrite Ht. simpl.
  split; [|split; [|split]].
  - destruct (c !! cacheKey (toUpperCase t)); reflexivity.
  - intros now. unfold Cache.get. by rewrite lookup_delete_eq.
  - intros k Hk. by apply lookup_delete_ne.
  - intros k now. unfold Cache.get, Cache.flushAll. by rewrite lookup_empty.
Qed.

(** X24. The configured values are never 0: [parseInt(x) || d] takes the
    default [d] when the variable is unset, is not a number or is 0, and any
    other number, also a negative one, as it is. The defaults are 60
    seconds, 3 instances, 30000 ms and 100 requests per 15 minutes. *)
Theorem config_never_zero (env : environment) :
  cache_ttl (CONFIG env) ≠ 0 ∧ browser_maxConcurrent (CONFIG env) ≠ 0
  ∧ browser_timeout (CONFIG env) ≠ 0 ∧ rateLimit_max (CONFIG env) ≠ 0
  ∧ (CACHE_TTL env = None ∨ CACHE_TTL env = Some 0 → cache_ttl (CONFIG env) = 60)
  ∧ (MAX_CONCURRENT_BROWSERS env = None ∨ MAX_CONCURRENT_BROWSERS env = Some 0 →
     browser_maxConcurrent (CONFIG env) = 3)
  ∧ (BROWSER_TIMEOUT env = None ∨ BROWSER_TIMEOUT env = Some 0 →
     browser_timeout (CONFIG env) = 30000)
  ∧ (RATE_LIMIT_MAX env = None ∨ RATE_LIMIT_MAX env = Some 0 →
     rateLimit_max (CONFIG env) = 100)
  ∧ (∀ n, n ≠ 0 → CACHE_TTL env = Some n → cache_ttl (CONFIG env) = n)
  ∧ (∀ n, n ≠ 0 → MAX_CONCURRENT_BROWSERS env = Some n →
       browser_maxConcurrent (CONFIG env) = n)
  ∧ rateLimit_windowMs (CONFIG env) = 900000.
Proof.
  assert (∀ v d, d ≠ 0 → parseIntOr v d ≠ 0) as Hnz.
  { intros [n|] d Hd; simpl; [|done]. destruct (n =? 0) eqn:E; [done|].
    by apply Z.eqb_neq in E. }
  assert (∀ v d, v = None ∨ v = Some 0 → parseIntOr v d = d) as Hdef.
  { by intros v d [-> | ->]. }
  assert (∀ v d n, n ≠ 0 → v = Some n → parseIntOr v d = n) as Hset.
  { intros v d n Hn ->. simpl. apply Z.eqb_neq in Hn. by rewrite Hn. }
  unfold CONFIG. simpl.
  repeat split; try (by apply Hnz); try (by apply Hdef); intros n Hn He; by apply Hset.
Qed.

End Handlers.

(** ** Examples *)

(** [sparse_row] is what [scrapeDividendData] returns for such a table. *)
Lemma sparse_row_scraped :
  (Scraper.scrapeDividendData
     (Scraper.demo_collaborators [] ["2024-01-15"; ""; ""; ""]) 3 30000 "KO"
     Scraper.start).2
  = Scraper.Return (Some sparse_row).
Proof. vm_compute. reflexivity. Qed.

(** GET /dividend/ko with an empty cache and a table whose first row has
    three empty cells: status 200, with three empty fields. *)
Lemma ok_without_checking_fields_witness :
  ∃ c' o, getDividend upper_string demo_parseDate 60 (Some "ko") 1000 5000
            (λ _, inr (Some sparse_row)) ∅
          = (c', {| status := 200; body := JObj o |}, [Scrape "KO"])
    ∧ o !! "payDate" = Some (JStr "")
    ∧ o !! "dividend" = Some (JStr "")
    ∧ o !! "yield" = Some (JStr "").
Proof.
  destruct (ok_without_checking_fields upper_string demo_parseDate 60 "ko" sparse_row
              1000 5000 (λ _, inr (Some sparse_row)) ∅)
    as (c' & o & H & _ & H1 & H2 & H3); [reflexivity|reflexivity|reflexivity|done|done|].
  exists c', o. split; [exact H|]. split; [exact H1|]. split; [exact H2|exact H3].
Defined.


(** POST /dividends/batch with ["AAPL", "INVALID$", "msft"] and an empty
    cache; the calls settle in the order msft, AAPL, INVALID$. *)
Lemma batch_skips_validation_witness :
  let out := postBatch upper_string 60 (Some ["AAPL"; "INVALID$"; "msft"]) 1000
               demo_scrapes (λ i, 5000 + Z.of_nat i) [2; 0; 1]%nat ∅ in
  ticker_format "INVALID$" = false
  ∧ status out.1.2 = 200
  ∧ out.2 = [Scrape "AAPL"; Scrape "INVALID$"; Scrape "MSFT"]
  ∧ batchResults out.1.2 !! "INVALID$"
    = Some (JObj (literal [("error", JStr "net::ERR_ABORTED")])).
Proof.
  destruct (batch_skips_validation upper_string demo_parseDate 60
              ["AAPL"; "INVALID$"; "msft"] 1000 demo_scrapes (λ i, 5000 + Z.of_nat i)
              [2; 0; 1]%nat ∅)
    as (Hst & Heff & _ & _ & Hentry & _).
  { simpl. lia. }
  { change (batchPending upper_string ["AAPL"; "INVALID$"; "msft"] 1000 ∅)
      with [0; 1; 2]%nat. solve_Permutation. }
  split; [reflexivity|]. split; [exact Hst|]. split; [exact Heff|].
  apply (Hentry 1%nat "INVALID$" eq_refl).
  intros [|[|[|j]]] t' Ht' Hup; simpl in Ht'; simplify_eq; try done.
Defined.

(** The error of the race of lines 184-188 is answered with 408. *)
Lemma scrape_error_status_witness :
  ∃ r l, getDividend upper_string demo_parseDate 60 (Some "ko") 1000 5000
           (λ _, inl "Table load timeout") ∅ = (∅, r, l)
    ∧ status r = 408.
Proof.
  destruct (scrape_error_status upper_string demo_parseDate 60 "ko" 1000 5000
              (λ _, inl "Table load timeout") ∅ "Table load timeout")
    as (r & Hr & Hs); [reflexivity..|].
  eexists r, _. split; [exact Hr|exact Hs].
Defined.

Lemma missing_data_statuses_witness :
  status (getDividend upper_string demo_parseDate 60 (Some "ko") 1000 5000
            (λ _, inr None) ∅).1.2 = 404.
Proof.
  destruct (missing_data_statuses upper_string demo_parseDate 60 "ko" 1000 5000
              (λ _, inr None) ∅) as [H _]; [reflexivity..|].
  by destruct H.
Defined.

(** A request one second after the entry was scraped. *)
Lemma cached_answer_witness :
  ∃ o, getDividend upper_string demo_parseDate 60 (Some "ko") 1704844801000 0
         (λ _, inl "")
         (Cache.set "dividend:KO" (freshResponse "KO" full_row) 60 1704844800500 ∅)
       = (Cache.set "dividend:KO" (freshResponse "KO" full_row) 60 1704844800500 ∅,
          {| status := 200; body := JObj o |}, [])
    ∧ o !! "cacheAge" = Some (JNum 1).
Proof.
  destruct (cached_answer upper_string demo_parseDate 60 "ko" (freshResponse "KO" full_row)
              1704844801000 0 (λ _, inl "")
              (Cache.set "dividend:KO" (freshResponse "KO" full_row) 60 1704844800500 ∅))
    as (o & Ho & _ & _ & Hage & _); [reflexivity..|].
  exists o. split; [exact Ho|].
  apply (Hage "2024-01-10T00:00:00.000Z" 1704844800000); reflexivity.
Defined.

(** A batch request stores a row whose ex-date is empty; the single-ticker
    route then answers 200 with it. *)
Lemma batch_entry_served_unchecked_witness :
  ∃ o, getDividend upper_string demo_parseDate 60 (Some "ko") 6000 7000 (λ _, inl "")
         (postBatch upper_string 60 (Some ["KO"]) 1000
            (λ _, inr (Some {| Scraper.exDate := ""; Scraper.payDate := "";
                               Scraper.dividend := ""; Scraper.yield := "";
                               Scraper.scrapedAt := "2024-01-10T00:00:00.000Z" |}))
            (λ _, 5000) [0%nat] ∅).1.1
       = ((postBatch upper_string 60 (Some ["KO"]) 1000
             (λ _, inr (Some {| Scraper.exDate := ""; Scraper.payDate := "";
                                Scraper.dividend := ""; Scraper.yield := "";
                                Scraper.scrapedAt := "2024-01-10T00:00:00.000Z" |}))
             (λ _, 5000) [0%nat] ∅).1.1,
          {| status := 200; body := JObj o |}, [])
    ∧ o !! "exDate" = Some (JStr "").
Proof.
  destruct (batch_entry_served_unchecked upper_string demo_parseDate 60 "KO"
              {| Scraper.exDate := ""; Scraper.payDate := "";
                 Scraper.dividend := ""; Scraper.yield := "";
                 Scraper.scrapedAt := "2024-01-10T00:00:00.000Z" |}
              1000 (λ _, inr (Some {| Scraper.exDate := ""; Scraper.payDate := "";
                                      Scraper.dividend := ""; Scraper.yield := "";
                                      Scraper.scrapedAt := "2024-01-10T00:00:00.000Z" |}))
              (λ _, 5000) ∅ "ko" 6000 7000 (λ _, inl ""))
    as (o & Ho & He & _); [reflexivity..|lia|].
  exists o. split; [exact Ho|exact He].
Defined.

Lemma batch_rejects_bad_arrays_witness :
  ∃ r, postBatch upper_string 60 (Some []) 0 demo_scrapes (λ _, 0) [] ∅ = (∅, r, [])
    ∧ status r = 400.
Proof.
  apply (batch_rejects_bad_arrays upper_string 60 (Some []) 0 demo_scrapes (λ _, 0) [] ∅).
  intros ts [= <-]. by left.
Defined.

(** ["ko", "KO"]: the call for "KO" settles first, the one for "ko" last. *)
Lemma batch_last_settled_wins_witness :
  batchResults (postBatch upper_string 60 (Some ["ko"; "KO"]) 0 demo_scrapes (λ _, 0)
                  [1; 0]%nat ∅).1.2 !! "KO"
  = Some (batchEntry "KO" (inr (Some full_row))).
Proof.
  apply (batch_last_settled_wins upper_string 60 ["ko"; "KO"] 0 demo_scrapes (λ _, 0) ∅
           [1%nat] 0%nat [] "ko"); [simpl; lia|reflexivity|].
  intros i t' Hi. by apply elem_of_nil in Hi.
Defined.

Lemma delete_invalidates_witness :
  (deleteCache upper_string (Some "ko")
     (Cache.set "dividend:KO" (freshResponse "KO" full_row) 60 0 ∅)).2
  = res_json (literal [("message", JStr "Cache cleared for ko"); ("deleted", JBool true)]).
Proof.
  destruct (delete_invalidates upper_string "ko"
              (Cache.set "dividend:KO" (freshResponse "KO" full_row) 60 0 ∅)) as [H _];
    [done|].
  rewrite H. reflexivity.
Defined.

(** C5 as the spec has it fails. [page.goto] throws
    "net::ERR_NAME_NOT_RESOLVED" three times: [scrapeDividendData] rejects
    with that very message after three attempts. Nothing marks it as a
    navigation failure: the message is the one of [page.goto], it does not
    contain 'Navigation failed', the one test for such failures that the
    route has (line 292), and the route answers it with 500 'Scraping
    failed' as it answers any failure it does not know. And when
    [releaseBrowser] rejects in the [finally] block, the error of the
    navigation does not reach the caller at all. *)
Lemma navigation_error_reaches_caller_raw :
  (∃ s, Scraper.scrapeDividendData
          (Scraper.demo_collaborators
             ["net::ERR_NAME_NOT_RESOLVED"; "net::ERR_NAME_NOT_RESOLVED";
              "net::ERR_NAME_NOT_RESOLVED"] [])
          3 30000 "KO" Scraper.start
        = (s, Scraper.Throw "net::ERR_NAME_NOT_RESOLVED")
     ∧ Scraper.attempts (Scraper.calls s) = 3%nat)
  ∧ includes "Navigation failed" "net::ERR_NAME_NOT_RESOLVED" = false
  ∧ (getDividend upper_string demo_parseDate 60 (Some "ko") 1000 5000
       (λ _, inl "net::ERR_NAME_NOT_RESOLVED") ∅).1.2
    = res_status_json 500
        (literal [("error", JStr "Scraping failed"); ("ticker", JStr "KO");
                  ("message", JStr "An internal error occurred while fetching data")])
  ∧ (∃ s, Scraper.scrapeDividendData
            {| Scraper.getBrowser_r := inr 0%nat; Scraper.newPage_r := None;
               Scraper.setUserAgent_r := None; Scraper.setViewport_r := None;
               Scraper.goto_r := λ _, Some "net::ERR_NAME_NOT_RESOLVED";
               Scraper.waitForTable_r := None;
               Scraper.evaluate_r := inr (Scraper.demo_document []);
               Scraper.now_r := "2024-01-10T00:00:00.000Z";
               Scraper.releaseBrowser_r := Some "Protocol error" |}
            3 30000 "KO" Scraper.start
          = (s, Scraper.Throw "Protocol error")).
Proof.
  split; [eexists; split; vm_compute; reflexivity|].
  split; [vm_compute; reflexivity|].
  split; [vm_compute; reflexivity|].
  eexists. vm_compute. reflexivity.
Qed.
End Http.

Module Variants.

(** The earlier versions of the route: [src/app.js] (one browser per
    request, no pool, no cache) and the two servers of
    [src/unnamed/part_000] (a plain HTTP fetch parsed with cheerio). *)

Inductive call :=
  | Launch
  | NewPage
  | Goto (url : string)
  | Evaluate
  | Close.

(** How the awaited calls of [src/app.js] settle. [evaluate_r] is what the
    page finds: [None] when there is no row, else the [innerText] of the
    cells of the first row. *)
Record puppeteer := Build_puppeteer {
  launch_r : option error;
  newPage_r : option error;
  goto_r : option error;
  evaluate_r : error + option (list string);
  close_r : option error;
}.

(** A field [k: v] of an object that is sent as JSON: it is dropped when [v]
    is [undefined]. *)
Definition field (k : string) (v : option string) (o : gmap string json) : gmap string json :=
  match v with
  | Some s => <[k := JStr s]> o
  | None => o
  end.

(** [src/app.js], lines 16-27. *)
Definition pageFunction (row : option (list string)) : option (gmap string json) :=
  match row with
  | None => None
  | Some tds =>
      Some (field "yield" (tds !! 3%nat)
              (field "dividend" (tds !! 2%nat)
                 (field "payDate" (tds !! 1%nat)
                    (field "exDate" (tds !! 0%nat) ∅))))
  end.

(** [src/app.js], lines 12-29: the calls made, and the data or the error
    thrown. *)
Definition appTry (E : puppeteer) (url : string)
  : list call * (error + option (gmap string json)) :=
  match launch_r E with
  | Some e => ([Launch], inl e)
  | None =>
      match newPage_r E with
      | Some e => ([Launch; NewPage], inl e)
      | None =>
          match goto_r E with
          | Some e => ([Launch; NewPage; Goto url], inl e)
          | None =>
              match evaluate_r E with
              | inl e => ([Launch; NewPage; Goto url; Evaluate], inl e)
              | inr row =>
                  match close_r E with
                  | Some e => ([Launch; NewPage; Goto url; Evaluate; Close], inl e)
                  | None =>
                      ([Launch; NewPage; Goto url; Evaluate; Close], inr (pageFunction row))
                  end
              end
          end
      end
  end.

(** [part_000], lines 24-27: the field that a label selects. *)
Definition fieldOf (lowerLabel : string) : option string :=
  if includes "yield" lowerLabel then Some "yield"
  else if includes "amount" lowerLabel then Some "dividend"
  else if includes "ex-date" lowerLabel then Some "exDate"
  else if includes "pay date" lowerLabel then Some "payDate"
  else None.

Section Routes.

Variable toUpperCase : string → string.
Variable toLowerCase : string → string.

(** [src/app.js], lines 7-39. *)
Definition appRoute (param : string) (E : puppeteer) : Http.response * list call :=
  let ticker := toUpperCase param in
  let url := Scraper.url_of ticker in
  let '(cs, r) := appTry E url in
  (match r with
   | inr (Some data) => Http.res_json (data ∪ literal [("ticker", JStr ticker)])
   | inr None => Http.res_status_json 404 (literal [("error", JStr "No data found")])
   | inl message =>
       Http.res_status_json 500
         (literal [("error", JStr "Scraping failed"); ("details", JStr message)])
   end, cs).

(** [part_000], lines 19-29, for one [div]: [label] and [value] are the
    trimmed texts of its [dt] and [dd]. *)
Definition setByLabel (result : gmap string json) (div : string * string)
  : gmap string json :=
  let '(label, value) := div in
  if negb (String.eqb label "") && negb (String.eqb value "") then
    match fieldOf (toLowerCase label) with
    | Some k => <[k := JStr value]> result
    | None => result
    end
  else result.

(** [part_000], lines 8-40; [fetched] is the error of [axios.get] or the
    [div]s of the container. *)
Definition labelsRoute (param : string) (fetched : error + list (string * string))
  : Http.response * list Http.effect :=
  let ticker := toUpperCase param in
  match fetched with
  | inl message =>
      (Http.res_status_json 500
         (literal [("error", JStr "Scraping failed"); ("details", JStr message)]),
       [Http.ConsoleError message])
  | inr divs =>
      let result := foldl setByLabel ∅ divs in
      if (size result =? 0)%nat then
        (Http.res_status_json 404 (literal [("error", JStr "No data found")]), [])
      else (Http.res_json (result ∪ literal [("ticker", JStr ticker)]), [])
  end.

(** [part_000], lines 56-84; [fetched] is the error of [axios.get], or the
    trimmed texts of the cells of the first row, [None] when there is no
    row. *)
Definition rowsRoute (param : string) (fetched : error + option (list string))
  : Http.response * list Http.effect :=
  let ticker := toUpperCase param in
  match fetched with
  | inl message =>
      (Http.res_status_json 500
         (literal [("error", JStr "Scraping failed"); ("details", JStr message)]),
       [Http.ConsoleError ("Scraping error for " +:+ ticker +:+ ": " +:+ message)])
  | inr None =>
      (Http.res_status_json 404
         (literal [("error", JStr "No dividend data found for this ticker.")]), [])
  | inr (Some tds) =>
      (Http.res_json
         (literal [("ticker", JStr ticker);
                   ("exDate", JStr (default "" (tds !! 0%nat)));
                   ("payDate", JStr (default "" (tds !! 1%nat)));
                   ("dividend", JStr (default "" (tds !! 2%nat)));
                   ("yield", JStr (default "" (tds !! 3%nat)))]), [])
  end.

(** X25. In [src/app.js] the browser is closed only when every step before
    succeeded: when the launch succeeds and [newPage], [goto] or [evaluate]
    throws, the browser that was launched is never closed. *)
Theorem app_closes_only_on_success (param : string) (E : puppeteer) :
  (Close ∈ (appRoute param E).2
   ↔ launch_r E = None ∧ newPage_r E = None ∧ goto_r E = None
     ∧ ∃ row, evaluate_r E = inr row)
  ∧ (launch_r E = None →
     (newPage_r E ≠ None ∨ goto_r E ≠ None ∨ (∃ e, evaluate_r E = inl e)) →
     Launch ∈ (appRoute param E).2 ∧ Close ∉ (appRoute param E).2).
Proof.
  unfold appRoute, appTry.
  destruct E as [[e1|] [e2|] [e3|] [e4|row] [e5|]]; simpl;
    (split; [split|]); rewrite ?elem_of_cons, ?elem_of_nil; intros;
    repeat match goal with
           | H : _ ∧ _ |- _ => destruct H
           | H : ∃ _, _ |- _ => destruct H
           | H : _ ∨ _ |- _ => destruct H
           | |- _ ∧ _ => split
           | |- ¬ _ => intros ?
           end;
    try contradiction; try discriminate; try congruence; eauto 10.
Qed.

(** X26. The answer of [src/app.js]: 200 with the ticker and the texts of the
    cells that exist among the first four, also when the row has fewer
    cells or none; 404 when there is no row; 500 with the message of the
    first call that threw, the close of the browser included. *)
Theorem app_answer (param : string) (E : puppeteer) :
  let r := (appRoute param E).1 in
  (∀ tds, launch_r E = None → newPage_r E = None → goto_r E = None →
     evaluate_r E = inr (Some tds) → close_r E = None →
     ∃ o, r = {| Http.status := 200; Http.body := JObj o |}
       ∧ o !! "ticker" = Some (JStr (toUpperCase param))
       ∧ o !! "exDate" = JStr <$> tds !! 0%nat
       ∧ o !! "payDate" = JStr <$> tds !! 1%nat
       ∧ o !! "dividend" = JStr <$> tds !! 2%nat
       ∧ o !! "yield" = JStr <$> tds !! 3%nat)
  ∧ (launch_r E = None → newPage_r E = None → goto_r E = None →
     evaluate_r E = inr None → close_r E = None → Http.status r = 404)
  ∧ (∀ row e, launch_r E = None → newPage_r E = None → goto_r E = None →
     evaluate_r E = inr row → close_r E = Some e →
     r = Http.res_status_json 500
           (literal [("error", JStr "Scraping failed"); ("details", JStr e)]))
  ∧ Http.status r ∈ [200; 404; 500].
Proof.
  intros r. unfold r, appRoute, appTry.
  split; [|split; [|split]].
  - intros tds -> -> -> -> ->. simpl. eexists. split; [done|].
    destruct (tds !! 0%nat), (tds !! 1%nat), (tds !! 2%nat), (tds !! 3%nat);
      repeat split; reflexivity.
  - by intros -> -> -> -> ->.
  - by intros row e -> -> -> -> ->.
  - destruct E as [[e1|] [e2|] [e3|] [e4|[tds|]] [e5|]]; simpl;
      rewrite !elem_of_cons; auto.
Qed.

Lemma setByLabel_keys divs : ∀ result k,
  is_Some (foldl setByLabel result divs !! k) →
  is_Some (result !! k)
  ∨ ∃ label value, (label, value) ∈ divs ∧ label ≠ "" ∧ value ≠ ""
      ∧ fieldOf (toLowerCase label) = Some k.
Proof.
  induction divs as [|[label value] divs IH]; intros result k H; [by left|].
  simpl in H. apply IH in H as [H|(l & v & Hin & ?)].
  - destruct (String.eqb label "") eqn:E1; simpl in H; [by left|].
    destruct (String.eqb value "") eqn:E2; simpl in H; [by left|].
    destruct (fieldOf (toLowerCase label)) as [k'|] eqn:Ek; [|by left].
    destruct (decide (k = k')) as [->|Hne].
    + right. exists label, value. apply String.eqb_neq in E1, E2.
      split; [apply elem_of_cons; by left|done].
    + left. by rewrite lookup_insert_ne in H.
  - right. exists l, v. split; [apply elem_of_cons; by right|done].
Qed.

Lemma setByLabel_grows divs : ∀ result k,
  is_Some (result !! k) → is_Some (foldl setByLabel result divs !! k).
Proof.
  induction divs as [|[label value] divs IH]; intros result k H; [done|].
  simpl. apply IH.
  destruct (negb (String.eqb label "") && negb (String.eqb value "")); [|done].
  destruct (fieldOf (toLowerCase label)) as [k'|]; [|done].
  destruct (decide (k = k')) as [->|Hne].
  - rewrite lookup_insert_eq. by eexists.
  - by rewrite lookup_insert_ne.
Qed.

(** X27. The label version of [part_000] answers 404 exactly when no [div] has a
    non-empty label and value whose label names one of the four fields; a
    [div] read later overwrites the field of one read before; and a label
    that contains [yield] sets the yield whatever else it contains. *)
Theorem labels_answer (param : string) (divs : list (string * string)) :
  (Http.status (labelsRoute param (inr divs)).1 = 404
   ↔ ∀ label value, (label, value) ∈ divs → label ≠ "" → value ≠ "" →
       fieldOf (toLowerCase label) = None)
  ∧ (Http.status (labelsRoute param (inr divs)).1 ∈ [200; 404])
  ∧ (∀ label value k, label ≠ "" → value ≠ "" → fieldOf (toLowerCase label) = Some k →
       foldl setByLabel ∅ (divs ++ [(label, value)]) !! k = Some (JStr value))
  ∧ (∀ lowerLabel, includes "yield" lowerLabel = true → fieldOf lowerLabel = Some "yield").
Proof.
  split; [|split; [|split]].
  - unfold labelsRoute.
    destruct (size (foldl setByLabel ∅ divs) =? 0)%nat eqn:E; simpl.
    + apply Nat.eqb_eq, map_size_empty_iff in E. split; [|done].
      intros _ label value Hin Hl Hv.
      destruct (fieldOf (toLowerCase label)) as [k|] eqn:Ek; [|done].
      exfalso. apply list_elem_of_split in Hin as (l1 & l2 & ->).
      rewrite foldl_app in E. simpl in E.
      apply String.eqb_neq in Hl, Hv. rewrite Hl, Hv, Ek in E. simpl in E.
      destruct (setByLabel_grows l2 (<[k:=JStr value]> (foldl setByLabel ∅ l1)) k)
        as [x Hx]; [rewrite lookup_insert_eq; by eexists|].
      by rewrite E, lookup_empty in Hx.
    + split; [done|]. intros Hall. exfalso.
      apply Nat.eqb_neq in E. apply E, map_size_empty_iff, map_empty. intros k.
      destruct (foldl setByLabel ∅ divs !! k) as [x|] eqn:Hk; [|done].
      destruct (setByLabel_keys divs ∅ k) as [[? H]|(l & v & Hin & Hl & Hv & Hf)];
        [by eexists|by rewrite lookup_empty in H|].
      by rewrite (Hall l v Hin Hl Hv) in Hf.
  - unfold labelsRoute. destruct (size _ =? 0)%nat; simpl; rewrite !elem_of_cons; auto.
  - intros label value k Hl Hv Hk. rewrite foldl_app. simpl.
    apply String.eqb_neq in Hl, Hv. rewrite Hl, Hv, Hk. simpl.
    by rewrite lookup_insert_eq.
  - intros lowerLabel H. unfold fieldOf. by rewrite H.
Qed.

(** X28. The row version of [part_000] answers 200 whenever the page has a row,
    always with the four fields: a field is the text of its cell, and the
    empty string when the row has no such cell. *)
Theorem rows_answer (param : string) (tds : list string) :
  ∃ o, (rowsRoute param (inr (Some tds))).1 = {| Http.status := 200; Http.body := JObj o |}
    ∧ o !! "ticker" = Some (JStr (toUpperCase param))
    ∧ o !! "exDate" = Some (JStr (default "" (tds !! 0%nat)))
    ∧ o !! "payDate" = Some (JStr (default "" (tds !! 1%nat)))
    ∧ o !! "dividend" = Some (JStr (default "" (tds !! 2%nat)))
    ∧ o !! "yield" = Some (JStr (default "" (tds !! 3%nat)))
    ∧ size o = 5%nat
    ∧ Http.status (rowsRoute param (inr None)).1 = 404.
Proof.
  unfold rowsRoute. simpl. eexists. split; [done|]. repeat split; reflexivity.
Qed.

End Routes.

End Variants.
